(** * SegLink ground-truth encoding and decoding ([tf_extended/seglink.py])

    A shallow embedding of the geometric and graph core of the module:
    the oriented-rectangle primitives, the anchor matcher, the link
    ground-truth builder, the segment grouper (union-find over a Python
    dict) and the box synthesizer.

    Numbers.  The rectangles are numpy float arrays.  Their arithmetic is
    modelled by real arithmetic on [R] (no rounding, no overflow, no NaN);
    [np.tan], [np.cos], [np.sin] and [np.sqrt] are the functions of the
    Standard Library.  Two operations of the code have no real
    counterpart: a division by zero (numpy gives [inf] or [nan], [R]
    gives [0]) and the tangent of [90 + 180 n] degrees (numpy gives a
    large finite number, [R] gives [0]).  The theorems that depend on the
    value of such a quotient or of the slope carry the hypothesis that
    keeps them away from these points: sides that are positive, a mean
    angle whose cosine is not zero.  Match labels and link labels are
    [int32] arrays and are modelled by [Z]; confidence scores are only
    ever compared with the two thresholds and are modelled by [Q].

    Arrays.  A numpy array is a shape and a flat row-major buffer; indexing
    is strict: an access outside the shape raises in the model.

    Errors.  A Python exception is a [Raise] in the [result] monad. *)

From Stdlib Require Import ZArith List Lia Reals Lra QArith Bool.
From stdpp Require Import base option list sorting gmap.

(** ** Exceptions *)

Inductive exn : Set :=
| AssertionError
| ValueError
| IndexError
| KeyError
| OutOfFuel.   (* a [while] loop of the model that used up its fuel *)

Inductive result (A : Type) : Type :=
| Ok (a : A)
| Raise (e : exn).
Arguments Ok {A} a.
Arguments Raise {A} e.

#[global] Instance result_ret : MRet result := fun A a => Ok a.
#[global] Instance result_bind : MBind result :=
  fun A B f m => match m with Ok a => f a | Raise e => Raise e end.

(** [assert c] *)
Definition py_assert (c : bool) : result unit :=
  if c then Ok tt else Raise AssertionError.

(** A [for] loop whose body may raise. *)
Fixpoint foldM {A S : Type} (f : S -> A -> result S) (l : list A) (s : S)
  : result S :=
  match l with
  | [] => Ok s
  | a :: l' => s' ← f s a; foldM f l' s'
  end.

(** ** Geometry primitives *)

Section geometry.
Local Open Scope R_scope.

(** [cx, cy, w, h, theta] *)
Record rect : Type := Rect
  { r_cx : R; r_cy : R; r_w : R; r_h : R; r_theta : R }.

(** [acx, acy, aw, ah] *)
Record anchor : Type := Anchor
  { a_cx : R; a_cy : R; a_w : R; a_h : R }.

Definition Rgtb (x y : R) : bool := if Rgt_dec x y then true else false.
Definition Rltb (x y : R) : bool := if Rlt_dec x y then true else false.
Definition Rleb (x y : R) : bool := if Rle_dec x y then true else false.
Definition Reqb (x y : R) : bool := if Req_dec_T x y then true else false.

(** The body of the loop of [transform_cv_rect]: one row of the array. *)
Definition transform_cv_rect_row (r : rect) : rect :=
  let '(Rect cx cy w h theta) := r in
  if Rgtb (Rabs theta) 45 || (Reqb (Rabs theta) 45 && Rltb w h)
  then Rect cx cy h w (90 + theta)
  else Rect cx cy w h theta.

(** [transform_cv_rect] on an [(N, 5)] array; on a [(5,)] vector it is
    [transform_cv_rect_row]. *)
Definition transform_cv_rect (rects : list rect) : list rect :=
  map transform_cv_rect_row rects.

(** [cv2.getRotationMatrix2D(center, angle, scale)], from OpenCV's
    documentation: with [a = scale * cos angle] and [b = scale * sin angle]
    (angle in degrees), the matrix
    [[a, b, (1-a)*cx - b*cy], [-b, a, b*cx + (1-a)*cy]]. *)
Definition getRotationMatrix2D (center : R * R) (angle scale : R)
  : (R * R * R) * (R * R * R) :=
  let '(ccx, ccy) := center in
  let a := scale * cos (angle * PI / 180) in
  let b := scale * sin (angle * PI / 180) in
  ((a, b, (1 - a) * ccx - b * ccy), (- b, a, b * ccx + (1 - a) * ccy)).

(** [np.dot(M, np.transpose([x, y, 1]))] for a 2x3 matrix. *)
Definition dot23 (M : (R * R * R) * (R * R * R)) (x y : R) : R * R :=
  let '((m00, m01, m02), (m10, m11, m12)) := M in
  (m00 * x + m01 * y + m02 * 1, m10 * x + m11 * y + m12 * 1).

Definition rotate_oriented_bbox_to_horizontal (center : R * R) (bbox : rect)
  : rect :=
  let '(Rect cx cy w h theta) := bbox in
  let M := getRotationMatrix2D center theta 1 in
  let '(cx', cy') := dot23 M cx cy in
  Rect cx' cy' w h theta.

Definition crop_horizontal_bbox_using_anchor (bbox : rect) (anc : anchor)
  : rect :=
  let '(Anchor acx acy aw ah) := anc in
  let axmin := acx - aw / 2 in
  let axmax := acx + aw / 2 in
  let '(Rect cx cy w h theta) := bbox in
  let xmin := cx - w / 2 in
  let xmax := cx + w / 2 in
  let xmin := Rmax xmin axmin in
  let xmax := Rmin xmax axmax in
  let cx := (xmin + xmax) / 2 in
  let w := xmax - xmin in
  Rect cx cy w h theta.

Definition rotate_horizontal_bbox_to_oriented (center : R * R) (bbox : rect)
  : rect :=
  let '(Rect cx cy w h theta) := bbox in
  let M := getRotationMatrix2D center (- theta) 1 in
  let '(cx', cy') := dot23 M cx cy in
  Rect cx' cy' w h theta.

Definition cal_seg_gt_for_single_anchor (anc : anchor) (r : rect) : rect :=
  let center := (a_cx anc, a_cy anc) in
  let r := rotate_oriented_bbox_to_horizontal center r in
  let r := crop_horizontal_bbox_using_anchor r anc in
  let r := rotate_horizontal_bbox_to_oriented center r in
  r.

(** [anchor_rect_height_ratio]: [anchor[2]] is the side of the anchor,
    [rect[2]] and [rect[3]] the two sides of the rectangle, all three
    not zero. *)
Definition anchor_rect_height_ratio (anc : anchor) (rect : rect) : R :=
  let rect_height := Rmin (r_w rect) (r_h rect) in
  let anchor_height := a_w anc * 1 in
  let ratio := anchor_height / rect_height in
  Rmax ratio (1 / ratio).

End geometry.

(** ** External collaborators and configuration *)

(** The contour primitives of [util.img] and [cv2.minAreaRect] are not part
    of the module: they are an interface. *)
Class Cv2 : Type := {
  contour : Type;
  points_to_contour : list (R * R) -> contour;
  is_in_contour : R * R -> contour -> bool;
  minAreaRect : contour -> (R * R) * (R * R) * R
}.

(** The module [config].  [feat_shapes] lists the [(h, w)] shape of every
    layer in the order of [config.feat_layers]; the layer names are
    distinct dictionary keys and play no other role, so a layer is known
    by its position. *)
Record config : Type := Config {
  feat_shapes : list (nat * nat);
  default_anchors : list anchor;
  max_height_ratio : R;
  image_shape : R * R;
  seg_confidence_threshold : Q;
  link_confidence_threshold : Q
}.

(** [l[i]] on a Python list or along the first axis of an array. *)
Definition py_get {A : Type} (e : exn) (l : list A) (i : nat) : result A :=
  match l !! i with
  | Some a => Ok a
  | None => Raise e
  end.

(** [enumerate(l)] *)
Definition enumerate {A : Type} (l : list A) : list (nat * A) :=
  zip (seq 0 (length l)) l.

(** ** Anchor matcher *)

Section matcher.
Context `{Cv2}.
Local Open Scope R_scope.

Definition min_area_rect (xs ys : list (list R)) : list rect :=
  map (fun '(rx, ry) =>
         let points := zip rx ry in
         let cnt := points_to_contour points in
         let '((cx, cy), (w, h), theta) := minAreaRect cnt in
         Rect cx cy w h theta)
      (zip xs ys).

(** [np.shape(xs) == np.shape(ys) and np.shape(ys)[1] == 4] *)
Definition shape_N4 (xs ys : list (list R)) : bool :=
  Nat.eqb (length xs) (length ys)
  && forallb (fun r => Nat.eqb (length r) 4) xs
  && forallb (fun r => Nat.eqb (length r) 4) ys.

(** The center point check and the height ratio check.  The quotients of
    the height ratio check are those of the code when the side of the
    anchor and the two sides of the rectangle are not zero. *)
Definition center_point_matched (anc : anchor) (cnt : contour) : bool :=
  is_in_contour (a_cx anc, a_cy anc) cnt.

Definition height_matched (cfg : config) (anc : anchor) (rect : rect) : bool :=
  let height := Rmin (r_w rect) (r_h rect) in
  let ratio := a_w anc / height in
  Rleb (Rmax ratio (1 / ratio)) (max_height_ratio cfg).

(** The body of the loop over [bbox_idx]; [st] is [(labels, seg_gt)]. *)
Definition match_bbox (cfg : config) (anc : anchor) (anchor_idx : nat)
    (cnts : list contour) (rects : list rect)
    (st : list Z * list rect) (bbox_idx : nat) : result (list Z * list rect) :=
  cnt ← py_get IndexError cnts bbox_idx;
  if negb (center_point_matched anc cnt) then Ok st
  else
    rect ← py_get IndexError rects bbox_idx;
    if height_matched cfg anc rect && center_point_matched anc cnt
    then Ok (<[anchor_idx := Z.of_nat bbox_idx]> (st.1),
             <[anchor_idx := cal_seg_gt_for_single_anchor anc rect]> (st.2))
    else Ok st.

Definition zero_rect : rect := Rect 0 0 0 0 0.

(** The list [cnts] of the contours of the boxes. *)
Definition contours_of (xs ys : list (list R)) : list contour :=
  map (fun '(rx, ry) => points_to_contour (zip rx ry)) (zip xs ys).

Definition match_anchor_to_text_boxes (cfg : config) (anchors : list anchor)
    (xs ys : list (list R)) : result (list Z * list rect) :=
  _ ← py_assert (shape_N4 xs ys);
  let num_anchors := length anchors in
  let labels := replicate num_anchors (-1)%Z in
  let seg_gt := replicate num_anchors zero_rect in
  let num_bboxes := length xs in
  let rects := transform_cv_rect (min_area_rect xs ys) in
  let cnts := contours_of xs ys in
  foldM (fun st anchor_idx =>
           anc ← py_get IndexError anchors anchor_idx;
           foldM (match_bbox cfg anc anchor_idx cnts rects)
                 (seq 0 num_bboxes) st)
        (seq 0 num_anchors) (labels, seg_gt).

End matcher.

(** ** Box synthesizer *)

Section synthesizer.
Local Open Scope R_scope.

(** The module's own [sin], [cos] and [tan], in degrees.  [tan_deg] is
    the slope the code computes where the cosine is not zero. *)
Definition sin_deg (theta : R) : R := sin (theta / 180 * PI).
Definition cos_deg (theta : R) : R := cos (theta / 180 * PI).
Definition tan_deg (theta : R) : R := tan (theta / 180 * PI).

(** [np.mean] of a vector. *)
Definition np_mean (l : list R) : R :=
  fold_right Rplus 0 l / INR (length l).

(** [np.sqrt(np.sum((point1 - point2) ** 2))] *)
Definition point_dist (p q : R * R) : R :=
  sqrt ((p.1 - q.1) ^ 2 + (p.2 - q.2) ^ 2).

(** The body of the loop over [j]; [st] is [(max_dist, idx1, idx2)]. *)
Definition max_dist_inner (proj_points : list (R * R)) (i : nat)
    (point1 : R * R) (st : R * Z * Z) (j : nat) : result (R * Z * Z) :=
  point2 ← py_get IndexError proj_points j;
  let dist := point_dist point1 point2 in
  if Rgtb dist (st.1.1) then Ok (dist, Z.of_nat i, Z.of_nat j) else Ok st.

(** The body of the loop over [i]. *)
Definition max_dist_outer (proj_points : list (R * R))
    (st : R * Z * Z) (i : nat) : result (R * Z * Z) :=
  point1 ← py_get IndexError proj_points i;
  foldM (max_dist_inner proj_points i point1)
        (seq (i + 1) (length proj_points - (i + 1))) st.

Definition proj_points_of (segs : list rect) : list (R * R) :=
  let cxs := map r_cx segs in
  let cys := map r_cy segs in
  let bar_theta := np_mean (map r_theta segs) in
  let k := tan_deg bar_theta in
  let b := np_mean (zip_with (fun y x => y - k * x) cys cxs) in
  let t_cys := map (fun y => y - b) cys in
  let projs := zip_with (fun x ty => (x + k * ty) / sqrt (1 + k ^ 2)) cxs t_cys in
  map (fun p => (p * cos_deg bar_theta, p * sin_deg bar_theta)) projs.

Definition combine_segs (segs : list rect)
  : result (R * R * R * R * R * R) :=
  (* an empty list is a 1-d array: [assert segs.ndim == 2] *)
  _ ← py_assert (negb (Nat.eqb (length segs) 0));
  let cxs := map r_cx segs in
  let cys := map r_cy segs in
  let bar_theta := np_mean (map r_theta segs) in
  let k := tan_deg bar_theta in
  let b := np_mean (zip_with (fun y x => y - k * x) cys cxs) in
  let proj_points := proj_points_of segs in
  st ← foldM (max_dist_outer proj_points)
             (seq 0 (length proj_points)) (0, (-1)%Z, (-1)%Z);
  let '(max_dist, idx1, idx2) := st in
  _ ← py_assert ((0 <=? idx1)%Z && (0 <=? idx2)%Z);
  seg1 ← py_get IndexError segs (Z.to_nat idx1);
  seg2 ← py_get IndexError segs (Z.to_nat idx2);
  let bcx := (r_cx seg1 + r_cx seg2) / 2 in
  let bcy := (r_cy seg1 + r_cy seg2) / 2 in
  let bh := np_mean (map r_h segs) in
  let bw := max_dist + (r_w seg1 + r_w seg2) / 2 in
  Ok (bcx, bcy, bw, bh, bar_theta, b).

End synthesizer.

(** ** numpy arrays of rank 1, 2 and 3 *)

Section arrays.
Context {A : Type}.

(** An array of shape [(h, w)]: cell [[y, x]] is at [y * w + x]. *)
Record array2 : Type := Array2
  { a2_h : nat; a2_w : nat; a2_data : list A }.

(** An array of shape [(h, w, d)]: cell [[y, x, k]] is at
    [(y * w + x) * d + k]. *)
Record array3 : Type := Array3
  { a3_h : nat; a3_w : nat; a3_d : nat; a3_data : list A }.

Definition in_range (i : Z) (n : nat) : bool :=
  (0 <=? i)%Z && (i <? Z.of_nat n)%Z.

(** [v[i]] *)
Definition get1 (v : list A) (i : Z) : result A :=
  if in_range i (length v)
  then py_get IndexError v (Z.to_nat i)
  else Raise IndexError.

(** [a[y, x]] *)
Definition get2 (a : array2) (y x : Z) : result A :=
  if in_range y (a2_h a) && in_range x (a2_w a)
  then py_get IndexError (a2_data a)
                (Z.to_nat (y * Z.of_nat (a2_w a) + x))
  else Raise IndexError.

Definition index3 (a : array3) (y x k : Z) : nat :=
  Z.to_nat ((y * Z.of_nat (a3_w a) + x) * Z.of_nat (a3_d a) + k).

(** [a[y, x, k]] *)
Definition get3 (a : array3) (y x k : Z) : result A :=
  if in_range y (a3_h a) && in_range x (a3_w a) && in_range k (a3_d a)
  then py_get IndexError (a3_data a) (index3 a y x k)
  else Raise IndexError.

(** [a[y, x, k] = v] *)
Definition set3 (a : array3) (y x k : Z) (v : A) : result array3 :=
  if in_range y (a3_h a) && in_range x (a3_w a) && in_range k (a3_d a)
  then Ok (Array3 (a3_h a) (a3_w a) (a3_d a)
                  (<[index3 a y x k := v]> (a3_data a)))
  else Raise IndexError.

(** [np.reshape(v, (h, w))] and [np.reshape(v, (h, w, d))] *)
Definition np_reshape2 (v : list A) (h w : nat) : result array2 :=
  if Nat.eqb (length v) (h * w) then Ok (Array2 h w v) else Raise ValueError.

Definition np_reshape3 (v : list A) (h w d : nat) : result array3 :=
  if Nat.eqb (length v) (h * w * d) then Ok (Array3 h w d v)
  else Raise ValueError.

(** [np.zeros((h, w, d))], with the zero given. *)
Definition np_full3 (h w d : nat) (z : A) : array3 :=
  Array3 h w d (replicate (h * w * d) z).

(** [np.hstack] of a list of vectors: it raises on the empty list. *)
Definition np_hstack (vs : list (list A)) : result (list A) :=
  match vs with
  | [] => Raise ValueError
  | _ => Ok (concat vs)
  end.

(** [v[i : i + n]]: a slice is clipped to the vector. *)
Definition py_slice (v : list A) (i n : nat) : list A := take n (drop i v).

End arrays.
Arguments array2 A : clear implicits.
Arguments array3 A : clear implicits.

(** ** Layers *)

Section layers.
Context {A : Type}.

Definition reshape_labels_by_layer (shapes : list (nat * nat))
    (labels : list A) : result (list (array2 A)) :=
  st ← foldM (fun '(layer_labels, idx) '(h, w) =>
                let label_length := (h * w)%nat in
                let layer_match_result := py_slice labels idx label_length in
                let idx := (idx + label_length)%nat in
                layer_match_result ← np_reshape2 layer_match_result h w;
                Ok (layer_labels ++ [layer_match_result], idx))
             shapes ([], 0%nat);
  let '(layer_labels, idx) := st in
  _ ← py_assert (Nat.eqb idx (length labels));
  Ok layer_labels.

(** The two dictionaries are lists: the inter-layer one by layer position,
    the cross-layer one by layer position minus one. *)
Definition reshape_link_gt_by_layer (shapes : list (nat * nat))
    (link_gt : list A) : result (list (array3 A) * list (array3 A)) :=
  st ← foldM (fun '(inter_layer_link_gts, idx) '(lh, lw) =>
                let length := (lh * lw * 8)%nat in
                let layer_link_gt := py_slice link_gt idx length in
                let idx := (idx + length)%nat in
                layer_link_gt ← np_reshape3 layer_link_gt lh lw 8;
                Ok (inter_layer_link_gts ++ [layer_link_gt], idx))
             shapes ([], 0%nat);
  let '(inter_layer_link_gts, idx) := st in
  st ← foldM (fun '(cross_layer_link_gts, idx) '(lh, lw) =>
                let length := (lh * lw * 4)%nat in
                let layer_link_gt := py_slice link_gt idx length in
                let idx := (idx + length)%nat in
                layer_link_gt ← np_reshape3 layer_link_gt lh lw 4;
                Ok (cross_layer_link_gts ++ [layer_link_gt], idx))
             (drop 1 shapes) ([], idx);
  let '(cross_layer_link_gts, idx) := st in
  _ ← py_assert (Nat.eqb idx (length link_gt));
  Ok (inter_layer_link_gts, cross_layer_link_gts).

End layers.

Local Open Scope Z_scope.

Definition get_inter_layer_neighbours (x y : Z) : list (Z * Z) :=
  [(x - 1, y - 1); (x, y - 1); (x + 1, y - 1);
   (x - 1, y);                 (x + 1, y);
   (x - 1, y + 1); (x, y + 1); (x + 1, y + 1)].

Definition get_cross_layer_neighbours (x y : Z) : list (Z * Z) :=
  [(2 * x, 2 * y); (2 * x + 1, 2 * y); (2 * x, 2 * y + 1);
   (2 * x + 1, 2 * y + 1)].

Definition is_valid_cord (x y w h : Z) : bool :=
  (0 <=? x) && (x <? w) && (0 <=? y) && (y <? h).

(** ** Link ground truth *)

(** The loop over the neighbours of cell [(x, y)]: [labels] is the label
    array the neighbours are read from, of width [w] and height [h];
    [link_gt] is the array written. *)
Definition cal_link_neighbours (labels : array2 Z) (w h : Z)
    (matched_idx : Z) (x y : Z) (neighbours : list (Z * Z))
    (link_gt : array3 Z) : result (array3 Z) :=
  foldM (fun link_gt '(nidx, (nx, ny)) =>
           if is_valid_cord nx ny w h then
             n_matched_idx ← get2 labels ny nx;
             if matched_idx =? n_matched_idx
             then set3 link_gt y x (Z.of_nat nidx) 1
             else Ok link_gt
           else Ok link_gt)
        (enumerate neighbours) link_gt.

(** The body of the loops over [x] and [y]; [st] is
    [(inter_layer_link_gt, cross_layer_link_gt)]. *)
Definition cal_link_cell (shapes : list (nat * nat))
    (layer_labels : list (array2 Z)) (layer_idx : nat)
    (layer_match_result : array2 Z) (h w : nat)
    (st : array3 Z * array3 Z) (x y : Z) : result (array3 Z * array3 Z) :=
  let '(inter_layer_link_gt, cross_layer_link_gt) := st in
  m ← get2 layer_match_result y x;
  if 0 <=? m then
    let matched_idx := m in
    (* inter layer *)
    let neighbours := get_inter_layer_neighbours x y in
    inter_layer_link_gt ←
      cal_link_neighbours layer_match_result (Z.of_nat w) (Z.of_nat h)
        matched_idx x y neighbours inter_layer_link_gt;
    (* cross layer *)
    if (0 <? layer_idx)%nat then
      ps ← py_get KeyError shapes (layer_idx - 1);
      let '(ph, pw) := ps in
      previous_layer_match_result ←
        py_get KeyError layer_labels (layer_idx - 1);
      let neighbours := get_cross_layer_neighbours x y in
      cross_layer_link_gt ←
        cal_link_neighbours previous_layer_match_result
          (Z.of_nat pw) (Z.of_nat ph)
          matched_idx x y neighbours cross_layer_link_gt;
      Ok (inter_layer_link_gt, cross_layer_link_gt)
    else Ok (inter_layer_link_gt, cross_layer_link_gt)
  else Ok st.

(** The body of the loop over the layers; [st] is
    [(inter_layer_link_gts, cross_layer_link_gts)]. *)
Definition cal_link_layer (shapes : list (nat * nat))
    (layer_labels : list (array2 Z))
    (st : list (array3 Z) * list (array3 Z)) (layer : nat * (nat * nat))
  : result (list (array3 Z) * list (array3 Z)) :=
  let '(inter_layer_link_gts, cross_layer_link_gts) := st in
  let '(layer_idx, (h, w)) := layer in
  layer_match_result ← py_get KeyError layer_labels layer_idx;
  let inter_layer_link_gt := np_full3 h w 8 0 in
  let cross_layer_link_gt := np_full3 h w 4 0 in
  gts ← foldM (fun st x =>
                 foldM (fun st y =>
                          cal_link_cell shapes layer_labels layer_idx
                            layer_match_result h w st x y)
                       (seqZ 0 (Z.of_nat h)) st)
              (seqZ 0 (Z.of_nat w))
              (inter_layer_link_gt, cross_layer_link_gt);
  let '(inter_layer_link_gt, cross_layer_link_gt) := gts in
  Ok (inter_layer_link_gts ++ [inter_layer_link_gt],
      if (0 <? layer_idx)%nat
      then cross_layer_link_gts ++ [cross_layer_link_gt]
      else cross_layer_link_gts).

Definition cal_link_gt (cfg : config) (labels : list Z) : result (list Z) :=
  let shapes := feat_shapes cfg in
  layer_labels ← reshape_labels_by_layer shapes labels;
  gts ← foldM (cal_link_layer shapes layer_labels) (enumerate shapes) ([], []);
  let '(inter_layer_link_gts, cross_layer_link_gts) := gts in
  inter_layer_link_gts ← np_hstack (map a3_data inter_layer_link_gts);
  cross_layer_link_gts ← np_hstack (map a3_data cross_layer_link_gts);
  np_hstack [inter_layer_link_gts; cross_layer_link_gts].

(** ** The top-level encoder *)

Section encoder.
Context `{Cv2}.

(** [np.asarray(seg_gt) / [w_I, h_I, w_I, h_I, 1.0]] *)
Definition normalize_seg_gt (cfg : config) (seg_gt : list rect) : list rect :=
  let '(h_I, w_I) := image_shape cfg in
  map (fun r => Rect (r_cx r / w_I) (r_cy r / h_I) (r_w r / w_I)
                     (r_h r / h_I) (r_theta r / 1))%R
      seg_gt.

(** [np.asarray(labels >= 0, dtype = np.int32)] *)
Definition labels_ge_0 (labels : list Z) : list Z :=
  map (fun l => if 0 <=? l then 1 else 0) labels.

Definition get_all_seglink_gt (cfg : config) (xs ys : list (list R))
    (normalize : bool) : result (list Z * list rect * list Z) :=
  let anchors := default_anchors cfg in
  r ← match_anchor_to_text_boxes cfg anchors xs ys;
  let '(labels, seg_gt) := r in
  link_gt ← cal_link_gt cfg labels;
  let seg_gt := if normalize then normalize_seg_gt cfg seg_gt else seg_gt in
  let labels := labels_ge_0 labels in
  Ok (labels, seg_gt, link_gt).

End encoder.

(** ** Segment grouper *)

(** [d[k]] on a dictionary. *)
Definition dict_get {V : Type} (d : gmap Z V) (k : Z) : result V :=
  match d !! k with
  | Some v => Ok v
  | None => Raise KeyError
  end.

(** [score >= threshold] *)
Definition score_ge (score threshold : Q) : bool := Qle_bool threshold score.

(** The [while] loop of [get_root], with fuel. *)
Fixpoint get_root_loop (fuel : nat) (mask : gmap Z Z) (idx parent : Z)
  : result Z :=
  if parent =? -1 then Ok idx
  else match fuel with
       | O => Raise OutOfFuel
       | S fuel =>
         let idx := parent in
         parent ← dict_get mask parent;
         get_root_loop fuel mask idx parent
       end.

(** A chain of parents in a forest over [mask] has fewer links than
    [mask] has keys: this is the fuel. *)
Definition get_root (mask : gmap Z Z) (idx : Z) : result Z :=
  parent ← dict_get mask idx;
  get_root_loop (size mask) mask idx parent.

Definition union (mask : gmap Z Z) (idx1 idx2 : Z) : result (gmap Z Z) :=
  root1 ← get_root mask idx1;
  root2 ← get_root mask idx2;
  if negb (root1 =? root2) then Ok (<[root1 := root2]> mask) else Ok mask.

(** The body of the loop of [to_list]. *)
Definition to_list_step (mask : gmap Z Z) (res : gmap Z (list Z))
    (idx : Z) : result (gmap Z (list Z)) :=
  root ← get_root mask idx;
  let res :=
    match res !! root with
    | None => <[root := []]> res
    | Some _ => res
    end in
  l ← dict_get res root;
  Ok (<[root := l ++ [idx]]> res).

(** The dictionaries are walked in the order of their keys in the model;
    Python fixes some order of its own. *)
Definition to_list (mask : gmap Z Z) : result (list (list Z)) :=
  res ← foldM (to_list_step mask) (map fst (map_to_list mask)) ∅;
  Ok (map snd (map_to_list res)).

(** [np.where(seg_scores >= seg_confidence_threshold)[0]] *)
Definition valid_segs (cfg : config) (seg_scores : list Q) : list Z :=
  map (fun p => Z.of_nat (fst p))
      (List.filter (fun p => score_ge (snd p) (seg_confidence_threshold cfg))
                   (enumerate seg_scores)).

(** The loop over the neighbours of a cell of the grouper: [seg_index] is
    the cell's segment, [n_seg_indexes] the index array of the layer the
    neighbours lie in, of width [w] and height [h], [link_score] the link
    scores of the cell's layer. *)
Definition group_neighbours (cfg : config) (seg_scores : list Q)
    (n_seg_indexes : array2 Z) (w h : Z) (link_score : array3 Q)
    (seg_index : Z) (x y : Z) (neighbours : list (Z * Z))
    (mask : gmap Z Z) : result (gmap Z Z) :=
  foldM (fun mask '(nidx, (nx, ny)) =>
           if is_valid_cord nx ny w h then
             n_seg_index ← get2 n_seg_indexes ny nx;
             n_seg_score ← get1 seg_scores n_seg_index;
             if score_ge n_seg_score (seg_confidence_threshold cfg) then
               l ← get3 link_score y x (Z.of_nat nidx);
               if score_ge l (link_confidence_threshold cfg)
               then union mask seg_index n_seg_index
               else Ok mask
             else Ok mask
           else Ok mask)
        (enumerate neighbours) mask.

(** The body of the loops over [y] and [x]. *)
Definition group_cell (cfg : config) (seg_scores : list Q)
    (layer_seg_index : array2 Z) (lh lw : nat)
    (layer_inter_link_score : array3 Q)
    (previous : option (array2 Z * (nat * nat) * array3 Q))
    (mask : gmap Z Z) (y x : Z) : result (gmap Z Z) :=
  seg_index ← get2 layer_seg_index y x;
  _seg_score ← get1 seg_scores seg_index;
  if score_ge _seg_score (seg_confidence_threshold cfg) then
    (* find inter layer linked neighbours *)
    let inter_layer_neighbours := get_inter_layer_neighbours x y in
    mask ← group_neighbours cfg seg_scores layer_seg_index
             (Z.of_nat lw) (Z.of_nat lh) layer_inter_link_score
             seg_index x y inter_layer_neighbours mask;
    (* find cross layer linked neighbours *)
    match previous with
    | Some (previous_layer_seg_index, (plh, plw), layer_cross_link_score) =>
      let cross_layer_neighbours := get_cross_layer_neighbours x y in
      group_neighbours cfg seg_scores previous_layer_seg_index
        (Z.of_nat plw) (Z.of_nat plh) layer_cross_link_score
        seg_index x y cross_layer_neighbours mask
    | None => Ok mask
    end
  else Ok mask.

(** The body of the loop over the layers.  [previous] is [Some] exactly
    when [layer_index > 0]: the previous layer's index array and shape and
    this layer's cross-layer link scores. *)
Definition group_layer (cfg : config) (seg_scores : list Q)
    (layer_seg_indexes : list (array2 Z))
    (layer_inter_link_scores layer_cross_link_scores : list (array3 Q))
    (mask : gmap Z Z) (layer : nat * (nat * nat)) : result (gmap Z Z) :=
  let '(layer_index, (lh, lw)) := layer in
  layer_seg_index ← py_get KeyError layer_seg_indexes layer_index;
  layer_inter_link_score ← py_get KeyError layer_inter_link_scores layer_index;
  previous ←
    (if (0 <? layer_index)%nat then
       previous_layer_seg_index ←
         py_get KeyError layer_seg_indexes (layer_index - 1);
       previous_layer_shape ←
         py_get KeyError (feat_shapes cfg) (layer_index - 1);
       layer_cross_link_score ←
         py_get KeyError layer_cross_link_scores (layer_index - 1);
       Ok (Some (previous_layer_seg_index, previous_layer_shape,
                 layer_cross_link_score))
     else Ok None);
  foldM (fun mask y =>
           foldM (fun mask x =>
                    group_cell cfg seg_scores layer_seg_index lh lw
                      layer_inter_link_score previous mask y x)
                 (seqZ 0 (Z.of_nat lw)) mask)
        (seqZ 0 (Z.of_nat lh)) mask.

Definition group_segs (cfg : config) (seg_scores link_scores : list Q)
  : result (list (list Z)) :=
  let mask := foldl (fun mask s => <[s := -1]> mask) ∅
                    (valid_segs cfg seg_scores) in
  let seg_indexes := seqZ 0 (Z.of_nat (length seg_scores)) in
  layer_seg_indexes ← reshape_labels_by_layer (feat_shapes cfg) seg_indexes;
  scores ← reshape_link_gt_by_layer (feat_shapes cfg) link_scores;
  let '(layer_inter_link_scores, layer_cross_link_scores) := scores in
  mask ← foldM (group_layer cfg seg_scores layer_seg_indexes
                  layer_inter_link_scores layer_cross_link_scores)
               (enumerate (feat_shapes cfg)) mask;
  to_list mask.

(** [seglink_to_bbox]: every group of the grouper goes to the synthesizer. *)
Definition seglink_to_bbox (cfg : config) (seg_scores link_scores : list Q)
    (segs : list rect) : result (list (R * R * R * R * R * R)) :=
  seg_groups ← group_segs cfg seg_scores link_scores;
  foldM (fun bboxes group =>
           group ← foldM (fun g idx => s ← get1 segs idx; Ok (g ++ [s]))
                         group [];
           bbox ← combine_segs group;
           Ok (bboxes ++ [bbox]))
        seg_groups [].

(** * Properties *)

(** ** The [result] monad and its loops *)

Lemma bind_Ok {A B : Type} (f : A -> result B) (a : A) :
  (Ok a ≫= f) = f a.
Proof. reflexivity. Qed.

Lemma bind_Ok_inv {A B : Type} (f : A -> result B) (m : result A) (b : B) :
  (m ≫= f) = Ok b -> exists a, m = Ok a /\ f a = Ok b.
Proof. destruct m as [a|e]; simpl; [eauto | discriminate]. Qed.

Lemma foldM_cons {A S : Type} (f : S -> A -> result S) (a : A) (l : list A)
    (s : S) :
  foldM f (a :: l) s = (f s a ≫= foldM f l).
Proof. reflexivity. Qed.

Lemma foldM_app {A S : Type} (f : S -> A -> result S) (l1 l2 : list A) (s : S) :
  foldM f (l1 ++ l2) s = (foldM f l1 s ≫= foldM f l2).
Proof.
  revert s. induction l1 as [|a l1 IH]; intros s; simpl; [reflexivity|].
  destruct (f s a) as [s'|e]; simpl; [apply IH | reflexivity].
Qed.

(** A loop whose body keeps an invariant and never raises keeps the
    invariant and does not raise. *)
Lemma foldM_invariant {A S : Type} (P : S -> Prop) (f : S -> A -> result S)
    (l : list A) (s : S) :
  P s ->
  (forall a s, a ∈ l -> P s -> exists s', f s a = Ok s' /\ P s') ->
  exists s', foldM f l s = Ok s' /\ P s'.
Proof.
  revert s. induction l as [|a l IH]; intros s Hs Hf; simpl.
  - eauto.
  - destruct (Hf a s) as (s1 & -> & Hs1); [left | assumption |].
    simpl. apply IH; [assumption|].
    intros a' s' Ha'. apply Hf. by right.
Qed.

Lemma py_get_Ok {A : Type} (e : exn) (l : list A) (i : nat) (a : A) :
  l !! i = Some a -> py_get e l i = Ok a.
Proof. unfold py_get. by intros ->. Qed.

Lemma py_get_Ok_inv {A : Type} (e : exn) (l : list A) (i : nat) (a : A) :
  py_get e l i = Ok a -> l !! i = Some a.
Proof. unfold py_get. destruct (l !! i); congruence. Qed.

(** ** Comparisons of reals *)

Section real_comparisons.
Local Open Scope R_scope.

Lemma Rgtb_true (x y : R) : Rgtb x y = true <-> x > y.
Proof. unfold Rgtb. destruct (Rgt_dec x y); split; (congruence || tauto). Qed.

Lemma Rltb_true (x y : R) : Rltb x y = true <-> x < y.
Proof. unfold Rltb. destruct (Rlt_dec x y); split; (congruence || tauto). Qed.

Lemma Rleb_true (x y : R) : Rleb x y = true <-> x <= y.
Proof. unfold Rleb. destruct (Rle_dec x y); split; (congruence || tauto). Qed.

Lemma Reqb_true (x y : R) : Reqb x y = true <-> x = y.
Proof. unfold Reqb. destruct (Req_dec_T x y); split; (congruence || tauto). Qed.

End real_comparisons.

(** ** Geometry primitives *)

Section geometry_facts.
Local Open Scope R_scope.

Lemma rotate_to_horizontal_frame (center : R * R) (bbox : rect) :
  r_w (rotate_oriented_bbox_to_horizontal center bbox) = r_w bbox /\
  r_h (rotate_oriented_bbox_to_horizontal center bbox) = r_h bbox /\
  r_theta (rotate_oriented_bbox_to_horizontal center bbox) = r_theta bbox.
Proof.
  destruct bbox as [cx cy w h theta], center as [ccx ccy].
  unfold rotate_oriented_bbox_to_horizontal, getRotationMatrix2D, dot23.
  simpl. auto.
Qed.

Lemma rotate_to_oriented_frame (center : R * R) (bbox : rect) :
  r_w (rotate_horizontal_bbox_to_oriented center bbox) = r_w bbox /\
  r_h (rotate_horizontal_bbox_to_oriented center bbox) = r_h bbox /\
  r_theta (rotate_horizontal_bbox_to_oriented center bbox) = r_theta bbox.
Proof.
  destruct bbox as [cx cy w h theta], center as [ccx ccy].
  unfold rotate_horizontal_bbox_to_oriented, getRotationMatrix2D, dot23.
  simpl. auto.
Qed.

Lemma crop_frame (bbox : rect) (anc : anchor) :
  r_cy (crop_horizontal_bbox_using_anchor bbox anc) = r_cy bbox /\
  r_h (crop_horizontal_bbox_using_anchor bbox anc) = r_h bbox /\
  r_theta (crop_horizontal_bbox_using_anchor bbox anc) = r_theta bbox.
Proof. destruct bbox, anc. simpl. auto. Qed.

(** The four steps keep the angle of the rectangle. *)
Lemma cal_seg_gt_theta (anc : anchor) (r : rect) :
  r_theta (cal_seg_gt_for_single_anchor anc r) = r_theta r.
Proof.
  unfold cal_seg_gt_for_single_anchor.
  rewrite (proj2 (proj2 (rotate_to_oriented_frame _ _))).
  rewrite (proj2 (proj2 (crop_frame _ _))).
  apply rotate_to_horizontal_frame.
Qed.

(** On an angle of the range of [cv2.minAreaRect], [transform_cv_rect]
    gives an angle of the canonical range. *)
Lemma transform_cv_rect_row_theta (r : rect) :
  -90 <= r_theta r <= 0 ->
  -45 <= r_theta (transform_cv_rect_row r) <= 45.
Proof.
  destruct r as [cx cy w h theta]. simpl. intros Hth.
  destruct (Rgtb (Rabs theta) 45) eqn:Hgt; simpl.
  - apply Rgtb_true in Hgt. revert Hgt.
    unfold Rabs. destruct (Rcase_abs theta); intros; lra.
  - assert (Hle : Rabs theta <= 45).
    { destruct (Rle_dec (Rabs theta) 45) as [Hle|Hn]; [exact Hle|].
      exfalso. apply Rnot_le_gt in Hn. apply Rgtb_true in Hn. congruence. }
    destruct (Reqb (Rabs theta) 45 && Rltb w h) eqn:Heq; simpl.
    + apply andb_true_iff in Heq as [Heq _]. apply Reqb_true in Heq.
      revert Heq. unfold Rabs. destruct (Rcase_abs theta); intros; lra.
    + revert Hle. unfold Rabs. destruct (Rcase_abs theta); intros; lra.
Qed.

(** C9.  [crop_horizontal_bbox_using_anchor] recomputes [cx] and [w] from
    the intersection of the horizontal extent of the rectangle with that
    of the anchor and leaves [cy], [h] and [theta] unchanged; the two
    rotation steps change [cx] and [cy] only, leaving [w], [h] and [theta]
    unchanged. *)
Theorem crop_and_rotations_frame (center : R * R) (bbox : rect) (anc : anchor) :
  let xmin := Rmax (r_cx bbox - r_w bbox / 2) (a_cx anc - a_w anc / 2) in
  let xmax := Rmin (r_cx bbox + r_w bbox / 2) (a_cx anc + a_w anc / 2) in
  crop_horizontal_bbox_using_anchor bbox anc
    = Rect ((xmin + xmax) / 2) (r_cy bbox) (xmax - xmin) (r_h bbox)
           (r_theta bbox) /\
  (exists cx' cy',
     rotate_oriented_bbox_to_horizontal center bbox
       = Rect cx' cy' (r_w bbox) (r_h bbox) (r_theta bbox)) /\
  (exists cx' cy',
     rotate_horizontal_bbox_to_oriented center bbox
       = Rect cx' cy' (r_w bbox) (r_h bbox) (r_theta bbox)).
Proof.
  destruct bbox as [cx cy w h theta], anc as [acx acy aw ah],
    center as [ccx ccy].
  split; [reflexivity|].
  split; eexists _, _; reflexivity.
Qed.

End geometry_facts.

(** ** Anchor matcher *)

Section matcher_facts.
Context `{Cv2}.
Local Open Scope R_scope.

(** The last box below [k] that passes both checks for the anchor, with
    its rectangle. *)
Fixpoint last_match (cfg : config) (anc : anchor) (cnts : list contour)
    (rects : list rect) (k : nat) : option (nat * rect) :=
  match k with
  | O => None
  | S k' =>
    match cnts !! k', rects !! k' with
    | Some cnt, Some rect =>
      if center_point_matched anc cnt && height_matched cfg anc rect
      then Some (k', rect)
      else last_match cfg anc cnts rects k'
    | _, _ => last_match cfg anc cnts rects k'
    end
  end.

(** What a match writes in row [anchor_idx] of the two arrays. *)
Definition write_match (anc : anchor) (anchor_idx : nat)
    (m : option (nat * rect)) (st : list Z * list rect) : list Z * list rect :=
  match m with
  | None => st
  | Some (j, rect) =>
    (<[anchor_idx := Z.of_nat j]> (st.1),
     <[anchor_idx := cal_seg_gt_for_single_anchor anc rect]> (st.2))
  end.

Lemma write_match_twice anc i m j rect st :
  write_match anc i (Some (j, rect)) (write_match anc i m st)
  = write_match anc i (Some (j, rect)) st.
Proof.
  destruct m as [[j' rect']|]; simpl; [|reflexivity].
  by rewrite !list_insert_insert_eq.
Qed.

Lemma match_bbox_loop cfg anc i cnts rects st k :
  (k <= length cnts)%nat -> length rects = length cnts ->
  foldM (match_bbox cfg anc i cnts rects) (seq 0 k) st
  = Ok (write_match anc i (last_match cfg anc cnts rects k) st).
Proof.
  intros Hk Hlen. induction k as [|k IH]; [reflexivity|].
  rewrite seq_S, foldM_app, IH by lia. simpl.
  destruct (lookup_lt_is_Some_2 cnts k) as [cnt Hcnt]; [lia|].
  destruct (lookup_lt_is_Some_2 rects k) as [rect Hrect]; [lia|].
  unfold match_bbox. rewrite Hcnt, Hrect.
  rewrite (py_get_Ok _ _ _ _ Hcnt). simpl.
  destruct (center_point_matched anc cnt) eqn:Hc; simpl; [|reflexivity].
  rewrite (py_get_Ok _ _ _ _ Hrect). simpl.
  destruct (height_matched cfg anc rect) eqn:Hh; simpl; [|reflexivity].
  change (Ok (write_match anc i (Some (k, rect))
                (write_match anc i (last_match cfg anc cnts rects k) st))
          = Ok (write_match anc i (Some (k, rect)) st)).
  by rewrite write_match_twice.
Qed.

Lemma last_match_Some cfg anc cnts rects k j rect :
  last_match cfg anc cnts rects k = Some (j, rect) ->
  (j < k)%nat /\ rects !! j = Some rect /\
  exists cnt, cnts !! j = Some cnt /\
    center_point_matched anc cnt = true /\ height_matched cfg anc rect = true.
Proof.
  induction k as [|k IH]; simpl; [discriminate|].
  destruct (cnts !! k) as [cnt|] eqn:Hcnt;
    [destruct (rects !! k) as [rect'|] eqn:Hrect|].
  - destruct (center_point_matched anc cnt && height_matched cfg anc rect')
      eqn:Hp.
    + intros [= <- <-]. apply andb_true_iff in Hp as [Hc Hh].
      split; [lia|]. split; [assumption|]. eauto.
    + intros Hm. destruct (IH Hm) as (? & ? & ?). split; [lia | eauto].
  - intros Hm. destruct (IH Hm) as (? & ? & ?). split; [lia | eauto].
  - intros Hm. destruct (IH Hm) as (? & ? & ?). split; [lia | eauto].
Qed.

(** The last box that passes is the match. *)
Lemma last_match_last cfg anc cnts rects k j cnt rect :
  (j < k)%nat -> cnts !! j = Some cnt -> rects !! j = Some rect ->
  center_point_matched anc cnt = true -> height_matched cfg anc rect = true ->
  (forall j' cnt' rect', (j < j')%nat -> cnts !! j' = Some cnt' ->
     rects !! j' = Some rect' ->
     center_point_matched anc cnt' && height_matched cfg anc rect' = false) ->
  last_match cfg anc cnts rects k = Some (j, rect).
Proof.
  intros Hj Hcnt Hrect Hc Hh Hlater. induction k as [|k IH]; [lia|]. simpl.
  destruct (decide (j = k)) as [->|Hne].
  - by rewrite Hcnt, Hrect, Hc, Hh.
  - destruct (cnts !! k) as [cnt'|] eqn:Hcnt';
      [destruct (rects !! k) as [rect'|] eqn:Hrect'|];
      try (apply IH; lia).
    rewrite (Hlater k cnt' rect') by (assumption || lia). apply IH. lia.
Qed.

Lemma last_match_None cfg anc cnts rects k :
  (forall j cnt rect, cnts !! j = Some cnt -> rects !! j = Some rect ->
     center_point_matched anc cnt && height_matched cfg anc rect = false) ->
  last_match cfg anc cnts rects k = None.
Proof.
  intros Hnone. induction k as [|k IH]; [reflexivity|]. simpl.
  destruct (cnts !! k) as [cnt'|] eqn:Hcnt';
    [destruct (rects !! k) as [rect'|] eqn:Hrect'|]; try exact IH.
  by rewrite (Hnone k cnt' rect').
Qed.

(** The label and the target of an anchor, given its match. *)
Definition label_of (m : option (nat * rect)) : Z :=
  match m with Some (j, _) => Z.of_nat j | None => (-1)%Z end.

Definition target_of (anc : anchor) (m : option (nat * rect)) : rect :=
  match m with
  | Some (_, rect) => cal_seg_gt_for_single_anchor anc rect
  | None => zero_rect
  end.

(** The loop over the anchors [a], ..., [a + k - 1] writes rows [a] to
    [a + k - 1] and no other. *)
Lemma match_anchor_loop cfg anchors cnts rects k : forall a labels seg_gt,
  length rects = length cnts ->
  (a + k <= length anchors)%nat ->
  length labels = length anchors -> length seg_gt = length anchors ->
  exists labels' seg_gt',
    foldM (fun st anchor_idx =>
             anc ← py_get IndexError anchors anchor_idx;
             foldM (match_bbox cfg anc anchor_idx cnts rects)
                   (seq 0 (length cnts)) st)
          (seq a k) (labels, seg_gt) = Ok (labels', seg_gt') /\
    length labels' = length anchors /\ length seg_gt' = length anchors /\
    (forall i, (i < a \/ a + k <= i)%nat ->
       labels' !! i = labels !! i /\ seg_gt' !! i = seg_gt !! i) /\
    (forall i anc, (a <= i < a + k)%nat -> anchors !! i = Some anc ->
       (last_match cfg anc cnts rects (length cnts) = None ->
        labels' !! i = labels !! i /\ seg_gt' !! i = seg_gt !! i) /\
       (forall m, last_match cfg anc cnts rects (length cnts) = Some m ->
        labels' !! i = Some (label_of (Some m)) /\
        seg_gt' !! i = Some (target_of anc (Some m)))).
Proof.
  induction k as [|k IH]; intros a labels seg_gt Hlen Hak Hl Hs.
  - simpl. exists labels, seg_gt. repeat split; auto; lia.
  - simpl.
    destruct (lookup_lt_is_Some_2 anchors a) as [anc Hanc]; [lia|].
    rewrite (py_get_Ok _ _ _ _ Hanc). simpl.
    rewrite match_bbox_loop by (lia || assumption). simpl.
    set (m := last_match cfg anc cnts rects (length cnts)).
    set (st1 := write_match anc a m (labels, seg_gt)).
    assert (Hl1 : length (st1.1) = length anchors).
    { subst st1. destruct m as [[j r]|]; simpl; [|assumption].
      by rewrite length_insert. }
    assert (Hs1 : length (st1.2) = length anchors).
    { subst st1. destruct m as [[j r]|]; simpl; [|assumption].
      by rewrite length_insert. }
    destruct (IH (S a) (st1.1) (st1.2)) as
      (labels' & seg_gt' & Hrun & Hl' & Hs' & Hout & Hin);
      [assumption | lia | assumption | assumption |].
    exists labels', seg_gt'. rewrite <- surjective_pairing in Hrun.
    split; [exact Hrun|]. split; [exact Hl'|]. split; [exact Hs'|]. split.
    + intros i Hi. destruct (Hout i) as [E1 E2]; [lia|]. rewrite E1, E2.
      subst st1. destruct m as [[j r]|]; simpl; [|auto].
      rewrite !list_lookup_insert_ne by lia. auto.
    + intros i anc' Hi Hanc'. destruct (decide (i = a)) as [->|Hne].
      * assert (anc' = anc) as -> by congruence.
        destruct (Hout a) as [E1 E2]; [lia|]. rewrite E1, E2.
        subst st1. fold m. split.
        -- intros ->. simpl. auto.
        -- intros m' ->. destruct m' as [j r]. simpl.
           rewrite !list_lookup_insert_eq by lia. auto.
      * destruct (Hin i anc') as [Hn Hm]; [lia | assumption |].
        split; [|exact Hm].
        intros Hnone. destruct (Hn Hnone) as [E1 E2]. rewrite E1, E2.
        subst st1. destruct m as [[j r]|]; simpl; [|auto].
        rewrite !list_lookup_insert_ne by lia. auto.
Qed.

Lemma shape_N4_length xs ys : shape_N4 xs ys = true -> length xs = length ys.
Proof.
  unfold shape_N4. rewrite !andb_true_iff. intros [[Hl _] _].
  by apply Nat.eqb_eq.
Qed.

Lemma contours_of_length xs ys :
  length xs = length ys -> length (contours_of xs ys) = length xs.
Proof.
  intros Hl. unfold contours_of.
  rewrite length_map, length_zip_with. lia.
Qed.

Lemma min_area_rect_length xs ys :
  length xs = length ys -> length (min_area_rect xs ys) = length xs.
Proof.
  intros Hl. unfold min_area_rect.
  rewrite length_map, length_zip_with. lia.
Qed.

(** The matcher returns, and every row of its two arrays is the label and
    the target of the last box that passes both checks. *)
Lemma match_anchor_to_text_boxes_rows cfg anchors xs ys :
  shape_N4 xs ys = true ->
  exists labels seg_gt,
    match_anchor_to_text_boxes cfg anchors xs ys = Ok (labels, seg_gt) /\
    length labels = length anchors /\ length seg_gt = length anchors /\
    forall i anc, anchors !! i = Some anc ->
      let m := last_match cfg anc (contours_of xs ys)
                 (transform_cv_rect (min_area_rect xs ys)) (length xs) in
      labels !! i = Some (label_of m) /\ seg_gt !! i = Some (target_of anc m).
Proof.
  intros Hshape. pose proof (shape_N4_length _ _ Hshape) as Hlen.
  unfold match_anchor_to_text_boxes. rewrite Hshape. simpl.
  set (cnts := contours_of xs ys).
  set (rects := transform_cv_rect (min_area_rect xs ys)).
  assert (Hc : length cnts = length xs) by by apply contours_of_length.
  assert (Hr : length rects = length cnts).
  { subst rects. unfold transform_cv_rect.
    rewrite length_map, min_area_rect_length; auto. }
  rewrite <- Hc.
  destruct (match_anchor_loop cfg anchors cnts rects (length anchors) 0
              (replicate (length anchors) (-1)%Z)
              (replicate (length anchors) zero_rect))
    as (labels & seg_gt & Hrun & Hl & Hs & _ & Hin);
    [assumption | lia | apply length_replicate | apply length_replicate |].
  exists labels, seg_gt. split; [exact Hrun|]. split; [exact Hl|].
  split; [exact Hs|].
  intros i anc Hanc. simpl.
  pose proof (lookup_lt_Some _ _ _ Hanc) as Hi.
  destruct (Hin i anc) as [Hn Hm]; [lia | assumption |].
  destruct (last_match cfg anc cnts rects (length cnts)) as [m|] eqn:Hlast.
  - apply Hm. reflexivity.
  - destruct Hn as [E1 E2]; [reflexivity|]. rewrite E1, E2. simpl.
    rewrite !lookup_replicate_2 by lia. auto.
Qed.

End matcher_facts.

(** An instance of the interface on axis-parallel boxes given by their
    corners [(x0,y0), (x2,y0), (x2,y2), (x0,y2)]: the contour is the list
    of points, a point is inside when it lies between the corners, and
    the minimum-area rectangle is reported the way OpenCV reports an
    upright box, with angle [-90] and the two sides exchanged. *)
Definition box_contains (p : R * R) (cnt : list (R * R)) : bool :=
  match cnt with
  | (x0, y0) :: _ :: (x2, y2) :: _ =>
    Rleb x0 (p.1) && Rleb (p.1) x2 && Rleb y0 (p.2) && Rleb (p.2) y2
  | _ => false
  end.

Definition box_min_area_rect (cnt : list (R * R)) : (R * R) * (R * R) * R :=
  match cnt with
  | (x0, y0) :: _ :: (x2, y2) :: _ =>
    (((x0 + x2) / 2, (y0 + y2) / 2), (y2 - y0, x2 - x0), -90)%R
  | _ => ((0, 0), (0, 0), -90)%R
  end.

Definition box_cv2 : Cv2 :=
  {| contour := list (R * R);
     points_to_contour := fun points => points;
     is_in_contour := box_contains;
     minAreaRect := box_min_area_rect |}.

(** Two boxes around the point [(5, 5)] and two anchors, the first at
    [(5, 5)], the second far from both boxes. *)
Definition demo_cfg : config :=
  Config [(1, 1); (1, 1)]%nat
         [Anchor 5 5 10 10; Anchor 100 100 10 10]
         (3 / 2)%R (512, 512)%R (1 # 2)%Q (1 # 2)%Q.

Definition demo_xs : list (list R) := [[0; 20; 20; 0]; [0; 12; 12; 0]]%R.
Definition demo_ys : list (list R) := [[0; 0; 10; 10]; [0; 0; 12; 12]]%R.

Ltac no_Rle_dec t :=
  lazymatch t with context [Rle_dec _ _] => fail | _ => idtac end.

(** Decide a comparison of closed real expressions, innermost first. *)
Ltac real_bool :=
  try (apply Rleb_true || apply Rgtb_true || apply Rltb_true);
  unfold Rleb, Rgtb, Rltb, Reqb, Rmin, Rmax in *;
  repeat match goal with
         | |- context [Rle_dec ?a ?b] =>
           no_Rle_dec a; no_Rle_dec b; destruct (Rle_dec a b); try lra
         | |- context [Rgt_dec ?a ?b] => destruct (Rgt_dec a b); try lra
         | |- context [Rlt_dec ?a ?b] => destruct (Rlt_dec a b); try lra
         end;
  simpl; try reflexivity; try lra.

Section matcher_claims.
Local Open Scope R_scope.

(** C4.  For anchors of positive side and boxes whose minimum-area
    rectangles have positive sides (so that the quotients of the
    scale-compatibility test are the ones the code computes), an anchor
    that passes the containment test and the scale-compatibility test
    for several boxes gets the label and the regression target of the
    last such box in iteration order; an anchor that passes them for no
    box keeps label [-1] and the all-zero target. *)
Theorem match_last_write_wins `{Cv2} (cfg : config) (anchors : list anchor)
    (xs ys : list (list R)) :
  shape_N4 xs ys = true ->
  (forall anc, anc ∈ anchors -> 0 < a_w anc) ->
  (forall r, r ∈ min_area_rect xs ys -> 0 < r_w r /\ 0 < r_h r) ->
  let cnts := contours_of xs ys in
  let rects := transform_cv_rect (min_area_rect xs ys) in
  exists labels seg_gt,
    match_anchor_to_text_boxes cfg anchors xs ys = Ok (labels, seg_gt) /\
    length labels = length anchors /\ length seg_gt = length anchors /\
    forall i anc, anchors !! i = Some anc ->
      (forall j cnt rect,
         cnts !! j = Some cnt -> rects !! j = Some rect ->
         center_point_matched anc cnt = true ->
         height_matched cfg anc rect = true ->
         (forall j' cnt' rect', (j < j')%nat ->
            cnts !! j' = Some cnt' -> rects !! j' = Some rect' ->
            center_point_matched anc cnt' && height_matched cfg anc rect'
            = false) ->
         labels !! i = Some (Z.of_nat j) /\
         seg_gt !! i = Some (cal_seg_gt_for_single_anchor anc rect)) /\
      ((forall j cnt rect,
          cnts !! j = Some cnt -> rects !! j = Some rect ->
          center_point_matched anc cnt && height_matched cfg anc rect
          = false) ->
       labels !! i = Some (-1)%Z /\ seg_gt !! i = Some zero_rect).
Proof.
  intros Hshape _ _ cnts rects.
  destruct (match_anchor_to_text_boxes_rows cfg anchors xs ys Hshape)
    as (labels & seg_gt & Hrun & Hl & Hs & Hrows).
  exists labels, seg_gt. repeat (split; [assumption|]).
  intros i anc Hanc. specialize (Hrows i anc Hanc). simpl in Hrows.
  fold cnts rects in Hrows. split.
  - intros j cnt rect Hcnt Hrect Hc Hh Hlater.
    assert (Hj : (j < length xs)%nat).
    { apply lookup_lt_Some in Hcnt. subst cnts.
      rewrite contours_of_length in Hcnt; [lia|].
      by apply shape_N4_length. }
    rewrite (last_match_last cfg anc cnts rects (length xs) j cnt rect)
      in Hrows by assumption.
    exact Hrows.
  - intros Hnone. rewrite last_match_None in Hrows by assumption.
    exact Hrows.
Qed.

Lemma demo_rects :
  transform_cv_rect (@min_area_rect box_cv2 demo_xs demo_ys)
  = [Rect ((0 + 20) / 2) ((0 + 10) / 2) (20 - 0) (10 - 0) (90 + -90);
     Rect ((0 + 12) / 2) ((0 + 12) / 2) (12 - 0) (12 - 0) (90 + -90)].
Proof.
  unfold transform_cv_rect, min_area_rect.
  remember transform_cv_rect_row as f eqn:Hf. simpl. subst f.
  assert (Hsw : forall cx cy w h,
             transform_cv_rect_row (Rect cx cy w h (-90))
             = Rect cx cy h w (90 + -90)).
  { intros. unfold transform_cv_rect_row.
    replace (Rgtb (Rabs (-90)) 45) with true; [reflexivity|].
    symmetry. apply Rgtb_true. unfold Rabs.
    destruct (Rcase_abs (-90)); lra. }
  by rewrite !Hsw.
Qed.

(** On the two boxes, the first anchor passes both tests for both and is
    matched to the second; the second anchor passes for none. *)
Lemma match_last_write_wins_demo :
  exists labels seg_gt,
    @match_anchor_to_text_boxes box_cv2 demo_cfg (default_anchors demo_cfg)
      demo_xs demo_ys = Ok (labels, seg_gt) /\
    labels !! 0%nat = Some 1%Z /\
    labels !! 1%nat = Some (-1)%Z /\ seg_gt !! 1%nat = Some zero_rect.
Proof.
  destruct (@match_last_write_wins box_cv2 demo_cfg (default_anchors demo_cfg)
              demo_xs demo_ys eq_refl)
    as (labels & seg_gt & Hrun & _ & _ & Hrows).
  { intros anc Ha. simpl in Ha.
    apply elem_of_cons in Ha as [->|Ha]; [simpl; lra|].
    apply elem_of_cons in Ha as [->|Ha]; [simpl; lra|].
    by apply elem_of_nil in Ha. }
  { intros r Hr. unfold min_area_rect in Hr. simpl in Hr.
    apply elem_of_cons in Hr as [->|Hr]; [simpl; lra|].
    apply elem_of_cons in Hr as [->|Hr]; [simpl; lra|].
    by apply elem_of_nil in Hr. }
  rewrite demo_rects in Hrows.
  exists labels, seg_gt. split; [exact Hrun|].
  destruct (Hrows 0%nat (Anchor 5 5 10 10) eq_refl) as [Hlast _].
  destruct (Hrows 1%nat (Anchor 100 100 10 10) eq_refl) as [_ Hnone].
  split; [|apply Hnone].
  - refine (proj1 (Hlast 1%nat _ _ eq_refl eq_refl _ _ _)).
    + unfold center_point_matched. simpl. real_bool.
    + unfold height_matched. simpl. real_bool.
    + intros [|[|j']] cnt' rect' Hj; try lia. simpl. discriminate.
  - intros [|[|j]] cnt rect; simpl; [| |discriminate];
      intros [= <-] [= <-]; unfold center_point_matched; simpl.
    + replace (Rleb 100 20) with false by real_bool.
      by destruct (Rleb 0 100).
    + replace (Rleb 100 12) with false by real_bool.
      by destruct (Rleb 0 100).
Defined.

(** C5.  When the angles of the minimum-area rectangles lie in [-90, 0],
    the regression target of every matched anchor has its angle in
    [-45, 45]: [transform_cv_rect] gives the canonical form
    ([transform_cv_rect_row_theta]) and the four steps of the derivation
    keep the angle ([cal_seg_gt_theta]). *)
Theorem matched_theta_canonical `{Cv2} (cfg : config) (anchors : list anchor)
    (xs ys : list (list R)) :
  shape_N4 xs ys = true ->
  (forall r, r ∈ min_area_rect xs ys -> -90 <= r_theta r <= 0) ->
  exists labels seg_gt,
    match_anchor_to_text_boxes cfg anchors xs ys = Ok (labels, seg_gt) /\
    forall i l r, labels !! i = Some l -> (0 <= l)%Z ->
      seg_gt !! i = Some r -> -45 <= r_theta r <= 45.
Proof.
  intros Hshape Hraw.
  destruct (match_anchor_to_text_boxes_rows cfg anchors xs ys Hshape)
    as (labels & seg_gt & Hrun & Hl & Hs & Hrows).
  exists labels, seg_gt. split; [assumption|].
  intros i l r Hli Hl0 Hri.
  destruct (lookup_lt_is_Some_2 anchors i) as [anc Hanc].
  { apply lookup_lt_Some in Hli. lia. }
  destruct (Hrows i anc Hanc) as [El Er]. simpl in El, Er.
  destruct (last_match cfg anc (contours_of xs ys)
              (transform_cv_rect (min_area_rect xs ys)) (length xs))
    as [[j rect]|] eqn:Hm; simpl in El, Er.
  - assert (r = cal_seg_gt_for_single_anchor anc rect) as -> by congruence.
    rewrite cal_seg_gt_theta.
    apply last_match_Some in Hm as (_ & Hrect & _).
    unfold transform_cv_rect in Hrect.
    rewrite list_lookup_fmap in Hrect.
    destruct (min_area_rect xs ys !! j) as [r0|] eqn:Hr0; [|discriminate].
    injection Hrect as <-.
    apply transform_cv_rect_row_theta, Hraw.
    by apply list_elem_of_lookup_2 in Hr0.
  - assert (l = (-1)%Z) by congruence. lia.
Qed.

Lemma matched_theta_canonical_demo :
  exists labels seg_gt,
    @match_anchor_to_text_boxes box_cv2 demo_cfg (default_anchors demo_cfg)
      demo_xs demo_ys = Ok (labels, seg_gt) /\
    forall i l r, labels !! i = Some l -> (0 <= l)%Z ->
      seg_gt !! i = Some r -> -45 <= r_theta r <= 45.
Proof.
  apply (@matched_theta_canonical box_cv2 demo_cfg (default_anchors demo_cfg)
           demo_xs demo_ys eq_refl).
  intros r Hr. unfold min_area_rect in Hr. simpl in Hr.
  apply elem_of_cons in Hr as [->|Hr]; [simpl; lra|].
  apply elem_of_cons in Hr as [->|Hr]; [simpl; lra|].
  by apply elem_of_nil in Hr.
Defined.

End matcher_claims.

(** ** Box synthesizer *)

Section synthesizer_facts.
Local Open Scope R_scope.

(** The distance of the projected points [i] and [j]. *)
Definition pair_dist (pp : list (R * R)) (i j : nat) : R :=
  match pp !! i, pp !! j with
  | Some p, Some q => point_dist p q
  | _, _ => 0
  end.

(** The pairs [(i, j)] in the order the two loops visit them. *)
Definition all_pairs (n : nat) : list (nat * nat) :=
  flat_map (fun i => map (pair i) (seq (i + 1) (n - (i + 1)))) (seq 0 n).

(** The effect of one visit on [(max_dist, idx1, idx2)]. *)
Definition max_dist_step (pp : list (R * R)) (st : R * Z * Z)
    (ij : nat * nat) : R * Z * Z :=
  if Rgtb (pair_dist pp (ij.1) (ij.2)) (st.1.1)
  then (pair_dist pp (ij.1) (ij.2), Z.of_nat (ij.1), Z.of_nat (ij.2))
  else st.

Lemma max_dist_inner_step pp i p1 st j p2 :
  pp !! i = Some p1 -> pp !! j = Some p2 ->
  max_dist_inner pp i p1 st j = Ok (max_dist_step pp st (i, j)).
Proof.
  intros Hi Hj. unfold max_dist_inner, max_dist_step, pair_dist.
  rewrite (py_get_Ok _ _ _ _ Hj), bind_Ok. simpl. rewrite Hi, Hj.
  by destruct (Rgtb (point_dist p1 p2) (st.1.1)).
Qed.

Lemma max_dist_inner_loop pp i p1 js : forall st,
  pp !! i = Some p1 ->
  Forall (fun j => (j < length pp)%nat) js ->
  foldM (max_dist_inner pp i p1) js st
  = Ok (fold_left (max_dist_step pp) (map (pair i) js) st).
Proof.
  induction js as [|j js IH]; intros st Hi Hjs; [reflexivity|].
  apply Forall_cons in Hjs as [Hj Hjs]. rewrite foldM_cons.
  destruct (lookup_lt_is_Some_2 pp j Hj) as [p2 Hp2].
  rewrite (max_dist_inner_step pp i p1 st j p2 Hi Hp2), bind_Ok.
  simpl. by apply IH.
Qed.

Lemma max_dist_outer_loop pp idxs : forall st,
  Forall (fun i => (i < length pp)%nat) idxs ->
  foldM (max_dist_outer pp) idxs st
  = Ok (fold_left (max_dist_step pp)
          (flat_map (fun i => map (pair i)
                                  (seq (i + 1) (length pp - (i + 1)))) idxs)
          st).
Proof.
  induction idxs as [|i idxs IH]; intros st Hidxs; [reflexivity|].
  apply Forall_cons in Hidxs as [Hi Hidxs]. rewrite foldM_cons.
  destruct (lookup_lt_is_Some_2 pp i Hi) as [p1 Hp1].
  assert (Hstep : max_dist_outer pp st i
                  = Ok (fold_left (max_dist_step pp)
                          (map (pair i) (seq (i + 1) (length pp - (i + 1))))
                          st)).
  { unfold max_dist_outer. rewrite (py_get_Ok _ _ _ _ Hp1), bind_Ok.
    apply max_dist_inner_loop; [assumption|].
    apply Forall_forall. intros j Hj%elem_of_seq. lia. }
  rewrite Hstep, bind_Ok. simpl. rewrite fold_left_app. by apply IH.
Qed.

Lemma max_dist_loop pp :
  foldM (max_dist_outer pp) (seq 0 (length pp)) (0, (-1)%Z, (-1)%Z)
  = Ok (fold_left (max_dist_step pp) (all_pairs (length pp))
          (0, (-1)%Z, (-1)%Z)).
Proof.
  apply max_dist_outer_loop, Forall_forall.
  intros i Hi%elem_of_seq. lia.
Qed.

Lemma all_pairs_elem n i j :
  (i, j) ∈ all_pairs n <-> (i < j < n)%nat.
Proof.
  unfold all_pairs. rewrite list_elem_of_In, in_flat_map. split.
  - intros (i' & Hi' & Hin). apply in_map_iff in Hin as (j' & [= <- <-] & Hj').
    apply in_seq in Hi', Hj'. lia.
  - intros Hij. exists i. split; [apply in_seq; lia|].
    apply in_map_iff. exists j. split; [reflexivity|]. apply in_seq. lia.
Qed.

(** The scan keeps the first pair of the largest distance, when that
    distance is above the initial one. *)
Lemma max_dist_scan pp L : forall st,
  let st' := fold_left (max_dist_step pp) L st in
  st.1.1 <= st'.1.1 /\
  (forall ij, ij ∈ L -> pair_dist pp (ij.1) (ij.2) <= st'.1.1) /\
  (st' = st \/
   exists L1 ij L2, L = L1 ++ ij :: L2 /\
     st' = (pair_dist pp (ij.1) (ij.2), Z.of_nat (ij.1), Z.of_nat (ij.2)) /\
     st.1.1 < pair_dist pp (ij.1) (ij.2) /\
     forall q, q ∈ L1 -> pair_dist pp (q.1) (q.2) < pair_dist pp (ij.1) (ij.2)).
Proof.
  induction L as [|p L IH]; intros st; simpl.
  - split; [lra|]. split; [|by left]. intros ij Hij. by apply elem_of_nil in Hij.
  - specialize (IH (max_dist_step pp st p)). simpl in IH.
    destruct IH as (Hmono & Hall & Hlast).
    set (st' := fold_left (max_dist_step pp) L (max_dist_step pp st p)) in *.
    assert (Hstep :
              (st.1.1 < pair_dist pp (p.1) (p.2) /\
               max_dist_step pp st p
               = (pair_dist pp (p.1) (p.2), Z.of_nat (p.1), Z.of_nat (p.2)))
              \/ (pair_dist pp (p.1) (p.2) <= st.1.1 /\
                  max_dist_step pp st p = st)).
    { unfold max_dist_step.
      destruct (Rgtb (pair_dist pp (p.1) (p.2)) (st.1.1)) eqn:Hgt.
      - left. apply Rgtb_true in Hgt. split; [lra | reflexivity].
      - right. split; [|reflexivity].
        destruct (Rle_dec (pair_dist pp (p.1) (p.2)) (st.1.1)) as [Hle|Hn];
          [exact Hle|].
        apply Rnot_le_gt, Rgtb_true in Hn. congruence. }
    destruct Hstep as [[Hgt Hst1] | [Hle Hst1]]; rewrite Hst1 in *;
      simpl in Hmono, Hlast.
    + split; [lra|]. split.
      * intros ij [->|Hij]%elem_of_cons; [lra | by apply Hall].
      * right.
        destruct Hlast as [Hst' | (L1 & ij & L2 & -> & Hst' & Hlt & Hfirst)].
        -- exists [], p, L. repeat split; [exact Hst' | lra |].
           intros q Hq. by apply elem_of_nil in Hq.
        -- exists (p :: L1), ij, L2. repeat split; [exact Hst' | lra |].
           intros q [->|Hq]%elem_of_cons; [lra | by apply Hfirst].
    + split; [lra|]. split.
      * intros ij [->|Hij]%elem_of_cons; [lra | by apply Hall].
      * destruct Hlast as [Hst' | (L1 & ij & L2 & -> & Hst' & Hlt & Hfirst)];
          [by left | right].
        exists (p :: L1), ij, L2. repeat split; [exact Hst' | lra |].
        intros q [->|Hq]%elem_of_cons; [lra | by apply Hfirst].
Qed.


Lemma proj_points_of_length segs :
  length (proj_points_of segs) = length segs.
Proof.
  unfold proj_points_of.
  rewrite length_map, length_zip_with, !length_map. lia.
Qed.

(** The order in which the two loops visit the pairs. *)
Definition pair_before (p q : nat * nat) : Prop :=
  (p.1 < q.1 \/ (p.1 = q.1 /\ p.2 < q.2))%nat.

Lemma row_sorted i k : forall b,
  StronglySorted pair_before (map (pair i) (seq b k)).
Proof.
  induction k as [|k IH]; intros b; simpl; constructor; [apply IH|].
  apply Forall_forall. intros q Hq.
  apply list_elem_of_In, in_map_iff in Hq as (j & <- & Hj%in_seq).
  right. simpl. lia.
Qed.

Lemma rows_sorted n k : forall a,
  StronglySorted pair_before
    (flat_map (fun i => map (pair i) (seq (i + 1) (n - (i + 1)))) (seq a k)).
Proof.
  induction k as [|k IH]; intros a; simpl; [constructor|].
  apply StronglySorted_app_2; [|apply row_sorted|apply IH].
  intros x1 x2 Hx1 Hx2.
  apply list_elem_of_In, in_map_iff in Hx1 as (j & <- & _).
  apply list_elem_of_In, in_flat_map in Hx2 as (i' & Hi'%in_seq & Hx2).
  apply in_map_iff in Hx2 as (j' & <- & _). left. simpl. lia.
Qed.

Lemma all_pairs_sorted n : StronglySorted pair_before (all_pairs n).
Proof. apply rows_sorted. Qed.

(** A pair visited before [(i, j)] stands before it in [all_pairs]. *)
Lemma all_pairs_before n L1 ij L2 q :
  all_pairs n = L1 ++ ij :: L2 -> q ∈ all_pairs n -> pair_before q ij ->
  q ∈ L1.
Proof.
  intros Hsplit Hq Hbefore. pose proof (all_pairs_sorted n) as Hsorted.
  rewrite Hsplit in Hq, Hsorted.
  apply elem_of_app in Hq as [Hq|Hq]; [exact Hq|exfalso].
  apply StronglySorted_app_1_r in Hsorted.
  apply elem_of_cons in Hq as [->|Hq].
  - unfold pair_before in Hbefore. lia.
  - apply StronglySorted_cons in Hsorted as [Hall _].
    rewrite Forall_forall in Hall. specialize (Hall q Hq).
    unfold pair_before in *. lia.
Qed.

(** The state the two loops end in, for a non-empty group. *)
Definition scan_result (segs : list rect) : R * Z * Z :=
  fold_left (max_dist_step (proj_points_of segs))
            (all_pairs (length segs)) (0, (-1)%Z, (-1)%Z).

Lemma combine_segs_scan segs :
  segs <> [] ->
  combine_segs segs
  = (let '(max_dist, idx1, idx2) := scan_result segs in
     _ ← py_assert ((0 <=? idx1)%Z && (0 <=? idx2)%Z);
     seg1 ← py_get IndexError segs (Z.to_nat idx1);
     seg2 ← py_get IndexError segs (Z.to_nat idx2);
     Ok ((r_cx seg1 + r_cx seg2) / 2, (r_cy seg1 + r_cy seg2) / 2,
         max_dist + (r_w seg1 + r_w seg2) / 2, np_mean (map r_h segs),
         np_mean (map r_theta segs),
         np_mean (zip_with
                    (fun y x => y - tan_deg (np_mean (map r_theta segs)) * x)
                    (map r_cy segs) (map r_cx segs)))).
Proof.
  intros Hne. unfold combine_segs, scan_result.
  destruct segs as [|s segs]; [congruence|].
  change (py_assert (negb (Nat.eqb (length (s :: segs)) 0))) with (Ok tt).
  rewrite bind_Ok, max_dist_loop, bind_Ok, proj_points_of_length.
  reflexivity.
Qed.

End synthesizer_facts.

Section synthesizer_claims.
Local Open Scope R_scope.

(** C1.  On a group of exactly one segment the two loops visit no pair,
    [idx1] and [idx2] keep their initial [-1], and
    [assert idx1 >= 0 and idx2 >= 0] fails: [combine_segs] raises
    [AssertionError] instead of returning the segment. *)
Theorem combine_segs_single_raises (seg : rect) :
  combine_segs [seg] = Raise AssertionError.
Proof. by rewrite combine_segs_scan. Qed.

(** The two segments [(0,0,10,10,0)] and [(20,0,10,10,0)]. *)
Definition two_segs : list rect := [Rect 0 0 10 10 0; Rect 20 0 10 10 0].

Lemma two_segs_bar_theta : np_mean (map r_theta two_segs) = 0.
Proof. unfold np_mean. simpl. lra. Qed.

Lemma tan_deg_0 : tan_deg 0 = 0.
Proof. unfold tan_deg. replace (0 / 180 * PI) with 0 by lra. apply tan_0. Qed.

Lemma cos_deg_0 : cos_deg 0 = 1.
Proof. unfold cos_deg. replace (0 / 180 * PI) with 0 by lra. apply cos_0. Qed.

Lemma sin_deg_0 : sin_deg 0 = 0.
Proof. unfold sin_deg. replace (0 / 180 * PI) with 0 by lra. apply sin_0. Qed.

Lemma two_segs_b :
  np_mean (zip_with (fun y x => y - tan_deg (np_mean (map r_theta two_segs)) * x)
             (map r_cy two_segs) (map r_cx two_segs)) = 0.
Proof.
  rewrite two_segs_bar_theta, tan_deg_0. unfold np_mean. simpl. lra.
Qed.

Lemma two_segs_proj_points : proj_points_of two_segs = [(0, 0); (20, 0)].
Proof.
  unfold proj_points_of. rewrite two_segs_b, two_segs_bar_theta.
  rewrite tan_deg_0, cos_deg_0, sin_deg_0. simpl.
  replace (1 + 0 * (0 * 1)) with 1 by lra. rewrite sqrt_1.
  repeat f_equal; lra.
Qed.

Lemma two_segs_dist : pair_dist (proj_points_of two_segs) 0 1 = 20.
Proof.
  rewrite two_segs_proj_points. unfold pair_dist, point_dist. simpl.
  replace ((0 - 20) * ((0 - 20) * 1) + (0 - 0) * ((0 - 0) * 1))
    with (20 * 20) by lra.
  apply sqrt_square. lra.
Qed.

Lemma two_segs_scan : scan_result two_segs = (20, 0%Z, 1%Z).
Proof.
  unfold scan_result. simpl. unfold max_dist_step. simpl.
  rewrite two_segs_dist.
  replace (Rgtb 20 0) with true; [reflexivity|].
  symmetry. apply Rgtb_true. lra.
Qed.

Lemma two_segs_box : combine_segs two_segs = Ok (10, 0, 30, 10, 0, 0).
Proof.
  rewrite combine_segs_scan by discriminate. rewrite two_segs_scan.
  rewrite two_segs_b, two_segs_bar_theta. simpl.
  unfold np_mean. simpl. repeat f_equal; lra.
Qed.

(** C2, as amended.  On the two segments [(0,0,10,10,0)] and
    [(20,0,10,10,0)] the synthesizer returns [cx = 10], [cy = 0],
    [w = 30] (the distance 20 of the centers plus half the sum of the two
    widths), [h = 10], [theta = 0] and intercept [0]. *)
Theorem combine_two_segs :
  combine_segs [Rect 0 0 10 10 0; Rect 20 0 10 10 0]
  = Ok (10, 0, 30, 10, 0, 0).
Proof. exact two_segs_box. Qed.

(** C2, as stated, fails: the width returned is not [20]. *)
Lemma combine_two_segs_width_not_20 :
  ~ exists b, combine_segs [Rect 0 0 10 10 0; Rect 20 0 10 10 0]
              = Ok (10, 0, 20, 10, 0, b).
Proof.
  intros [b Hb]. fold two_segs in Hb. rewrite two_segs_box in Hb.
  injection Hb as Hw _. lra.
Qed.

(** The projection of the center of [s] on the line fitted to [segs],
    as a point of the plane. *)
Definition proj_point (segs : list rect) (s : rect) : R * R :=
  let bar_theta := np_mean (map r_theta segs) in
  let k := tan_deg bar_theta in
  let b := np_mean (zip_with (fun y x => y - k * x)
                             (map r_cy segs) (map r_cx segs)) in
  let proj := (r_cx s + k * (r_cy s - b)) / sqrt (1 + k ^ 2) in
  (proj * cos_deg bar_theta, proj * sin_deg bar_theta).

Lemma zip_with_map_map {A B C D : Type} (f : B -> C -> D) (g : A -> B)
    (h : A -> C) (l : list A) :
  zip_with f (map g l) (map h l) = map (fun a => f (g a) (h a)) l.
Proof. induction l as [|a l IH]; simpl; [|rewrite IH]; reflexivity. Qed.

Lemma proj_points_of_map (segs : list rect) :
  proj_points_of segs = map (proj_point segs) segs.
Proof.
  unfold proj_points_of. rewrite (map_map r_cy).
  rewrite zip_with_map_map, map_map. reflexivity.
Qed.

Lemma pair_dist_points (segs : list rect) (i j : nat) (s t : rect) :
  segs !! i = Some s -> segs !! j = Some t ->
  pair_dist (proj_points_of segs) i j
  = point_dist (proj_point segs s) (proj_point segs t).
Proof.
  intros Hs Ht. unfold pair_dist. rewrite proj_points_of_map.
  change (map ?f ?l) with (f <$> l). rewrite !list_lookup_fmap, Hs, Ht.
  reflexivity.
Qed.





End synthesizer_claims.

(** ** Arrays *)

Section array_facts.
Context {A : Type}.
Implicit Types (a : array3 A) (g : array2 A).

(** The buffer has the size of the shape. *)
Definition wf2 (g : array2 A) : Prop :=
  length (a2_data g) = (a2_h g * a2_w g)%nat.
Definition wf3 (a : array3 A) : Prop :=
  length (a3_data a) = (a3_h a * a3_w a * a3_d a)%nat.

Lemma in_range_true (i : Z) (n : nat) :
  in_range i n = true <-> 0 <= i < Z.of_nat n.
Proof. unfold in_range. rewrite andb_true_iff, Z.leb_le, Z.ltb_lt. tauto. Qed.

Lemma index_lt (q r n d : Z) :
  0 <= q < n -> 0 <= r < d -> 0 <= q * d + r < n * d.
Proof. nia. Qed.

Lemma index_inj (q q' r r' d : Z) :
  0 <= r < d -> 0 <= r' < d -> q * d + r = q' * d + r' -> q = q' /\ r = r'.
Proof.
  intros Hr Hr' Heq.
  apply (Z.div_mod_unique d q q' r r'); [lia | lia | lia].
Qed.

Lemma get2_Ok g (y x : Z) :
  wf2 g -> 0 <= y < Z.of_nat (a2_h g) -> 0 <= x < Z.of_nat (a2_w g) ->
  exists v, get2 g y x = Ok v /\
            a2_data g !! Z.to_nat (y * Z.of_nat (a2_w g) + x) = Some v.
Proof.
  intros Hwf Hy Hx. unfold get2.
  rewrite (proj2 (in_range_true y _) Hy), (proj2 (in_range_true x _) Hx).
  simpl.
  destruct (lookup_lt_is_Some_2 (a2_data g)
              (Z.to_nat (y * Z.of_nat (a2_w g) + x))) as [v Hv].
  { rewrite Hwf.
    pose proof (index_lt y x (Z.of_nat (a2_h g)) (Z.of_nat (a2_w g)) Hy Hx).
    lia. }
  exists v. by rewrite (py_get_Ok _ _ _ _ Hv).
Qed.

Lemma get2_Ok_inv g (y x : Z) (v : A) :
  get2 g y x = Ok v ->
  0 <= y < Z.of_nat (a2_h g) /\ 0 <= x < Z.of_nat (a2_w g) /\
  a2_data g !! Z.to_nat (y * Z.of_nat (a2_w g) + x) = Some v.
Proof.
  unfold get2.
  destruct (in_range y (a2_h g)) eqn:Hy; [|discriminate].
  destruct (in_range x (a2_w g)) eqn:Hx; [|discriminate]. simpl.
  intros Hv%py_get_Ok_inv.
  apply in_range_true in Hy, Hx. auto.
Qed.

Lemma index3_lt a (y x k : Z) :
  wf3 a -> 0 <= y < Z.of_nat (a3_h a) -> 0 <= x < Z.of_nat (a3_w a) ->
  0 <= k < Z.of_nat (a3_d a) ->
  (index3 a y x k < length (a3_data a))%nat.
Proof.
  intros Hwf Hy Hx Hk. unfold index3. rewrite Hwf.
  pose proof (index_lt y x _ _ Hy Hx) as H1.
  pose proof (index_lt (y * Z.of_nat (a3_w a) + x) k
                (Z.of_nat (a3_h a) * Z.of_nat (a3_w a)) _ H1 Hk) as H2.
  lia.
Qed.

Lemma index3_inj a (y x k y' x' k' : Z) :
  0 <= y -> 0 <= y' ->
  0 <= x < Z.of_nat (a3_w a) -> 0 <= x' < Z.of_nat (a3_w a) ->
  0 <= k < Z.of_nat (a3_d a) -> 0 <= k' < Z.of_nat (a3_d a) ->
  index3 a y x k = index3 a y' x' k' -> y = y' /\ x = x' /\ k = k'.
Proof.
  intros Hy Hy' Hx Hx' Hk Hk' Heq. unfold index3 in Heq.
  apply Z2Nat.inj in Heq; [|nia|nia].
  apply index_inj in Heq as [Heq ->]; [|lia|lia].
  apply index_inj in Heq as [-> ->]; [|lia|lia]. auto.
Qed.

Lemma get3_Ok a (y x k : Z) :
  wf3 a -> 0 <= y < Z.of_nat (a3_h a) -> 0 <= x < Z.of_nat (a3_w a) ->
  0 <= k < Z.of_nat (a3_d a) ->
  exists v, get3 a y x k = Ok v /\ a3_data a !! index3 a y x k = Some v.
Proof.
  intros Hwf Hy Hx Hk. unfold get3.
  rewrite (proj2 (in_range_true y _) Hy), (proj2 (in_range_true x _) Hx),
    (proj2 (in_range_true k _) Hk). simpl.
  destruct (lookup_lt_is_Some_2 (a3_data a) (index3 a y x k)) as [v Hv];
    [by apply index3_lt|].
  exists v. by rewrite (py_get_Ok _ _ _ _ Hv).
Qed.

(** A write is read back, and no other cell changes. *)
Lemma set3_Ok a (y x k : Z) (v : A) :
  wf3 a -> 0 <= y < Z.of_nat (a3_h a) -> 0 <= x < Z.of_nat (a3_w a) ->
  0 <= k < Z.of_nat (a3_d a) ->
  exists a', set3 a y x k v = Ok a' /\
    a3_h a' = a3_h a /\ a3_w a' = a3_w a /\ a3_d a' = a3_d a /\ wf3 a' /\
    get3 a' y x k = Ok v /\
    forall y' x' k', (y', x', k') <> (y, x, k) ->
      get3 a' y' x' k' = get3 a y' x' k'.
Proof.
  intros Hwf Hy Hx Hk. unfold set3.
  rewrite (proj2 (in_range_true y _) Hy), (proj2 (in_range_true x _) Hx),
    (proj2 (in_range_true k _) Hk). simpl.
  eexists. split; [reflexivity|]. simpl.
  split; [reflexivity|]. split; [reflexivity|]. split; [reflexivity|].
  assert (Hwf' : wf3 (Array3 (a3_h a) (a3_w a) (a3_d a)
                        (<[index3 a y x k := v]> (a3_data a)))).
  { unfold wf3. simpl. by rewrite length_insert. }
  split; [exact Hwf'|]. split.
  - unfold get3. simpl.
    rewrite (proj2 (in_range_true y _) Hy), (proj2 (in_range_true x _) Hx),
      (proj2 (in_range_true k _) Hk). simpl.
    apply py_get_Ok.
    change (index3 _ y x k) with (index3 a y x k).
    apply list_lookup_insert_eq. by apply index3_lt.
  - intros y' x' k' Hne. unfold get3. simpl.
    destruct (in_range y' (a3_h a)) eqn:Hy'; [|reflexivity].
    destruct (in_range x' (a3_w a)) eqn:Hx'; [|reflexivity].
    destruct (in_range k' (a3_d a)) eqn:Hk'; [|reflexivity]. simpl.
    apply in_range_true in Hy', Hx', Hk'.
    unfold py_get.
    change (index3 (Array3 _ _ _ _) y' x' k') with (index3 a y' x' k').
    rewrite list_lookup_insert_ne; [reflexivity|].
    intros Heq. apply index3_inj in Heq as (-> & -> & ->); [|lia..].
    by apply Hne.
Qed.

Lemma np_full3_wf (h w d : nat) (z : A) : wf3 (np_full3 h w d z).
Proof. unfold wf3, np_full3. simpl. by rewrite length_replicate. Qed.

Lemma np_full3_get (h w d : nat) (z : A) (y x k : Z) :
  0 <= y < Z.of_nat h -> 0 <= x < Z.of_nat w -> 0 <= k < Z.of_nat d ->
  get3 (np_full3 h w d z) y x k = Ok z.
Proof.
  intros Hy Hx Hk.
  destruct (get3_Ok (np_full3 h w d z) y x k) as (v & -> & Hv);
    [apply np_full3_wf | assumption..|].
  simpl in Hv. apply lookup_replicate in Hv as [-> _]. reflexivity.
Qed.

End array_facts.

(** ** Loops *)

Lemma foldM_map {A B S : Type} (f : S -> B -> result S) (g : A -> B)
    (l : list A) (s : S) :
  foldM f (map g l) s = foldM (fun s a => f s (g a)) l s.
Proof.
  revert s. induction l as [|a l IH]; intros s; [reflexivity|].
  simpl. destruct (f s (g a)); simpl; [apply IH | reflexivity].
Qed.

(** Two nested loops are one loop over the pairs. *)
Lemma foldM_nested {A B S : Type} (f : S -> A -> B -> result S)
    (la : list A) (lb : list B) (s : S) :
  foldM (fun s a => foldM (fun s b => f s a b) lb s) la s
  = foldM (fun s ab => f s (ab.1) (ab.2))
          (flat_map (fun a => map (pair a) lb) la) s.
Proof.
  revert s. induction la as [|a la IH]; intros s; [reflexivity|].
  simpl. rewrite foldM_app, foldM_map. simpl.
  destruct (foldM (fun s b => f s a b) lb s); simpl; [apply IH | reflexivity].
Qed.

(** An invariant that follows the part of the list already visited. *)
Lemma foldM_prefix {A S : Type} (P : list A -> S -> Prop)
    (f : S -> A -> result S) (l : list A) (s : S) :
  P [] s ->
  (forall pre a post s, l = pre ++ a :: post -> P pre s ->
     exists s', f s a = Ok s' /\ P (pre ++ [a]) s') ->
  exists s', foldM f l s = Ok s' /\ P l s'.
Proof.
  intros Hinit Hstep.
  assert (Hgen : forall rest pre s, l = pre ++ rest -> P pre s ->
             exists s', foldM f rest s = Ok s' /\ P l s').
  { induction rest as [|a rest IH]; intros pre s0 Hl Hpre.
    - rewrite app_nil_r in Hl. subst pre. simpl. eauto.
    - destruct (Hstep pre a rest s0 Hl Hpre) as (s1 & Hf & Hs1).
      rewrite foldM_cons, Hf, bind_Ok.
      apply (IH (pre ++ [a])); [|exact Hs1].
      by rewrite <- app_assoc. }
  by apply (Hgen l []).
Qed.

Lemma enumerate_lookup {A : Type} (l : list A) (i : nat) (p : nat * A) :
  enumerate l !! i = Some p <-> p.1 = i /\ l !! i = Some (p.2).
Proof.
  unfold enumerate. rewrite lookup_zip_with_Some. split.
  - intros (j & a & -> & Hj & Ha). apply lookup_seq in Hj as [-> _]. auto.
  - intros [H1 H2]. exists i, (p.2). destruct p as [j a]. simpl in *.
    subst j. split; [reflexivity|]. split; [|assumption].
    apply lookup_seq. split; [reflexivity|]. by apply lookup_lt_Some in H2.
Qed.

Lemma enumerate_split {A : Type} (l : list A) pre (i : nat) (a : A) post :
  enumerate l = pre ++ (i, a) :: post ->
  i = length pre /\ l !! i = Some a.
Proof.
  intros Hsplit.
  assert (Hlk : enumerate l !! length pre = Some (i, a)).
  { rewrite Hsplit. by apply list_lookup_middle. }
  apply enumerate_lookup in Hlk as [H1 H2]. simpl in *. by subst i.
Qed.

(** ** Link ground truth: one cell *)

Section link_cell_facts.
Local Open Scope Z_scope.

(** Neighbour [k] of the cell lies in the grid [labels] and carries the
    label [m]. *)
Definition nb_hit (labels : array2 Z) (m : Z) (neighbours : list (Z * Z))
    (k : nat) : bool :=
  match neighbours !! k with
  | Some (nx, ny) =>
    is_valid_cord nx ny (Z.of_nat (a2_w labels)) (Z.of_nat (a2_h labels))
    && match get2 labels ny nx with
       | Ok n => m =? n
       | Raise _ => false
       end
  | None => false
  end.

Lemma is_valid_cord_true (x y w h : Z) :
  is_valid_cord x y w h = true <-> 0 <= x < w /\ 0 <= y < h.
Proof.
  unfold is_valid_cord.
  rewrite !andb_true_iff, !Z.leb_le, !Z.ltb_lt. tauto.
Qed.

Lemma cal_link_neighbours_loop (labels : array2 Z) (m x y : Z)
    (nbs : list (Z * Z)) (l : list (Z * Z)) : forall (a : nat) (gt : array3 Z),
  wf2 labels -> wf3 gt ->
  0 <= y < Z.of_nat (a3_h gt) -> 0 <= x < Z.of_nat (a3_w gt) ->
  (a + length l <= a3_d gt)%nat ->
  (forall i p, l !! i = Some p -> nbs !! (a + i)%nat = Some p) ->
  exists gt',
    foldM (fun link_gt '(nidx, (nx, ny)) =>
             if is_valid_cord nx ny (Z.of_nat (a2_w labels))
                  (Z.of_nat (a2_h labels)) then
               n_matched_idx ← get2 labels ny nx;
               if m =? n_matched_idx
               then set3 link_gt y x (Z.of_nat nidx) 1
               else Ok link_gt
             else Ok link_gt)
          (zip (seq a (length l)) l) gt = Ok gt' /\
    a3_h gt' = a3_h gt /\ a3_w gt' = a3_w gt /\ a3_d gt' = a3_d gt /\
    wf3 gt' /\
    (forall k, (a <= k < a + length l)%nat ->
       get3 gt' y x (Z.of_nat k)
       = if nb_hit labels m nbs k then Ok 1 else get3 gt y x (Z.of_nat k)) /\
    (forall y' x' k',
       ~ ((y', x') = (y, x) /\
          exists k, k' = Z.of_nat k /\ (a <= k < a + length l)%nat) ->
       get3 gt' y' x' k' = get3 gt y' x' k').
Proof.
  induction l as [|[nx ny] l IH]; intros a gt Hlab Hgt Hy Hx Hd Hnbs.
  - simpl. exists gt. repeat split; auto. intros k Hk. lia.
  - simpl in Hd.
    assert (Hnb : nbs !! a = Some (nx, ny)).
    { specialize (Hnbs 0%nat (nx, ny) eq_refl). by rewrite Nat.add_0_r in Hnbs. }
    (* the visit of neighbour [a] *)
    assert (Hvisit : exists gt1,
      (if is_valid_cord nx ny (Z.of_nat (a2_w labels)) (Z.of_nat (a2_h labels))
       then n_matched_idx ← get2 labels ny nx;
            if m =? n_matched_idx then set3 gt y x (Z.of_nat a) 1 else Ok gt
       else Ok gt) = Ok gt1 /\
      a3_h gt1 = a3_h gt /\ a3_w gt1 = a3_w gt /\ a3_d gt1 = a3_d gt /\
      wf3 gt1 /\
      get3 gt1 y x (Z.of_nat a)
      = (if nb_hit labels m nbs a then Ok 1 else get3 gt y x (Z.of_nat a)) /\
      forall y' x' k', (y', x', k') <> (y, x, Z.of_nat a) ->
        get3 gt1 y' x' k' = get3 gt y' x' k').
    { unfold nb_hit. rewrite Hnb.
      destruct (is_valid_cord nx ny _ _) eqn:Hvalid; simpl.
      - apply is_valid_cord_true in Hvalid as [Hnx Hny].
        destruct (get2_Ok labels ny nx Hlab Hny Hnx) as (n & Hn & _).
        rewrite Hn, bind_Ok.
        destruct (m =? n) eqn:Hmn.
        + destruct (set3_Ok gt y x (Z.of_nat a) 1 Hgt Hy Hx)
            as (gt1 & Hset & Hh & Hw & Hd1 & Hwf & Hget & Hother); [lia|].
          exists gt1. repeat split; auto.
        + exists gt. repeat split; auto.
      - exists gt. repeat split; auto. }
    destruct Hvisit as (gt1 & Hrun1 & Hh1 & Hw1 & Hd1 & Hwf1 & Hget1 & Hoth1).
    destruct (IH (S a) gt1) as
      (gt' & Hrun & Hh & Hw & Hd' & Hwf & Hget & Hoth);
      [assumption | assumption | lia | lia | lia | |].
    { intros i p Hi. replace (S a + i)%nat with (a + S i)%nat by lia.
      by apply Hnbs. }
    exists gt'. simpl. rewrite Hrun1, bind_Ok.
    split; [exact Hrun|]. split; [lia|]. split; [lia|]. split; [lia|].
    split; [assumption|]. split.
    + intros k Hk. destruct (decide (k = a)) as [->|Hne].
      * rewrite Hoth; [exact Hget1|].
        intros [_ (k & Hk1 & Hk2)]. lia.
      * rewrite Hget by lia. rewrite Hoth1; [reflexivity|].
        intros [= E]. lia.
    + intros y' x' k' Hout. rewrite Hoth.
      * apply Hoth1. intros [= -> -> ->]. apply Hout.
        split; [reflexivity|]. exists a. lia.
      * intros [Heq (k & Hk1 & Hk2)]. apply Hout.
        split; [assumption|]. exists k. lia.
Qed.

(** The loop over the neighbours writes [1] in the slots of the cell whose
    neighbour carries the label and no other slot. *)
Lemma cal_link_neighbours_spec (labels : array2 Z) (m x y : Z)
    (nbs : list (Z * Z)) (gt : array3 Z) :
  wf2 labels -> wf3 gt ->
  0 <= y < Z.of_nat (a3_h gt) -> 0 <= x < Z.of_nat (a3_w gt) ->
  length nbs = a3_d gt ->
  exists gt',
    cal_link_neighbours labels (Z.of_nat (a2_w labels))
      (Z.of_nat (a2_h labels)) m x y nbs gt = Ok gt' /\
    a3_h gt' = a3_h gt /\ a3_w gt' = a3_w gt /\ a3_d gt' = a3_d gt /\
    wf3 gt' /\
    (forall k, (k < a3_d gt)%nat ->
       get3 gt' y x (Z.of_nat k)
       = if nb_hit labels m nbs k then Ok 1 else get3 gt y x (Z.of_nat k)) /\
    (forall y' x' k', (y', x') <> (y, x) ->
       get3 gt' y' x' k' = get3 gt y' x' k').
Proof.
  intros Hlab Hgt Hy Hx Hlen.
  destruct (cal_link_neighbours_loop labels m x y nbs nbs 0%nat gt)
    as (gt' & Hrun & Hh & Hw & Hd & Hwf & Hget & Hoth); auto; [lia|].
  exists gt'. split; [exact Hrun|]. repeat (split; [assumption|]). split.
  - intros k Hk. apply Hget. lia.
  - intros y' x' k' Hne. apply Hoth. intros [Heq _]. by apply Hne.
Qed.

End link_cell_facts.

Section link_layer_facts.
Local Open Scope Z_scope.

(** The value of slot [k] of cell [(x, y)]: [1] when the cell carries a
    non-negative label and neighbour [k] lies in the grid [nb] and carries
    the same label, else [0]. *)
Definition slot_value (lab nb : array2 Z) (nbs : list (Z * Z)) (y x : Z)
    (k : nat) : Z :=
  match get2 lab y x with
  | Ok m => if (0 <=? m) && nb_hit nb m nbs k then 1 else 0
  | Raise _ => 0
  end.

(** The previous layer, as the cross-layer part of the loops needs it. *)
Definition previous_ok (shapes : list (nat * nat))
    (layer_labels : list (array2 Z)) (l : nat) (prev : array2 Z) : Prop :=
  (0 < l)%nat /\ layer_labels !! (l - 1)%nat = Some prev /\
  shapes !! (l - 1)%nat = Some (a2_h prev, a2_w prev) /\ wf2 prev.

Lemma cal_link_cell_spec shapes layer_labels (l : nat) (lab : array2 Z)
    (gtI gtC : array3 Z) (x y : Z) :
  wf2 lab -> wf3 gtI -> wf3 gtC ->
  a3_h gtI = a2_h lab -> a3_w gtI = a2_w lab -> a3_d gtI = 8%nat ->
  a3_h gtC = a2_h lab -> a3_w gtC = a2_w lab -> a3_d gtC = 4%nat ->
  0 <= x < Z.of_nat (a2_w lab) -> 0 <= y < Z.of_nat (a2_h lab) ->
  (l = 0%nat \/ exists prev, previous_ok shapes layer_labels l prev) ->
  exists gtI' gtC',
    cal_link_cell shapes layer_labels l lab (a2_h lab) (a2_w lab)
      (gtI, gtC) x y = Ok (gtI', gtC') /\
    (wf3 gtI' /\ a3_h gtI' = a3_h gtI /\ a3_w gtI' = a3_w gtI /\
     a3_d gtI' = a3_d gtI) /\
    (wf3 gtC' /\ a3_h gtC' = a3_h gtC /\ a3_w gtC' = a3_w gtC /\
     a3_d gtC' = a3_d gtC) /\
    (forall k, (k < 8)%nat ->
       get3 gtI' y x (Z.of_nat k)
       = if bool_decide
              (slot_value lab lab (get_inter_layer_neighbours x y) y x k = 1)
         then Ok 1 else get3 gtI y x (Z.of_nat k)) /\
    (forall y' x' k', (y', x') <> (y, x) ->
       get3 gtI' y' x' k' = get3 gtI y' x' k') /\
    (forall prev, previous_ok shapes layer_labels l prev ->
       forall k, (k < 4)%nat ->
       get3 gtC' y x (Z.of_nat k)
       = if bool_decide
              (slot_value lab prev (get_cross_layer_neighbours x y) y x k = 1)
         then Ok 1 else get3 gtC y x (Z.of_nat k)) /\
    (forall y' x' k', (y', x') <> (y, x) ->
       get3 gtC' y' x' k' = get3 gtC y' x' k').
Proof.
  intros Hlab HwfI HwfC HhI HwI HdI HhC HwC HdC Hx Hy Hprev.
  destruct (get2_Ok lab y x Hlab Hy Hx) as (m & Hm & _).
  unfold cal_link_cell. rewrite Hm, bind_Ok.
  assert (Hslot : forall nb nbs k,
            bool_decide (slot_value lab nb nbs y x k = 1)
            = (0 <=? m) && nb_hit nb m nbs k).
  { intros nb nbs k. unfold slot_value. rewrite Hm.
    destruct ((0 <=? m) && nb_hit nb m nbs k);
      [by apply bool_decide_eq_true | by apply bool_decide_eq_false]. }
  destruct (0 <=? m) eqn:Hm0.
  - (* a matched cell *)
    destruct (cal_link_neighbours_spec lab m x y
                (get_inter_layer_neighbours x y) gtI)
      as (gtI' & HrunI & HhI' & HwI' & HdI' & HwfI' & HgetI & HothI);
      [assumption | assumption | lia | lia | by rewrite HdI |].
    rewrite HrunI, bind_Ok.
    assert (HI : forall k, (k < 8)%nat ->
              get3 gtI' y x (Z.of_nat k)
              = if bool_decide
                     (slot_value lab lab (get_inter_layer_neighbours x y)
                        y x k = 1)
                then Ok 1 else get3 gtI y x (Z.of_nat k)).
    { intros k Hk. rewrite Hslot. simpl. apply HgetI. lia. }
    destruct Hprev as [-> | [prev Hprev]].
    + exists gtI', gtC. simpl. split; [reflexivity|].
      split; [auto|]. split; [auto|]. split; [exact HI|].
      split; [exact HothI|]. split; [|auto].
      intros prev [Hl _]. lia.
    + pose proof Hprev as (Hl & Hlk & Hsh & Hwfp).
      replace (0 <? l)%nat with true by (symmetry; apply Nat.ltb_lt; lia).
      rewrite (py_get_Ok _ _ _ _ Hsh), bind_Ok.
      rewrite (py_get_Ok _ _ _ _ Hlk), bind_Ok.
      destruct (cal_link_neighbours_spec prev m x y
                  (get_cross_layer_neighbours x y) gtC)
        as (gtC' & HrunC & HhC' & HwC' & HdC' & HwfC' & HgetC & HothC);
        [assumption | assumption | lia | lia | by rewrite HdC |].
      rewrite HrunC, bind_Ok.
      exists gtI', gtC'. split; [reflexivity|].
      split; [auto|]. split; [auto|]. split; [exact HI|].
      split; [exact HothI|]. split; [|exact HothC].
      intros prev' (_ & Hlk' & _) k Hk.
      assert (prev' = prev) as -> by congruence.
      rewrite Hslot. simpl. apply HgetC. lia.
  - (* an unmatched cell: nothing is written *)
    exists gtI, gtC. split; [reflexivity|].
    split; [auto|]. split; [auto|].
    split; [intros k Hk; by rewrite Hslot|]. split; [auto|].
    split; [intros prev _ k Hk; by rewrite Hslot | auto].
Qed.

Lemma slot_value_01 lab nb nbs y x k :
  slot_value lab nb nbs y x k = 0 \/ slot_value lab nb nbs y x k = 1.
Proof.
  unfold slot_value. destruct (get2 lab y x) as [m|]; [|auto].
  destruct ((0 <=? m) && nb_hit nb m nbs k); auto.
Qed.

(** The cells of a layer in the order of the two loops. *)
Definition layer_cells (h w : nat) : list (Z * Z) :=
  flat_map (fun x => map (pair x) (seqZ 0 (Z.of_nat h))) (seqZ 0 (Z.of_nat w)).

Lemma layer_cells_elem (h w : nat) (x y : Z) :
  (x, y) ∈ layer_cells h w <-> 0 <= x < Z.of_nat w /\ 0 <= y < Z.of_nat h.
Proof.
  unfold layer_cells. rewrite list_elem_of_In, in_flat_map. split.
  - intros (x' & Hx' & Hin).
    apply in_map_iff in Hin as (y' & [= <- <-] & Hy').
    apply list_elem_of_In, elem_of_seqZ in Hx'.
    apply list_elem_of_In, elem_of_seqZ in Hy'. lia.
  - intros [Hx Hy]. exists x. split.
    + apply list_elem_of_In, elem_of_seqZ. lia.
    + apply in_map_iff. exists y. split; [reflexivity|].
      apply list_elem_of_In, elem_of_seqZ. lia.
Qed.

(** A link array of depth [d] holds the slot values of its layer. *)
Definition link_layer_ok (lab nb : array2 Z) (nbs : Z -> Z -> list (Z * Z))
    (d : nat) (gt : array3 Z) : Prop :=
  wf3 gt /\ a3_h gt = a2_h lab /\ a3_w gt = a2_w lab /\ a3_d gt = d /\
  forall x y k,
    0 <= x < Z.of_nat (a2_w lab) -> 0 <= y < Z.of_nat (a2_h lab) ->
    (k < d)%nat ->
    get3 gt y x (Z.of_nat k) = Ok (slot_value lab nb (nbs x y) y x k).

(** The same, after the cells [pre] only. *)
Definition link_layer_partial (pre : list (Z * Z)) (lab nb : array2 Z)
    (nbs : Z -> Z -> list (Z * Z)) (d : nat) (gt : array3 Z) : Prop :=
  wf3 gt /\ a3_h gt = a2_h lab /\ a3_w gt = a2_w lab /\ a3_d gt = d /\
  forall x y k,
    0 <= x < Z.of_nat (a2_w lab) -> 0 <= y < Z.of_nat (a2_h lab) ->
    (k < d)%nat ->
    get3 gt y x (Z.of_nat k)
    = Ok (if bool_decide ((x, y) ∈ pre)
          then slot_value lab nb (nbs x y) y x k else 0).

Lemma link_layer_partial_step pre lab nb nbs d gt gt' x y :
  link_layer_partial pre lab nb nbs d gt ->
  wf3 gt' -> a3_h gt' = a3_h gt -> a3_w gt' = a3_w gt -> a3_d gt' = a3_d gt ->
  (forall k, (k < d)%nat ->
     get3 gt' y x (Z.of_nat k)
     = if bool_decide (slot_value lab nb (nbs x y) y x k = 1)
       then Ok 1 else get3 gt y x (Z.of_nat k)) ->
  (forall y' x' k', (y', x') <> (y, x) ->
     get3 gt' y' x' k' = get3 gt y' x' k') ->
  link_layer_partial (pre ++ [(x, y)]) lab nb nbs d gt'.
Proof.
  intros (Hwf & Hh & Hw & Hd & Hget) Hwf' Hh' Hw' Hd' Hown Hoth.
  split; [assumption|]. split; [lia|]. split; [lia|]. split; [lia|].
  intros x' y' k Hx' Hy' Hk.
  destruct (decide ((y', x') = (y, x))) as [[= -> ->]|Hne].
  - rewrite Hown by assumption. rewrite Hget by assumption.
    rewrite (bool_decide_eq_true_2 ((x, y) ∈ pre ++ [(x, y)]))
      by (apply elem_of_app; right; left).
    destruct (slot_value_01 lab nb (nbs x y) y x k) as [E|E]; rewrite E.
    + rewrite bool_decide_eq_false_2 by lia. by destruct (bool_decide _).
    + by rewrite bool_decide_eq_true_2.
  - rewrite Hoth by assumption. rewrite Hget by assumption.
    rewrite (bool_decide_ext ((x', y') ∈ pre ++ [(x, y)]) ((x', y') ∈ pre));
      [reflexivity|].
    rewrite elem_of_app, list_elem_of_singleton.
    split; [|auto]. intros [?|[= -> ->]]; [assumption | congruence].
Qed.

(** The loops over the cells of layer [l] fill its two link arrays. *)
Lemma cal_link_layer_spec shapes layer_labels inters crosses (l : nat)
    (lab : array2 Z) :
  layer_labels !! l = Some lab -> wf2 lab ->
  (l = 0%nat \/ exists prev, previous_ok shapes layer_labels l prev) ->
  exists gtI gtC,
    cal_link_layer shapes layer_labels (inters, crosses)
      (l, (a2_h lab, a2_w lab))
    = Ok (inters ++ [gtI],
          if (0 <? l)%nat then crosses ++ [gtC] else crosses) /\
    link_layer_ok lab lab get_inter_layer_neighbours 8 gtI /\
    (forall prev, previous_ok shapes layer_labels l prev ->
       link_layer_ok lab prev get_cross_layer_neighbours 4 gtC).
Proof.
  intros Hlab Hwf Hprev. unfold cal_link_layer.
  rewrite (py_get_Ok _ _ _ _ Hlab), bind_Ok.
  rewrite (foldM_nested
             (fun st x y => cal_link_cell shapes layer_labels l lab
                              (a2_h lab) (a2_w lab) st x y)).
  fold (layer_cells (a2_h lab) (a2_w lab)).
  set (P := fun (pre : list (Z * Z)) (st : array3 Z * array3 Z) =>
              link_layer_partial pre lab lab get_inter_layer_neighbours 8
                (st.1) /\
              (wf3 (st.2) /\ a3_h (st.2) = a2_h lab /\
               a3_w (st.2) = a2_w lab /\ a3_d (st.2) = 4%nat) /\
              forall prev, previous_ok shapes layer_labels l prev ->
                link_layer_partial pre lab prev get_cross_layer_neighbours 4
                  (st.2)).
  destruct (foldM_prefix P
              (fun s ab => cal_link_cell shapes layer_labels l lab
                             (a2_h lab) (a2_w lab) s (ab.1) (ab.2))
              (layer_cells (a2_h lab) (a2_w lab))
              (np_full3 (a2_h lab) (a2_w lab) 8 0,
               np_full3 (a2_h lab) (a2_w lab) 4 0))
    as ([gtI gtC] & Hrun & HI & _ & HC).
  - (* before the loops *)
    assert (Hzero : forall d nb nbs,
              link_layer_partial [] lab nb nbs d
                (np_full3 (a2_h lab) (a2_w lab) d 0)).
    { intros d nb nbs. split; [apply np_full3_wf|].
      repeat (split; [reflexivity|]).
      intros x y k Hx Hy Hk. rewrite np_full3_get by (simpl; lia).
      reflexivity. }
    split; [apply Hzero|]. split; [|intros; apply Hzero].
    split; [apply np_full3_wf|]. auto.
  - (* one cell *)
    intros pre [x y] post [gtI gtC] Hsplit (HI & (HwfC & HhC & HwC & HdC) & HC).
    simpl in *.
    assert (Hxy : (x, y) ∈ layer_cells (a2_h lab) (a2_w lab)).
    { rewrite Hsplit. apply elem_of_app. right. left. }
    apply layer_cells_elem in Hxy as [Hx Hy].
    pose proof HI as (HwfI & HhI & HwI & HdI & _).
    destruct (cal_link_cell_spec shapes layer_labels l lab gtI gtC x y)
      as (gtI' & gtC' & Hrun & (HwfI' & HhI' & HwI' & HdI')
          & (HwfC' & HhC' & HwC' & HdC') & HownI & HothI & HownC & HothC);
      try assumption.
    exists (gtI', gtC'). split; [exact Hrun|]. unfold P. simpl.
    split; [|split].
    + by apply (link_layer_partial_step pre lab lab _ 8 gtI).
    + split; [assumption|]. split; [lia|]. split; [lia|]. lia.
    + intros prev Hp.
      apply (link_layer_partial_step pre lab prev _ 4 gtC); auto.
  - (* after the loops *)
    rewrite Hrun, bind_Ok. exists gtI, gtC. split; [reflexivity|].
    assert (Hdone : forall d nb nbs gt,
              link_layer_partial (layer_cells (a2_h lab) (a2_w lab))
                lab nb nbs d gt ->
              link_layer_ok lab nb nbs d gt).
    { intros d nb nbs gt (H1 & H2 & H3 & H4 & Hget).
      repeat (split; [assumption|]).
      intros x y k Hx Hy Hk. rewrite Hget by assumption.
      by rewrite bool_decide_eq_true_2 by (apply layer_cells_elem; lia). }
    split; [by apply Hdone|]. intros prev Hp. by apply Hdone, HC.
Qed.

End link_layer_facts.

(** ** Reshaping by layer *)

(** The number of anchors of the layers, and the number of link slots of
    depth [d]. *)
Definition num_cells (shapes : list (nat * nat)) (d : nat) : nat :=
  sum_list (map (fun s => (s.1 * s.2 * d)%nat) shapes).

Definition num_anchors (shapes : list (nat * nat)) : nat :=
  sum_list (map (fun s => (s.1 * s.2)%nat) shapes).

Definition num_links (shapes : list (nat * nat)) : nat :=
  (num_cells shapes 8 + num_cells (drop 1 shapes) 4)%nat.

Section reshape_facts.
Context {A : Type}.
Local Open Scope nat_scope.

(** The layers cut from [v], the first one at [idx]. *)
Fixpoint layers_from (v : list A) (shapes : list (nat * nat)) (idx : nat)
  : list (array2 A) :=
  match shapes with
  | [] => []
  | (h, w) :: rest =>
    Array2 h w (py_slice v idx (h * w)) :: layers_from v rest (idx + h * w)
  end.

Fixpoint cubes_from (v : list A) (shapes : list (nat * nat)) (d idx : nat)
  : list (array3 A) :=
  match shapes with
  | [] => []
  | (h, w) :: rest =>
    Array3 h w d (py_slice v idx (h * w * d))
    :: cubes_from v rest d (idx + h * w * d)
  end.

Lemma py_slice_length (v : list A) (i n : nat) :
  i + n <= length v -> length (py_slice v i n) = n.
Proof. intros Hin. unfold py_slice. rewrite length_take, length_drop. lia. Qed.

Lemma reshape_labels_loop (v : list A) shapes : forall acc idx,
  idx + num_anchors shapes <= length v ->
  foldM (fun '(layer_labels, idx) '(h, w) =>
           let label_length := h * w in
           let layer_match_result := py_slice v idx label_length in
           let idx := idx + label_length in
           layer_match_result ← np_reshape2 layer_match_result h w;
           Ok (layer_labels ++ [layer_match_result], idx))
        shapes (acc, idx)
  = Ok (acc ++ layers_from v shapes idx, idx + num_anchors shapes).
Proof.
  induction shapes as [|[h w] shapes IH]; intros acc idx Hlen.
  - simpl. by rewrite app_nil_r, Nat.add_0_r.
  - unfold num_anchors in *. simpl in Hlen. rewrite foldM_cons.
    cbv beta iota zeta. unfold np_reshape2.
    rewrite py_slice_length by lia. rewrite Nat.eqb_refl, bind_Ok, bind_Ok.
    rewrite IH by lia. simpl. rewrite <- app_assoc. simpl.
    f_equal. f_equal. lia.
Qed.

Lemma reshape_labels_by_layer_Ok shapes (v : list A) :
  length v = num_anchors shapes ->
  reshape_labels_by_layer shapes v = Ok (layers_from v shapes 0).
Proof.
  intros Hlen. unfold reshape_labels_by_layer.
  rewrite reshape_labels_loop by lia. rewrite bind_Ok. simpl.
  rewrite Hlen, Nat.eqb_refl. reflexivity.
Qed.

Lemma layers_from_length (v : list A) shapes : forall idx,
  length (layers_from v shapes idx) = length shapes.
Proof.
  induction shapes as [|[h w] shapes IH]; intros idx; simpl; [|rewrite IH];
    reflexivity.
Qed.

(** Layer [l] has the shape of the configuration, and its buffer is the
    slice of [v] after the layers before it. *)
Lemma layers_from_lookup (v : list A) shapes : forall idx l g,
  idx + num_anchors shapes <= length v ->
  layers_from v shapes idx !! l = Some g ->
  shapes !! l = Some (a2_h g, a2_w g) /\ wf2 g /\
  a2_data g
  = py_slice v (idx + num_anchors (take l shapes)) (a2_h g * a2_w g).
Proof.
  induction shapes as [|[h w] shapes IH]; intros idx l g Hlen Hg;
    [discriminate|].
  unfold num_anchors in *. simpl in Hlen. destruct l as [|l]; simpl in *.
  - injection Hg as <-. simpl. split; [reflexivity|]. split.
    + unfold wf2. simpl. apply py_slice_length. lia.
    + by rewrite Nat.add_0_r.
  - destruct (IH (idx + h * w) l g) as (H1 & H2 & H3); [lia | assumption |].
    split; [assumption|]. split; [assumption|].
    rewrite H3. f_equal. lia.
Qed.

Lemma reshape_links_loop (v : list A) (d : nat) shapes : forall acc idx,
  idx + num_cells shapes d <= length v ->
  foldM (fun '(link_gts, idx) '(lh, lw) =>
           let length := lh * lw * d in
           let layer_link_gt := py_slice v idx length in
           let idx := idx + length in
           layer_link_gt ← np_reshape3 layer_link_gt lh lw d;
           Ok (link_gts ++ [layer_link_gt], idx))
        shapes (acc, idx)
  = Ok (acc ++ cubes_from v shapes d idx, idx + num_cells shapes d).
Proof.
  induction shapes as [|[h w] shapes IH]; intros acc idx Hlen.
  - simpl. by rewrite app_nil_r, Nat.add_0_r.
  - unfold num_cells in *. simpl in Hlen. rewrite foldM_cons.
    cbv beta iota zeta. unfold np_reshape3.
    rewrite py_slice_length by lia. rewrite Nat.eqb_refl, bind_Ok, bind_Ok.
    rewrite IH by lia. simpl. rewrite <- app_assoc. simpl.
    f_equal. f_equal. lia.
Qed.

Lemma reshape_link_gt_by_layer_Ok shapes (v : list A) :
  length v = num_links shapes ->
  reshape_link_gt_by_layer shapes v
  = Ok (cubes_from v shapes 8 0,
        cubes_from v (drop 1 shapes) 4 (num_cells shapes 8)).
Proof.
  intros Hlen. unfold reshape_link_gt_by_layer, num_links in *.
  rewrite (reshape_links_loop v 8) by lia. rewrite bind_Ok. simpl.
  rewrite (reshape_links_loop v 4) by lia. rewrite bind_Ok. simpl.
  rewrite Hlen, Nat.eqb_refl. reflexivity.
Qed.

(** A link array has the shape of its layer and depth [d]. *)
Definition cube_of_shape (d : nat) (gt : array3 A) (s : nat * nat) : Prop :=
  wf3 gt /\ a3_h gt = s.1 /\ a3_w gt = s.2 /\ a3_d gt = d.

Lemma concat_data_length (d : nat) gts shapes :
  Forall2 (cube_of_shape d) gts shapes ->
  length (concat (map a3_data gts)) = num_cells shapes d.
Proof.
  unfold num_cells.
  induction 1 as [|gt s gts shapes (Hwf & Hh & Hw & Hd) _ IH]; [reflexivity|].
  simpl. rewrite length_app, IH, Hwf, Hh, Hw, Hd. reflexivity.
Qed.

(** Cutting the concatenation of the buffers gives the arrays back. *)
Lemma cubes_from_concat (d : nat) gts shapes :
  Forall2 (cube_of_shape d) gts shapes ->
  forall pre post,
    cubes_from (pre ++ concat (map a3_data gts) ++ post) shapes d (length pre)
    = gts.
Proof.
  induction 1 as [|gt s gts shapes (Hwf & Hh & Hw & Hd) _ IH];
    intros pre post; [reflexivity|].
  destruct s as [h w]. simpl in *. f_equal.
  - destruct gt as [gh gw gd data]. unfold wf3 in Hwf. simpl in *. subst.
    f_equal. unfold py_slice. rewrite drop_app_length.
    rewrite <- app_assoc, <- Hwf. apply take_app_length.
  - specialize (IH (pre ++ a3_data gt) post).
    rewrite length_app, Hwf, Hh, Hw, Hd in IH.
    rewrite <- IH at 2. f_equal. by rewrite <- !app_assoc.
Qed.

End reshape_facts.

(** ** Link ground truth: all layers *)

Section link_gt_facts.
Local Open Scope Z_scope.

Lemma slot_value_1 lab nb nbs (y x : Z) (k : nat) (nx ny : Z) :
  nbs !! k = Some (nx, ny) ->
  slot_value lab nb nbs y x k = 1 <->
  is_valid_cord nx ny (Z.of_nat (a2_w nb)) (Z.of_nat (a2_h nb)) = true /\
  exists m, 0 <= m /\ get2 lab y x = Ok m /\ get2 nb ny nx = Ok m.
Proof.
  intros Hk. unfold slot_value, nb_hit. rewrite Hk. split.
  - destruct (get2 lab y x) as [m|]; [|discriminate].
    destruct (0 <=? m) eqn:Hm; [|discriminate]. simpl.
    destruct (is_valid_cord nx ny _ _); [|discriminate]. simpl.
    destruct (get2 nb ny nx) as [n|]; [|discriminate].
    destruct (m =? n) eqn:Hmn; [|discriminate]. intros _.
    apply Z.eqb_eq in Hmn as <-. apply Z.leb_le in Hm.
    split; [reflexivity|]. eauto.
  - intros (-> & m & Hm & -> & ->). simpl.
    rewrite (proj2 (Z.leb_le 0 m) Hm), Z.eqb_refl. reflexivity.
Qed.

(** The loop over the layers fills one inter-layer array per layer and one
    cross-layer array per layer after the first. *)
Lemma cal_link_layers_spec shapes (labels : list Z) :
  length labels = num_anchors shapes ->
  let layer_labels := layers_from labels shapes 0 in
  exists inters crosses,
    foldM (cal_link_layer shapes layer_labels) (enumerate shapes) ([], [])
    = Ok (inters, crosses) /\
    length inters = length shapes /\
    length crosses = (length shapes - 1)%nat /\
    (forall l gt, inters !! l = Some gt ->
       exists lab, layer_labels !! l = Some lab /\
         link_layer_ok lab lab get_inter_layer_neighbours 8 gt) /\
    (forall l gt, crosses !! l = Some gt ->
       exists lab prev,
         layer_labels !! S l = Some lab /\ layer_labels !! l = Some prev /\
         link_layer_ok lab prev get_cross_layer_neighbours 4 gt).
Proof.
  intros Hlen layer_labels.
  set (P := fun (pre : list (nat * (nat * nat)))
                (st : list (array3 Z) * list (array3 Z)) =>
              length (st.1) = length pre /\
              length (st.2) = (length pre - 1)%nat /\
              (forall l gt, st.1 !! l = Some gt ->
                 exists lab, layer_labels !! l = Some lab /\
                   link_layer_ok lab lab get_inter_layer_neighbours 8 gt) /\
              (forall l gt, st.2 !! l = Some gt ->
                 exists lab prev,
                   layer_labels !! S l = Some lab /\
                   layer_labels !! l = Some prev /\
                   link_layer_ok lab prev get_cross_layer_neighbours 4 gt)).
  assert (Hlayer : forall l g, layer_labels !! l = Some g ->
            shapes !! l = Some (a2_h g, a2_w g) /\ wf2 g).
  { intros l g Hg.
    destruct (layers_from_lookup labels shapes 0%nat l g) as (H1 & H2 & _);
      [lia | exact Hg | auto]. }
  destruct (foldM_prefix P (cal_link_layer shapes layer_labels)
              (enumerate shapes) ([], []))
    as ([inters crosses] & Hrun & Hli & Hlc & HI & HC).
  - unfold P. simpl. repeat split; intros l gt Hgt; discriminate.
  - intros pre [l [h w]] post [inters crosses] Hsplit (Hli & Hlc & HI & HC).
    simpl in Hli, Hlc, HI, HC.
    apply enumerate_split in Hsplit as [-> Hshape].
    destruct (lookup_lt_is_Some_2 layer_labels (length pre)) as [lab Hlab].
    { unfold layer_labels. rewrite layers_from_length.
      by apply lookup_lt_Some in Hshape. }
    destruct (Hlayer _ _ Hlab) as [Hshape' Hwf].
    assert (h = a2_h lab /\ w = a2_w lab) as [-> ->]
      by (split; congruence).
    assert (Hprev : length pre = 0%nat \/
              exists prev,
                previous_ok shapes layer_labels (length pre) prev).
    { destruct (length pre) as [|n] eqn:Hn; [by left | right].
      destruct (lookup_lt_is_Some_2 layer_labels n) as [prev Hp].
      { apply lookup_lt_Some in Hlab. lia. }
      exists prev. destruct (Hlayer _ _ Hp) as [Hs Hw].
      unfold previous_ok. simpl. rewrite Nat.sub_0_r.
      split; [lia|]. auto. }
    destruct (cal_link_layer_spec shapes layer_labels inters crosses
                (length pre) lab Hlab Hwf Hprev)
      as (gtI & gtC & Hrun & HgtI & HgtC).
    eexists. split; [exact Hrun|]. unfold P. simpl.
    rewrite !length_app. simpl. split; [lia|]. split; [|split].
    + destruct (length pre) as [|n] eqn:Hn; simpl.
      * lia.
      * rewrite length_app. simpl. lia.
    + intros l gt Hgt. apply lookup_snoc_Some in Hgt as [[Hl Hgt]|[Hl <-]].
      * by apply HI.
      * rewrite Hl, Hli. eauto.
    + intros l gt Hgt.
      destruct (length pre) as [|n] eqn:Hn; simpl in Hgt; [by apply HC|].
      apply lookup_snoc_Some in Hgt as [[Hl Hgt]|[Hl <-]]; [by apply HC|].
      destruct Hprev as [?|[prev Hprev]]; [lia|].
      pose proof Hprev as (_ & Hp & _). simpl in Hp.
      rewrite Nat.sub_0_r in Hp.
      assert (l = n) as -> by lia.
      exists lab, prev. split; [assumption|]. split; [assumption|].
      by apply HgtC.
  - exists inters, crosses. unfold P in *. simpl in *.
    split; [exact Hrun|].
    assert (Hen : length (enumerate shapes) = length shapes).
    { unfold enumerate. rewrite length_zip_with, length_seq. lia. }
    rewrite Hen in Hli, Hlc. auto.
Qed.

(** [cal_link_gt] returns when there are two layers or more, and
    [reshape_link_gt_by_layer] cuts what it returns into the arrays the
    loops filled. *)
Lemma cal_link_gt_spec (cfg : config) (labels : list Z) :
  (2 <= length (feat_shapes cfg))%nat ->
  length labels = num_anchors (feat_shapes cfg) ->
  let layer_labels := layers_from labels (feat_shapes cfg) 0 in
  exists link_gt inters crosses,
    cal_link_gt cfg labels = Ok link_gt /\
    length link_gt = num_links (feat_shapes cfg) /\
    reshape_link_gt_by_layer (feat_shapes cfg) link_gt
    = Ok (inters, crosses) /\
    length inters = length (feat_shapes cfg) /\
    length crosses = (length (feat_shapes cfg) - 1)%nat /\
    (forall l gt, inters !! l = Some gt ->
       exists lab, layer_labels !! l = Some lab /\
         link_layer_ok lab lab get_inter_layer_neighbours 8 gt) /\
    (forall l gt, crosses !! l = Some gt ->
       exists lab prev,
         layer_labels !! S l = Some lab /\ layer_labels !! l = Some prev /\
         link_layer_ok lab prev get_cross_layer_neighbours 4 gt).
Proof.
  intros Hlayers Hlen layer_labels. set (shapes := feat_shapes cfg) in *.
  destruct (cal_link_layers_spec shapes labels Hlen)
    as (inters & crosses & Hrun & Hli & Hlc & HI & HC).
  fold layer_labels in Hrun, HI, HC.
  assert (Hlayer : forall l g, layer_labels !! l = Some g ->
            shapes !! l = Some (a2_h g, a2_w g)).
  { intros l g Hg.
    destruct (layers_from_lookup labels shapes 0%nat l g) as (H1 & _);
      [lia | exact Hg | auto]. }
  assert (HFI : Forall2 (cube_of_shape 8) inters shapes).
  { apply Forall2_same_length_lookup_2; [exact Hli|].
    intros i gt sh Hgt Hsh.
    destruct (HI i gt Hgt) as (lab & Hlab & Hwf & Hh & Hw & Hd & _).
    rewrite (Hlayer _ _ Hlab) in Hsh. injection Hsh as <-.
    by repeat split. }
  assert (HFC : Forall2 (cube_of_shape 4) crosses (drop 1 shapes)).
  { apply Forall2_same_length_lookup_2; [by rewrite length_drop|].
    intros i gt sh Hgt Hsh. rewrite lookup_drop in Hsh.
    destruct (HC i gt Hgt) as (lab & prev & Hlab & _ & Hwf & Hh & Hw & Hd & _).
    simpl in Hsh. rewrite (Hlayer _ _ Hlab) in Hsh. injection Hsh as <-.
    by repeat split. }
  set (flatI := concat (map a3_data inters)).
  set (flatC := concat (map a3_data crosses)).
  assert (HlenI : length flatI = num_cells shapes 8)
    by by apply concat_data_length.
  assert (HlenC : length flatC = num_cells (drop 1 shapes) 4)
    by by apply concat_data_length.
  exists (flatI ++ flatC), inters, crosses.
  assert (Hlen' : length (flatI ++ flatC) = num_links shapes).
  { rewrite length_app, HlenI, HlenC. reflexivity. }
  split; [|split; [exact Hlen'|split; [|auto]]].
  - unfold cal_link_gt. fold shapes.
    rewrite (reshape_labels_by_layer_Ok shapes labels Hlen), bind_Ok.
    fold layer_labels. rewrite Hrun, bind_Ok. cbv beta iota.
    destruct inters as [|gtI inters]; [simpl in Hli; lia|].
    destruct crosses as [|gtC crosses]; [simpl in Hlc; lia|].
    simpl. by rewrite app_nil_r.
  - rewrite (reshape_link_gt_by_layer_Ok shapes _ Hlen'). f_equal. f_equal.
    + apply (cubes_from_concat 8 inters shapes HFI [] flatC).
    + rewrite <- HlenI, <- (app_nil_r flatC).
      apply (cubes_from_concat 4 crosses (drop 1 shapes) HFC flatI []).
Qed.

End link_gt_facts.

Section link_gt_claims.
Local Open Scope Z_scope.

(** C3.  With the labels cut into layers by [reshape_labels_by_layer] and
    the link ground truth cut into slots by [reshape_link_gt_by_layer],
    the inter-layer array of a layer has the shape of the layer and eight
    slots per cell, one for each of the eight grid-adjacent cells in the
    order of the source; the cross-layer array of a layer after the first
    has four slots per cell, one for each of the four cells
    [(2x, 2y)], [(2x+1, 2y)], [(2x, 2y+1)], [(2x+1, 2y+1)] of the layer
    before.  Every slot is [0] or [1], and it is [1] if and only if its
    neighbour coordinate lies in the grid of the neighbour's layer and
    the cell and the neighbour carry the same non-negative label.  (With
    fewer than two layers [np.hstack] gets an empty list and nothing is
    returned.) *)
Theorem cal_link_gt_slots (cfg : config) (labels : list Z) :
  (2 <= length (feat_shapes cfg))%nat ->
  length labels = num_anchors (feat_shapes cfg) ->
  exists layer_labels link_gt inter cross,
    reshape_labels_by_layer (feat_shapes cfg) labels = Ok layer_labels /\
    cal_link_gt cfg labels = Ok link_gt /\
    length link_gt = num_links (feat_shapes cfg) /\
    reshape_link_gt_by_layer (feat_shapes cfg) link_gt = Ok (inter, cross) /\
    length inter = length layer_labels /\
    length cross = (length layer_labels - 1)%nat /\
    (forall l lab gt,
       layer_labels !! l = Some lab -> inter !! l = Some gt ->
       a3_h gt = a2_h lab /\ a3_w gt = a2_w lab /\ a3_d gt = 8%nat) /\
    (forall l lab gt,
       layer_labels !! S l = Some lab -> cross !! l = Some gt ->
       a3_h gt = a2_h lab /\ a3_w gt = a2_w lab /\ a3_d gt = 4%nat) /\
    (forall l lab gt x y k nx ny,
       layer_labels !! l = Some lab -> inter !! l = Some gt ->
       0 <= x < Z.of_nat (a2_w lab) -> 0 <= y < Z.of_nat (a2_h lab) ->
       [(x - 1, y - 1); (x, y - 1); (x + 1, y - 1);
        (x - 1, y);                 (x + 1, y);
        (x - 1, y + 1); (x, y + 1); (x + 1, y + 1)] !! k = Some (nx, ny) ->
       exists v, get3 gt y x (Z.of_nat k) = Ok v /\ (v = 0 \/ v = 1) /\
         (v = 1 <->
          is_valid_cord nx ny (Z.of_nat (a2_w lab)) (Z.of_nat (a2_h lab))
          = true /\
          exists m, 0 <= m /\ get2 lab y x = Ok m /\ get2 lab ny nx = Ok m)) /\
    (forall l lab prev gt x y k nx ny,
       layer_labels !! S l = Some lab -> layer_labels !! l = Some prev ->
       cross !! l = Some gt ->
       0 <= x < Z.of_nat (a2_w lab) -> 0 <= y < Z.of_nat (a2_h lab) ->
       [(2 * x, 2 * y); (2 * x + 1, 2 * y); (2 * x, 2 * y + 1);
        (2 * x + 1, 2 * y + 1)] !! k = Some (nx, ny) ->
       exists v, get3 gt y x (Z.of_nat k) = Ok v /\ (v = 0 \/ v = 1) /\
         (v = 1 <->
          is_valid_cord nx ny (Z.of_nat (a2_w prev)) (Z.of_nat (a2_h prev))
          = true /\
          exists m, 0 <= m /\ get2 lab y x = Ok m /\ get2 prev ny nx = Ok m)).
Proof.
  intros Hlayers Hlen.
  destruct (cal_link_gt_spec cfg labels Hlayers Hlen)
    as (link_gt & inters & crosses & Hrun & Hlg & Hre & Hli & Hlc & HI & HC).
  exists (layers_from labels (feat_shapes cfg) 0), link_gt, inters, crosses.
  rewrite layers_from_length.
  split; [by apply reshape_labels_by_layer_Ok|].
  repeat (split; [assumption|]). split; [|split; [|split]].
  - intros l lab gt Hlab Hgt.
    destruct (HI l gt Hgt) as (lab' & Hlab' & _ & Hh & Hw & Hd & _).
    assert (lab' = lab) as -> by congruence. auto.
  - intros l lab gt Hlab Hgt.
    destruct (HC l gt Hgt)
      as (lab' & prev' & Hlab' & _ & _ & Hh & Hw & Hd & _).
    assert (lab' = lab) as -> by congruence. auto.
  - intros l lab gt x y k nx ny Hlab Hgt Hx Hy Hk.
    change (get_inter_layer_neighbours x y !! k = Some (nx, ny)) in Hk.
    destruct (HI l gt Hgt) as (lab' & Hlab' & _ & _ & _ & _ & Hget).
    assert (lab' = lab) as -> by congruence.
    exists (slot_value lab lab (get_inter_layer_neighbours x y) y x k).
    split; [|split].
    + apply Hget; [assumption..|].
      apply lookup_lt_Some in Hk. simpl in Hk. lia.
    + apply slot_value_01.
    + by apply slot_value_1.
  - intros l lab prev gt x y k nx ny Hlab Hprev Hgt Hx Hy Hk.
    change (get_cross_layer_neighbours x y !! k = Some (nx, ny)) in Hk.
    destruct (HC l gt Hgt)
      as (lab' & prev' & Hlab' & Hprev' & _ & _ & _ & _ & Hget).
    assert (lab' = lab) as -> by congruence.
    assert (prev' = prev) as -> by congruence.
    exists (slot_value lab prev (get_cross_layer_neighbours x y) y x k).
    split; [|split].
    + apply Hget; [assumption..|].
      apply lookup_lt_Some in Hk. simpl in Hk. lia.
    + apply slot_value_01.
    + by apply slot_value_1.
Qed.

(** A first layer of two cells side by side and a second layer of one
    cell, all three with label [0]: in the first cell the slot of the
    right neighbour is [1] and the slot of the left neighbour, which is
    out of the grid, is [0]; in the cell of the second layer the slot of
    the cell [(1, 0)] of the first layer is [1]. *)
Lemma cal_link_gt_slots_demo :
  exists link_gt inter cross gtI gtC,
    cal_link_gt (Config [(1, 2); (1, 1)]%nat [] 1 (1, 1)%R 1 1) [0; 0; 0]
    = Ok link_gt /\
    reshape_link_gt_by_layer [(1, 2); (1, 1)]%nat link_gt
    = Ok (inter, cross) /\
    inter !! 0%nat = Some gtI /\ cross !! 0%nat = Some gtC /\
    get3 gtI 0 0 4 = Ok 1 /\ get3 gtI 0 0 3 = Ok 0 /\
    get3 gtC 0 0 1 = Ok 1.
Proof.
  destruct (cal_link_gt_slots
              (Config [(1, 2); (1, 1)]%nat [] 1 (1, 1)%R 1 1) [0; 0; 0])
    as (layer_labels & link_gt & inter & cross & Hre & Hrun & _ & Hcut
        & Hli & Hlc & _ & _ & HI & HC);
    [simpl; lia | reflexivity |].
  vm_compute in Hre. injection Hre as <-.
  destruct (lookup_lt_is_Some_2 inter 0) as [gtI HgtI];
    [rewrite Hli; simpl; lia|].
  destruct (lookup_lt_is_Some_2 cross 0) as [gtC HgtC];
    [rewrite Hlc; simpl; lia|].
  exists link_gt, inter, cross, gtI, gtC.
  split; [exact Hrun|]. split; [exact Hcut|].
  split; [exact HgtI|]. split; [exact HgtC|].
  destruct (HI 0%nat _ gtI 0 0 4%nat 1 0 eq_refl HgtI)
    as (v4 & Hv4 & _ & H4); [simpl; lia | simpl; lia | reflexivity |].
  destruct (HI 0%nat _ gtI 0 0 3%nat (-1) 0 eq_refl HgtI)
    as (v3 & Hv3 & H01 & H3); [simpl; lia | simpl; lia | reflexivity |].
  destruct (HC 0%nat _ _ gtC 0 0 1%nat 1 0 eq_refl eq_refl HgtC)
    as (c1 & Hc1 & _ & H1); [simpl; lia | simpl; lia | reflexivity |].
  change (Z.of_nat 4) with 4 in Hv4. change (Z.of_nat 3) with 3 in Hv3.
  change (Z.of_nat 1) with 1 in Hc1.
  split; [|split].
  - rewrite Hv4. f_equal. apply H4. split; [reflexivity|].
    exists 0. split; [lia|]. split; reflexivity.
  - rewrite Hv3. f_equal. destruct H01 as [E|E]; [exact E|].
    apply H3 in E as [E _]. discriminate.
  - rewrite Hc1. f_equal. apply H1. split; [reflexivity|].
    exists 0. split; [lia|]. split; reflexivity.
Defined.

(** C8.  With a single layer of shape [(1, 1)] the eight neighbours of
    the cell are out of bounds and skipped, but the list of cross-layer
    arrays is empty and [np.hstack] raises on it: no link ground truth is
    returned, whatever the label of the cell. *)
Theorem cal_link_gt_single_layer_raises (anchors : list anchor)
    (ratio : R) (shape : R * R) (seg_threshold link_threshold : Q)
    (label : Z) :
  cal_link_gt
    (Config [(1, 1)%nat] anchors ratio shape seg_threshold link_threshold)
    [label]
  = Raise ValueError.
Proof. destruct label; reflexivity. Qed.

End link_gt_claims.

Section encoder_claims.
Context `{Cv2}.
Local Open Scope Z_scope.

(** C10.  The labels [get_all_seglink_gt] returns are [1] where the match
    label is non-negative and [0] elsewhere: every polygon index is
    mapped to [1]. *)
Theorem get_all_seglink_gt_labels (cfg : config) (xs ys : list (list R))
    (normalize : bool) :
  shape_N4 xs ys = true ->
  (2 <= length (feat_shapes cfg))%nat ->
  length (default_anchors cfg) = num_anchors (feat_shapes cfg) ->
  exists match_labels targets labels seg_gt link_gt,
    match_anchor_to_text_boxes cfg (default_anchors cfg) xs ys
    = Ok (match_labels, targets) /\
    get_all_seglink_gt cfg xs ys normalize = Ok (labels, seg_gt, link_gt) /\
    length labels = length match_labels /\
    (forall v, v ∈ labels -> v = 0 \/ v = 1) /\
    (forall i l, match_labels !! i = Some l ->
       labels !! i = Some (if 0 <=? l then 1 else 0)).
Proof.
  intros Hshape Hlayers Hanchors.
  destruct (match_anchor_to_text_boxes_rows cfg (default_anchors cfg) xs ys
              Hshape)
    as (match_labels & targets & Hmatch & Hl & _).
  destruct (cal_link_gt_spec cfg match_labels Hlayers)
    as (link_gt & _ & _ & Hlink & _); [lia|].
  exists match_labels, targets, (labels_ge_0 match_labels),
    (if normalize then normalize_seg_gt cfg targets else targets), link_gt.
  split; [exact Hmatch|]. split; [|split; [|split]].
  - unfold get_all_seglink_gt. rewrite Hmatch, bind_Ok. cbv beta iota.
    rewrite Hlink, bind_Ok. reflexivity.
  - unfold labels_ge_0. apply length_map.
  - intros v Hv. unfold labels_ge_0 in Hv.
    apply list_elem_of_fmap in Hv as (l & -> & _).
    destruct (0 <=? l); auto.
  - intros i l Hi. unfold labels_ge_0.
    change (map ?f ?l) with (f <$> l).
    by rewrite list_lookup_fmap, Hi.
Qed.

End encoder_claims.

(** The encoder on the two boxes and the two anchors of [demo_cfg]: the
    returned labels are [0] or [1], though the first anchor matched
    box [1]. *)
Lemma get_all_seglink_gt_labels_demo :
  exists labels seg_gt link_gt,
    @get_all_seglink_gt box_cv2 demo_cfg demo_xs demo_ys true
    = Ok (labels, seg_gt, link_gt) /\
    forall v, v ∈ labels -> v = 0 \/ v = 1.
Proof.
  destruct (@get_all_seglink_gt_labels box_cv2 demo_cfg demo_xs demo_ys true)
    as (_ & _ & labels & seg_gt & link_gt & _ & Hrun & _ & H01 & _);
    [reflexivity | simpl; lia | reflexivity |].
  exists labels, seg_gt, link_gt. split; [exact Hrun | exact H01].
Defined.

(** ** Segment grouper: the forest of parents *)

Section forest_facts.
Local Open Scope Z_scope.
Implicit Types (m mask : gmap Z Z).

(** [path m i r n]: following the parents from [i] reaches the root [r]
    after [n] links. *)
Inductive path (m : gmap Z Z) : Z -> Z -> nat -> Prop :=
| path_root i : m !! i = Some (-1) -> path m i i 0
| path_step i p r n :
    m !! i = Some p -> p <> -1 -> path m p r n -> path m i r (S n).

(** Every key has a root, and [-1] is not a key. *)
Definition forest (m : gmap Z Z) : Prop :=
  m !! (-1) = None /\ forall i, is_Some (m !! i) -> exists r n, path m i r n.

Lemma path_is_Some m i r n : path m i r n -> is_Some (m !! i).
Proof. destruct 1; eauto. Qed.

Lemma path_root_parent m i r n : path m i r n -> m !! r = Some (-1).
Proof. induction 1; auto. Qed.

Lemma path_functional m i r n r' n' :
  path m i r n -> path m i r' n' -> r = r' /\ n = n'.
Proof.
  intros Hp. revert r' n'. induction Hp as [i Hi|i p r n Hi Hne Hp IH];
    intros r' n' Hp'; inversion Hp'; subst; try congruence; auto.
  assert (p0 = p) as -> by congruence.
  destruct (IH _ _ H1) as [-> ->]. auto.
Qed.

(** The keys on a path are distinct: a path has fewer links than the
    dictionary has keys. *)
Lemma path_nodes m i r n :
  path m i r n ->
  exists nodes : list Z,
    length nodes = S n /\ NoDup nodes /\
    forall x, x ∈ nodes -> exists k, (k <= n)%nat /\ path m x r k.
Proof.
  induction 1 as [i Hi|i p r n Hi Hne Hp (nodes & Hlen & Hnd & Hnodes)].
  - exists [i]. split; [reflexivity|]. split; [apply NoDup_singleton|].
    intros x ->%list_elem_of_singleton. exists 0%nat. split; [lia|].
    by constructor.
  - exists (i :: nodes). split; [simpl; lia|]. split.
    + constructor; [|assumption]. intros Hin.
      destruct (Hnodes i Hin) as (k & Hk & Hpk).
      destruct (path_functional m i r k r (S n) Hpk) as [_ Heq];
        [by econstructor | lia].
    + intros x [->|Hx]%elem_of_cons.
      * exists (S n). split; [lia|]. by econstructor.
      * destruct (Hnodes x Hx) as (k & Hk & Hpk). exists k. split; [lia|auto].
Qed.

Lemma path_length_lt_size m i r n : path m i r n -> (n < size m)%nat.
Proof.
  intros Hp. destruct (path_nodes m i r n Hp) as (nodes & Hlen & Hnd & Hnodes).
  assert (Hsub : (list_to_set nodes : gset Z) ⊆ dom m).
  { intros x Hx%elem_of_list_to_set. destruct (Hnodes x Hx) as (k & _ & Hpk).
    apply elem_of_dom. by eapply path_is_Some. }
  apply subseteq_size in Hsub.
  rewrite size_list_to_set, size_dom in Hsub by assumption. lia.
Qed.

Lemma dict_get_Ok {V : Type} (d : gmap Z V) (k : Z) (v : V) :
  d !! k = Some v -> dict_get d k = Ok v.
Proof. unfold dict_get. by intros ->. Qed.

Lemma get_root_loop_path m i p r n (fuel : nat) :
  path m i r n -> m !! i = Some p -> (n <= fuel)%nat ->
  get_root_loop fuel m i p = Ok r.
Proof.
  intros Hp. revert p fuel.
  induction Hp as [i Hi|i p' r n Hi Hne Hp IH]; intros p fuel Hip Hfuel.
  - assert (p = -1) as -> by congruence. by destruct fuel.
  - assert (p = p') as -> by congruence.
    destruct fuel as [|fuel]; [lia|]. simpl.
    destruct (Z.eqb_spec p' (-1)) as [?|_]; [contradiction|].
    destruct (path_is_Some m p' r n Hp) as [q Hq].
    rewrite (dict_get_Ok _ _ _ Hq), bind_Ok. apply IH; [assumption | lia].
Qed.

(** [get_root] returns the root: the loop ends within its fuel. *)
Lemma get_root_path m i r n : path m i r n -> get_root m i = Ok r.
Proof.
  intros Hp. unfold get_root.
  destruct (path_is_Some m i r n Hp) as [p Hip].
  rewrite (dict_get_Ok _ _ _ Hip), bind_Ok.
  apply (get_root_loop_path m i p r n); [assumption..|].
  apply path_length_lt_size in Hp. lia.
Qed.

Lemma path_insert_other m i r n r1 r2 :
  path m i r n -> r <> r1 -> m !! r1 = Some (-1) ->
  path (<[r1 := r2]> m) i r n.
Proof.
  intros Hp Hne Hr1. induction Hp as [i Hi|i p r n Hi Hp1 Hp IH].
  - constructor. by rewrite lookup_insert_ne.
  - econstructor; [|exact Hp1|by apply IH].
    rewrite lookup_insert_ne; [assumption|]. intros <-. congruence.
Qed.

Lemma path_insert_root m i r1 n r2 :
  path m i r1 n -> m !! r2 = Some (-1) -> r1 <> r2 -> r2 <> -1 ->
  path (<[r1 := r2]> m) i r2 (S n).
Proof.
  intros Hp Hr2 Hne Hr2'.
  pose proof (path_root_parent m i r1 n Hp) as Hr1.
  induction Hp as [i Hi|i p r n Hi Hp1 Hp IH].
  - econstructor; [by rewrite lookup_insert_eq | assumption |].
    constructor. by rewrite lookup_insert_ne.
  - econstructor; [|exact Hp1|by apply IH].
    rewrite lookup_insert_ne; [assumption|]. intros <-. congruence.
Qed.

(** [union] on two keys of a forest returns a forest over the same keys:
    the trees of the two keys are joined and no other tree changes. *)
Lemma union_forest m idx1 idx2 :
  forest m -> is_Some (m !! idx1) -> is_Some (m !! idx2) ->
  exists m' r1 r2 n1 n2,
    union m idx1 idx2 = Ok m' /\
    path m idx1 r1 n1 /\ path m idx2 r2 n2 /\
    m' = (if bool_decide (r1 = r2) then m else <[r1 := r2]> m) /\
    forest m' /\ dom m' = dom m.
Proof.
  intros [Hm1 Hforest] H1 H2.
  destruct (Hforest idx1 H1) as (r1 & n1 & Hp1).
  destruct (Hforest idx2 H2) as (r2 & n2 & Hp2).
  exists (if bool_decide (r1 = r2) then m else <[r1 := r2]> m), r1, r2, n1, n2.
  split; [|split; [assumption|split; [assumption|split; [reflexivity|]]]].
  - unfold union.
    rewrite (get_root_path m idx1 r1 n1 Hp1), bind_Ok.
    rewrite (get_root_path m idx2 r2 n2 Hp2), bind_Ok.
    destruct (Z.eqb_spec r1 r2) as [->|Hne]; simpl.
    + by rewrite bool_decide_eq_true_2.
    + by rewrite bool_decide_eq_false_2.
  - destruct (bool_decide_reflect (r1 = r2)) as [_|Hne];
      [by split; [split|]|].
    pose proof (path_root_parent m _ _ _ Hp1) as Hr1.
    pose proof (path_root_parent m _ _ _ Hp2) as Hr2.
    assert (Hr2' : r2 <> -1) by (intros ->; congruence).
    assert (Hr1' : r1 <> -1) by (intros ->; congruence).
    split; [split|].
    + by rewrite lookup_insert_ne.
    + intros i Hi.
      assert (Hi' : is_Some (m !! i)).
      { destruct (decide (i = r1)) as [->|?]; [eauto|].
        by rewrite lookup_insert_ne in Hi. }
      destruct (Hforest i Hi') as (r & n & Hp).
      destruct (decide (r = r1)) as [->|Hr].
      * exists r2, (S n). by apply path_insert_root.
      * exists r, n. by apply path_insert_other.
    + apply dom_insert_lookup_L. eauto.
Qed.

End forest_facts.

(** ** Segment grouper: listing the trees *)

Section to_list_facts.
Local Open Scope Z_scope.

Lemma concat_Permutation {A : Type} (l1 l2 : list (list A)) :
  l1 ≡ₚ l2 -> concat l1 ≡ₚ concat l2.
Proof.
  induction 1 as [|x l1 l2 _ IH|x y l|l1 l2 l3 _ IH1 _ IH2]; simpl.
  - reflexivity.
  - by rewrite IH.
  - rewrite !app_assoc. f_equiv. apply Permutation_app_comm.
  - by rewrite IH1.
Qed.

(** The members of all the groups of the dictionary [res]. *)
Definition members (res : gmap Z (list Z)) : list Z :=
  concat (map snd (map_to_list res)).

Lemma members_insert_None res r l :
  res !! r = None -> members (<[r := l]> res) ≡ₚ l ++ members res.
Proof.
  intros Hr. unfold members.
  change (map snd ?x) with (snd <$> x).
  rewrite (concat_Permutation _ (l :: (snd <$> map_to_list res)));
    [reflexivity|].
  by rewrite (map_to_list_insert res r l Hr).
Qed.

Lemma members_delete res r l :
  res !! r = Some l -> members res ≡ₚ l ++ members (delete r res).
Proof.
  intros Hr. unfold members.
  change (map snd ?x) with (snd <$> x).
  rewrite (concat_Permutation (snd <$> map_to_list res)
             (l :: (snd <$> map_to_list (delete r res)))); [reflexivity|].
  by rewrite <- (map_to_list_delete res r l Hr).
Qed.

Lemma members_insert_Some res r l l' :
  res !! r = Some l ->
  members (<[r := l']> res) ≡ₚ l' ++ members (delete r res).
Proof.
  intros Hr. rewrite <- insert_delete_eq.
  apply members_insert_None, lookup_delete_eq.
Qed.

(** The state of the loop of [to_list] after the keys [pre]. *)
Definition to_list_inv (mask : gmap Z Z) (pre : list Z)
    (res : gmap Z (list Z)) : Prop :=
  members res ≡ₚ pre /\
  (forall r l, res !! r = Some l ->
     l <> [] /\ forall x, x ∈ l -> exists n, path mask x r n) /\
  (forall x r n, x ∈ pre -> path mask x r n ->
     exists l, res !! r = Some l /\ x ∈ l).

Lemma to_list_step_inv mask pre res idx :
  forest mask -> is_Some (mask !! idx) -> to_list_inv mask pre res ->
  exists res', to_list_step mask res idx = Ok res' /\
               to_list_inv mask (pre ++ [idx]) res'.
Proof.
  intros [_ Hforest] Hidx (Hmem & Hgroups & Hfound).
  destruct (Hforest idx Hidx) as (r & n & Hp).
  unfold to_list_step. rewrite (get_root_path mask idx r n Hp), bind_Ok.
  destruct (res !! r) as [l|] eqn:Hr.
  - rewrite (dict_get_Ok _ _ _ Hr), bind_Ok.
    eexists. split; [reflexivity|]. split; [|split].
    + rewrite (members_insert_Some res r l _ Hr).
      rewrite (members_delete res r l Hr) in Hmem.
      rewrite <- Hmem, <- !app_assoc. f_equiv. apply Permutation_app_comm.
    + intros r' l' Hl'. destruct (decide (r' = r)) as [->|Hne].
      * rewrite lookup_insert_eq in Hl'. injection Hl' as <-.
        split; [by destruct l|].
        intros x [Hx|Hx%list_elem_of_singleton]%elem_of_app;
          [|subst x; eauto].
        by apply (Hgroups r l Hr).
      * rewrite lookup_insert_ne in Hl' by done. by apply Hgroups.
    + intros x r' n' [Hx|Hx%list_elem_of_singleton]%elem_of_app Hp';
        [|subst x].
      * destruct (Hfound x r' n' Hx Hp') as (l' & Hl' & Hxl').
        destruct (decide (r' = r)) as [->|Hne].
        -- exists (l ++ [idx]). rewrite lookup_insert_eq. split; [done|].
           assert (l' = l) as -> by congruence.
           apply elem_of_app. by left.
        -- exists l'. by rewrite lookup_insert_ne.
      * destruct (path_functional mask idx r n r' n' Hp Hp') as [<- _].
        exists (l ++ [idx]). rewrite lookup_insert_eq. split; [done|].
        apply elem_of_app. right. by left.
  - rewrite (dict_get_Ok _ r []) by apply lookup_insert_eq.
    rewrite bind_Ok, insert_insert_eq. simpl.
    eexists. split; [reflexivity|]. split; [|split].
    + rewrite (members_insert_None res r _ Hr), Hmem.
      apply Permutation_app_comm.
    + intros r' l' Hl'. destruct (decide (r' = r)) as [->|Hne].
      * rewrite lookup_insert_eq in Hl'. injection Hl' as <-.
        split; [done|]. intros x ->%list_elem_of_singleton. eauto.
      * rewrite lookup_insert_ne in Hl' by done. by apply Hgroups.
    + intros x r' n' [Hx|Hx%list_elem_of_singleton]%elem_of_app Hp';
        [|subst x].
      * destruct (Hfound x r' n' Hx Hp') as (l' & Hl' & Hxl').
        exists l'. rewrite lookup_insert_ne; [done|]. congruence.
      * destruct (path_functional mask idx r n r' n' Hp Hp') as [<- _].
        exists [idx]. rewrite lookup_insert_eq. split; [done|]. by left.
Qed.

(** [to_list] returns the trees of the forest: the groups together hold
    every key once, no group is empty, the members of a group share
    their root, and the keys of one root are in one group. *)
Lemma to_list_spec mask :
  forest mask ->
  exists groups res,
    to_list mask = Ok groups /\ groups = map snd (map_to_list res) /\
    to_list_inv mask (map fst (map_to_list mask)) res.
Proof.
  intros Hforest.
  destruct (foldM_prefix (to_list_inv mask) (to_list_step mask)
              (map fst (map_to_list mask)) ∅)
    as (res & Hrun & Hinv).
  - split; [|split].
    + unfold members. by rewrite map_to_list_empty.
    + intros r l Hl. by rewrite lookup_empty in Hl.
    + intros x r n Hx. by apply elem_of_nil in Hx.
  - intros pre idx post res Hsplit Hinv.
    apply to_list_step_inv; [assumption| |assumption].
    assert (Hin : idx ∈ map fst (map_to_list mask)).
    { rewrite Hsplit. apply elem_of_app. right. left. }
    change (map fst ?x) with (fst <$> x) in Hin.
    apply list_elem_of_fmap in Hin as ([k v] & -> & Hkv).
    apply elem_of_map_to_list in Hkv. simpl. eauto.
  - exists (map snd (map_to_list res)), res.
    unfold to_list. rewrite Hrun, bind_Ok. auto.
Qed.

End to_list_facts.

(** ** Segment grouper: the arrays it reads *)

Section reshape_lookup_facts.
Context {A : Type}.
Local Open Scope nat_scope.

Lemma cubes_from_length (v : list A) shapes (d : nat) : forall idx,
  length (cubes_from v shapes d idx) = length shapes.
Proof.
  induction shapes as [|[h w] shapes IH]; intros idx; simpl; [|rewrite IH];
    reflexivity.
Qed.

Lemma cubes_from_lookup (v : list A) shapes (d : nat) : forall idx l gt,
  idx + num_cells shapes d <= length v ->
  cubes_from v shapes d idx !! l = Some gt ->
  shapes !! l = Some (a3_h gt, a3_w gt) /\ a3_d gt = d /\ wf3 gt.
Proof.
  induction shapes as [|[h w] shapes IH]; intros idx l gt Hlen Hgt;
    [discriminate|].
  unfold num_cells in *. simpl in Hlen. destruct l as [|l]; simpl in *.
  - injection Hgt as <-. simpl. split; [reflexivity|]. split; [reflexivity|].
    unfold wf3. simpl. apply py_slice_length. lia.
  - apply (IH (idx + h * w * d) l gt); [lia | assumption].
Qed.

Lemma layers_from_elem (v : list A) shapes : forall idx l g x,
  layers_from v shapes idx !! l = Some g -> x ∈ a2_data g -> x ∈ v.
Proof.
  induction shapes as [|[h w] shapes IH]; intros idx l g x Hg Hx;
    [discriminate|].
  destruct l as [|l]; simpl in *.
  - injection Hg as <-. simpl in Hx. unfold py_slice in Hx.
    by apply subseteq_take, subseteq_drop in Hx.
  - by apply (IH (idx + h * w) l g x).
Qed.

Lemma get1_Ok (v : list A) (i : Z) :
  (0 <= i < Z.of_nat (length v))%Z -> exists s, get1 v i = Ok s.
Proof.
  intros Hi. unfold get1. rewrite (proj2 (in_range_true i _) Hi).
  destruct (lookup_lt_is_Some_2 v (Z.to_nat i)) as [s Hs]; [lia|].
  exists s. by apply py_get_Ok.
Qed.

Lemma get1_Ok_inv (v : list A) (i : Z) (s : A) :
  get1 v i = Ok s -> (0 <= i < Z.of_nat (length v))%Z.
Proof.
  unfold get1. destruct (in_range i (length v)) eqn:Hi; [|discriminate].
  intros _. by apply in_range_true.
Qed.

End reshape_lookup_facts.

(** ** Segment grouper: segments and links that qualify *)

(** The segment passes the segment-confidence threshold. *)
Definition valid_seg (cfg : config) (seg_scores : list Q) (a : Z) : Prop :=
  exists s, get1 seg_scores a = Ok s /\
            score_ge s (seg_confidence_threshold cfg) = true.

(** A qualifying link from segment [a] to segment [b]: [a] is the segment
    of a cell [(x, y)] of some layer, [b] the segment of its neighbour [k]
    (in the same layer, or in the previous layer), both pass the
    segment-confidence threshold, and the score of link slot [k] of the
    cell passes the link-confidence threshold.  [idxs], [inter] and
    [cross] are the index arrays and the link score arrays of the
    layers. *)
Definition linked (cfg : config) (seg_scores : list Q)
    (idxs : list (array2 Z)) (inter cross : list (array3 Q))
    (a b : Z) : Prop :=
  valid_seg cfg seg_scores a /\ valid_seg cfg seg_scores b /\
  exists (l : nat) (idx : array2 Z) (x y : Z) (k : nat) (nx ny : Z) (s : Q),
    idxs !! l = Some idx /\ get2 idx y x = Ok a /\
    score_ge s (link_confidence_threshold cfg) = true /\
    ((exists gt,
        get_inter_layer_neighbours x y !! k = Some (nx, ny) /\
        get2 idx ny nx = Ok b /\
        inter !! l = Some gt /\ get3 gt y x (Z.of_nat k) = Ok s) \/
     (exists prev gt,
        (0 < l)%nat /\ idxs !! (l - 1)%nat = Some prev /\
        get_cross_layer_neighbours x y !! k = Some (nx, ny) /\
        get2 prev ny nx = Ok b /\
        cross !! (l - 1)%nat = Some gt /\ get3 gt y x (Z.of_nat k) = Ok s)).

(** The segment is an end of some qualifying link. *)
Definition touched (cfg : config) (seg_scores : list Q)
    (idxs : list (array2 Z)) (inter cross : list (array3 Q)) (a : Z) : Prop :=
  exists b, linked cfg seg_scores idxs inter cross a b \/
            linked cfg seg_scores idxs inter cross b a.

(** The invariant of the loops of [group_segs]: the dictionary is a forest
    over the valid segments, and a parent link joins two ends of
    qualifying links. *)
Definition grouper_inv (cfg : config) (seg_scores : list Q)
    (idxs : list (array2 Z)) (inter cross : list (array3 Q))
    (mask : gmap Z Z) : Prop :=
  forest mask /\
  (forall k, is_Some (mask !! k) <-> valid_seg cfg seg_scores k) /\
  (forall i p, mask !! i = Some p -> p <> (-1)%Z ->
     touched cfg seg_scores idxs inter cross i /\
     touched cfg seg_scores idxs inter cross p).

(** ** Segment grouper: the loops *)

Section grouper_facts.
Local Open Scope Z_scope.
Context (cfg : config) (seg_scores : list Q).
Context (idxs : list (array2 Z)) (inter cross : list (array3 Q)).

Local Abbreviation Inv := (grouper_inv cfg seg_scores idxs inter cross).
Local Abbreviation Linked := (linked cfg seg_scores idxs inter cross).
Local Abbreviation Touched := (touched cfg seg_scores idxs inter cross).

(** The root of a key is the key or an end of a qualifying link. *)
Lemma path_touched (mask : gmap Z Z) i r n :
  (forall i p, mask !! i = Some p -> p <> -1 -> Touched i /\ Touched p) ->
  path mask i r n -> r = i \/ Touched r.
Proof.
  intros Hedges. induction 1 as [i Hi|i p r n Hi Hne Hp IH]; [by left|].
  right. destruct IH as [->|Hr]; [|assumption].
  by apply (Hedges i p).
Qed.

(** A union along a qualifying link keeps the invariant. *)
Lemma union_inv (mask : gmap Z Z) (a b : Z) :
  Inv mask -> Linked a b ->
  exists mask', union mask a b = Ok mask' /\ Inv mask'.
Proof.
  intros (Hforest & Hkeys & Hedges) Hlink.
  pose proof Hlink as (Ha & Hb & _).
  destruct (union_forest mask a b Hforest)
    as (mask' & r1 & r2 & n1 & n2 & Hrun & Hp1 & Hp2 & Hmask' & Hforest'
        & Hdom); [by apply Hkeys | by apply Hkeys |].
  exists mask'. split; [exact Hrun|]. split; [exact Hforest'|]. split.
  - intros k. rewrite <- Hkeys, <- !elem_of_dom, Hdom. reflexivity.
  - intros i p Hip Hp. subst mask'.
    destruct (bool_decide_reflect (r1 = r2)) as [_|Hne];
      [by apply Hedges|].
    destruct (decide (i = r1)) as [->|Hi].
    + rewrite lookup_insert_eq in Hip. injection Hip as <-. split.
      * destruct (path_touched mask a r1 n1 Hedges Hp1) as [->|?];
          [exists b; by left | assumption].
      * destruct (path_touched mask b r2 n2 Hedges Hp2) as [->|?];
          [exists a; by right | assumption].
    + rewrite lookup_insert_ne in Hip by done. by apply Hedges.
Qed.

(** The loop over the neighbours of a cell keeps an invariant that every
    union it may call keeps. *)
Lemma group_neighbours_inv (n_idx : array2 Z) (link_score : array3 Q)
    (a x y : Z) (nbs : list (Z * Z)) (I : gmap Z Z -> Prop) :
  wf2 n_idx ->
  (forall v, v ∈ a2_data n_idx -> 0 <= v < Z.of_nat (length seg_scores)) ->
  wf3 link_score ->
  0 <= y < Z.of_nat (a3_h link_score) ->
  0 <= x < Z.of_nat (a3_w link_score) ->
  length nbs = a3_d link_score ->
  (forall mask b (k : nat) nx ny s,
     I mask -> nbs !! k = Some (nx, ny) -> get2 n_idx ny nx = Ok b ->
     valid_seg cfg seg_scores b ->
     get3 link_score y x (Z.of_nat k) = Ok s ->
     score_ge s (link_confidence_threshold cfg) = true ->
     exists mask', union mask a b = Ok mask' /\ I mask') ->
  forall mask, I mask ->
  exists mask',
    group_neighbours cfg seg_scores n_idx (Z.of_nat (a2_w n_idx))
      (Z.of_nat (a2_h n_idx)) link_score a x y nbs mask = Ok mask' /\
    I mask'.
Proof.
  intros Hwf Hvals Hwf3 Hy Hx Hlen Hunion mask Hmask.
  unfold group_neighbours. apply foldM_invariant; [exact Hmask|].
  intros [k [nx ny]] m Hin Hm.
  apply list_elem_of_lookup in Hin as [i Hi].
  apply enumerate_lookup in Hi as [Hk Hnb]. simpl in Hk, Hnb. subst i.
  destruct (is_valid_cord nx ny _ _) eqn:Hvalid; [|eauto].
  apply is_valid_cord_true in Hvalid as [Hnx Hny].
  destruct (get2_Ok n_idx ny nx Hwf Hny Hnx) as (b & Hb & Hbdata).
  rewrite Hb, bind_Ok.
  destruct (get1_Ok seg_scores b) as [sb Hsb].
  { apply Hvals. by apply list_elem_of_lookup_2 in Hbdata. }
  rewrite Hsb, bind_Ok.
  destruct (score_ge sb (seg_confidence_threshold cfg)) eqn:Hpass; [|eauto].
  destruct (get3_Ok link_score y x (Z.of_nat k) Hwf3 Hy Hx) as (s & Hs & _).
  { apply lookup_lt_Some in Hnb. lia. }
  rewrite Hs, bind_Ok.
  destruct (score_ge s (link_confidence_threshold cfg)) eqn:Hlpass; [|eauto].
  apply (Hunion m b k nx ny s); try assumption. by exists sb.
Qed.

(** What the loops over the cells of layer [l] read. *)
Hypothesis idxs_ok : forall l g, idxs !! l = Some g ->
  feat_shapes cfg !! l = Some (a2_h g, a2_w g) /\ wf2 g /\
  forall v, v ∈ a2_data g -> 0 <= v < Z.of_nat (length seg_scores).
Hypothesis inter_ok : forall l gt, inter !! l = Some gt ->
  feat_shapes cfg !! l = Some (a3_h gt, a3_w gt) /\ a3_d gt = 8%nat /\ wf3 gt.
Hypothesis cross_ok : forall l gt, cross !! l = Some gt ->
  feat_shapes cfg !! S l = Some (a3_h gt, a3_w gt) /\ a3_d gt = 4%nat /\
  wf3 gt.

(** [previous] is what [group_layer] binds for layer [l]. *)
Definition previous_bound (l : nat)
    (previous : option (array2 Z * (nat * nat) * array3 Q)) : Prop :=
  match previous with
  | None => True
  | Some (prev, (plh, plw), gt) =>
    (0 < l)%nat /\ idxs !! (l - 1)%nat = Some prev /\
    plh = a2_h prev /\ plw = a2_w prev /\ cross !! (l - 1)%nat = Some gt
  end.

Lemma group_cell_inv (l : nat) (idx : array2 Z) (gtI : array3 Q)
    previous (mask : gmap Z Z) (y x : Z) :
  idxs !! l = Some idx -> inter !! l = Some gtI ->
  previous_bound l previous ->
  0 <= y < Z.of_nat (a2_h idx) -> 0 <= x < Z.of_nat (a2_w idx) ->
  Inv mask ->
  exists mask',
    group_cell cfg seg_scores idx (a2_h idx) (a2_w idx) gtI previous
      mask y x = Ok mask' /\ Inv mask'.
Proof.
  intros Hidx HgtI Hprev Hy Hx Hmask.
  destruct (idxs_ok l idx Hidx) as (Hshape & Hwf & Hvals).
  destruct (inter_ok l gtI HgtI) as (HshapeI & HdI & HwfI).
  assert (a3_h gtI = a2_h idx /\ a3_w gtI = a2_w idx) as [HhI HwI]
    by (split; congruence).
  destruct (get2_Ok idx y x Hwf Hy Hx) as (a & Ha & Hadata).
  unfold group_cell. rewrite Ha, bind_Ok.
  destruct (get1_Ok seg_scores a) as [sa Hsa].
  { apply Hvals. by apply list_elem_of_lookup_2 in Hadata. }
  rewrite Hsa, bind_Ok.
  destruct (score_ge sa (seg_confidence_threshold cfg)) eqn:Hpass; [|eauto].
  assert (Hva : valid_seg cfg seg_scores a) by by exists sa.
  (* inter layer *)
  assert (Hinter : exists mask1,
            group_neighbours cfg seg_scores idx (Z.of_nat (a2_w idx))
              (Z.of_nat (a2_h idx)) gtI a x y
              (get_inter_layer_neighbours x y) mask = Ok mask1 /\
            Inv mask1).
  { apply (group_neighbours_inv idx gtI a x y _ Inv);
      try assumption; [lia | lia | by rewrite HdI |].
    intros m b k nx ny s Hm Hnb Hb Hvb Hs Hls. apply union_inv; [exact Hm|].
    split; [exact Hva|]. split; [exact Hvb|].
    exists l, idx, x, y, k, nx, ny, s. repeat (split; [assumption|]).
    left. exists gtI. auto. }
  destruct Hinter as (mask1 & Hrun1 & Hmask1). rewrite Hrun1, bind_Ok.
  (* cross layer *)
  destruct previous as [[[prev [plh plw]] gtC]|]; [|eauto].
  destruct Hprev as (Hl & Hprev & -> & -> & HgtC).
  destruct (idxs_ok _ prev Hprev) as (_ & Hwfp & Hvalsp).
  destruct (cross_ok _ gtC HgtC) as (HshapeC & HdC & HwfC).
  replace (S (l - 1)) with l in HshapeC by lia.
  assert (a3_h gtC = a2_h idx /\ a3_w gtC = a2_w idx) as [HhC HwC]
    by (split; congruence).
  apply (group_neighbours_inv prev gtC a x y
           (get_cross_layer_neighbours x y) Inv);
    try assumption; [lia | lia | by rewrite HdC |].
  intros m b k nx ny s Hm Hnb Hb Hvb Hs Hls. apply union_inv; [exact Hm|].
  split; [exact Hva|]. split; [exact Hvb|].
  exists l, idx, x, y, k, nx, ny, s. repeat (split; [assumption|]).
  right. exists prev, gtC. repeat (split; [assumption|]). assumption.
Qed.

Hypothesis idxs_length : length idxs = length (feat_shapes cfg).
Hypothesis inter_length : length inter = length (feat_shapes cfg).
Hypothesis cross_length : length cross = (length (feat_shapes cfg) - 1)%nat.

Lemma group_layer_inv (mask : gmap Z Z) (layer : nat * (nat * nat)) :
  layer ∈ enumerate (feat_shapes cfg) -> Inv mask ->
  exists mask',
    group_layer cfg seg_scores idxs inter cross mask layer = Ok mask' /\
    Inv mask'.
Proof.
  intros Hin Hmask. destruct layer as [l [lh lw]].
  apply list_elem_of_lookup in Hin as [i Hi].
  apply enumerate_lookup in Hi as [Hl Hshape]. simpl in Hl, Hshape. subst i.
  pose proof (lookup_lt_Some _ _ _ Hshape) as Hllt.
  destruct (lookup_lt_is_Some_2 idxs l) as [idx Hidx]; [lia|].
  destruct (lookup_lt_is_Some_2 inter l) as [gtI HgtI]; [lia|].
  destruct (idxs_ok l idx Hidx) as (Hshape' & _).
  assert (lh = a2_h idx /\ lw = a2_w idx) as [-> ->] by (split; congruence).
  unfold group_layer.
  rewrite (py_get_Ok _ _ _ _ Hidx), bind_Ok.
  rewrite (py_get_Ok _ _ _ _ HgtI), bind_Ok.
  assert (Hprev : exists previous,
            (if (0 <? l)%nat then
               previous_layer_seg_index ←
                 py_get KeyError idxs (l - 1);
               previous_layer_shape ←
                 py_get KeyError (feat_shapes cfg) (l - 1);
               layer_cross_link_score ←
                 py_get KeyError cross (l - 1);
               Ok (Some (previous_layer_seg_index, previous_layer_shape,
                         layer_cross_link_score))
             else Ok None) = Ok previous /\ previous_bound l previous).
  { destruct (Nat.ltb_spec 0 l) as [Hl|Hl].
    - destruct (lookup_lt_is_Some_2 idxs (l - 1)) as [prev Hp]; [lia|].
      destruct (lookup_lt_is_Some_2 cross (l - 1)) as [gtC HgtC]; [lia|].
      destruct (idxs_ok _ prev Hp) as (Hps & _).
      rewrite (py_get_Ok _ _ _ _ Hp), bind_Ok.
      rewrite (py_get_Ok _ _ _ _ Hps), bind_Ok.
      rewrite (py_get_Ok _ _ _ _ HgtC), bind_Ok.
      eexists. split; [reflexivity|]. simpl. auto.
    - exists None. split; [reflexivity | exact I]. }
  destruct Hprev as (previous & -> & Hprev). rewrite bind_Ok.
  apply foldM_invariant; [exact Hmask|].
  intros y m Hy%elem_of_seqZ Hm.
  apply foldM_invariant; [exact Hm|].
  intros x m' Hx%elem_of_seqZ Hm'.
  apply (group_cell_inv l); try assumption; lia.
Qed.

Lemma group_layers_inv (mask : gmap Z Z) :
  Inv mask ->
  exists mask',
    foldM (group_layer cfg seg_scores idxs inter cross)
          (enumerate (feat_shapes cfg)) mask = Ok mask' /\ Inv mask'.
Proof.
  intros Hmask. apply foldM_invariant; [exact Hmask|].
  intros layer m Hin Hm. by apply group_layer_inv.
Qed.

End grouper_facts.

(** ** Segment grouper: the groups *)

Section grouper_result_facts.
Local Open Scope Z_scope.

Lemma get1_lookup {A : Type} (v : list A) (i : Z) (s : A) :
  get1 v i = Ok s <->
  0 <= i < Z.of_nat (length v) /\ v !! Z.to_nat i = Some s.
Proof.
  unfold get1. split.
  - destruct (in_range i (length v)) eqn:Hi; [|discriminate].
    intros Hs%py_get_Ok_inv. by apply in_range_true in Hi.
  - intros [Hi Hs]. rewrite (proj2 (in_range_true i _) Hi).
    by apply py_get_Ok.
Qed.

Lemma valid_segs_elem (cfg : config) (seg_scores : list Q) (k : Z) :
  k ∈ valid_segs cfg seg_scores <-> valid_seg cfg seg_scores k.
Proof.
  unfold valid_segs, valid_seg.
  rewrite list_elem_of_In, in_map_iff. split.
  - intros ([i s] & <- & Hin). apply filter_In in Hin as [Hin Hpass].
    apply list_elem_of_In, list_elem_of_lookup in Hin as [j Hj].
    apply enumerate_lookup in Hj as [<- Hs]. simpl in *.
    exists s. split; [|exact Hpass]. apply get1_lookup.
    rewrite Nat2Z.id. split; [|exact Hs].
    apply lookup_lt_Some in Hs. lia.
  - intros (s & [Hk Hs]%get1_lookup & Hpass).
    exists (Z.to_nat k, s). simpl. split; [lia|].
    apply filter_In. split; [|exact Hpass].
    apply list_elem_of_In, list_elem_of_lookup. exists (Z.to_nat k).
    by apply enumerate_lookup.
Qed.

Lemma initial_mask_lookup (vs : list Z) : forall (mask : gmap Z Z) (k : Z),
  foldl (fun mask s => <[s := -1]> mask) mask vs !! k
  = if bool_decide (k ∈ vs) then Some (-1) else mask !! k.
Proof.
  induction vs as [|s vs IH]; intros mask k; simpl.
  - reflexivity.
  - rewrite IH. destruct (bool_decide_reflect (k ∈ vs)) as [Hin|Hnin].
    + by rewrite bool_decide_eq_true_2 by by right.
    + destruct (decide (k = s)) as [->|Hne].
      * rewrite lookup_insert_eq.
        by rewrite bool_decide_eq_true_2 by by left.
      * rewrite lookup_insert_ne by done.
        rewrite bool_decide_eq_false_2; [reflexivity|].
        intros [?|?]%elem_of_cons; contradiction.
Qed.

(** Before the loops every valid segment is a root of its own. *)
Lemma initial_mask_inv cfg seg_scores idxs inter cross :
  grouper_inv cfg seg_scores idxs inter cross
    (foldl (fun mask s => <[s := -1]> mask) ∅ (valid_segs cfg seg_scores)).
Proof.
  set (mask := foldl _ _ _).
  assert (Hlk : forall k, mask !! k
            = if bool_decide (k ∈ valid_segs cfg seg_scores)
              then Some (-1) else None).
  { intros k. unfold mask. by rewrite initial_mask_lookup, lookup_empty. }
  split; [split|split].
  - rewrite Hlk, bool_decide_eq_false_2; [reflexivity|].
    intros (s & Hs & _)%valid_segs_elem. apply get1_Ok_inv in Hs. lia.
  - intros i [p Hp]. exists i, 0%nat. constructor.
    rewrite Hlk in Hp |- *. by destruct (bool_decide _).
  - intros k. rewrite <- valid_segs_elem, Hlk.
    destruct (bool_decide_reflect (k ∈ valid_segs cfg seg_scores));
      split; intros; try done; by apply is_Some_None in H.
  - intros i p Hp Hne. rewrite Hlk in Hp.
    destruct (bool_decide _); congruence.
Qed.

Lemma NoDup_concat_elem {A : Type} (ls : list (list A)) (l : list A) :
  NoDup (concat ls) -> l ∈ ls -> NoDup l.
Proof.
  induction ls as [|l' ls IH]; simpl; intros Hnd Hin;
    [by apply elem_of_nil in Hin|].
  apply NoDup_app in Hnd as (Hl' & _ & Hls).
  apply elem_of_cons in Hin as [->|Hin]; auto.
Qed.

(** A member of two groups: the two groups are one. *)
Lemma NoDup_concat_lookup {A : Type} (ls : list (list A)) :
  NoDup (concat ls) -> forall i j l1 l2 a,
  ls !! i = Some l1 -> ls !! j = Some l2 -> a ∈ l1 -> a ∈ l2 -> i = j.
Proof.
  induction ls as [|l ls IH]; simpl; intros Hnd i j l1 l2 a Hi Hj H1 H2;
    [discriminate|].
  apply NoDup_app in Hnd as (_ & Hdisj & Hls).
  assert (Hsub : forall k l', ls !! k = Some l' -> a ∈ l' -> a ∈ concat ls).
  { intros k l' Hk Ha. apply list_elem_of_In, in_concat. exists l'.
    split; apply list_elem_of_In; [by eapply list_elem_of_lookup_2 | done]. }
  destruct i as [|i], j as [|j]; simpl in *.
  - reflexivity.
  - injection Hi as <-. exfalso. apply (Hdisj a H1). by apply (Hsub j l2).
  - injection Hj as <-. exfalso. apply (Hdisj a H2). by apply (Hsub i l1).
  - f_equal. by apply (IH Hls i j l1 l2 a).
Qed.

End grouper_result_facts.

Section grouper_claims.
Local Open Scope Z_scope.

(** C6.  The groups of [group_segs] are a partition of the segments whose
    score passes the segment-confidence threshold: the groups together
    hold no index twice, an index is in a group exactly when its segment
    passes the threshold, no group is empty, an index is in one group
    only, and a passing segment that is an end of no qualifying link is
    a group of its own. *)
Theorem group_segs_partition (cfg : config) (seg_scores link_scores : list Q) :
  length seg_scores = num_anchors (feat_shapes cfg) ->
  length link_scores = num_links (feat_shapes cfg) ->
  exists groups idxs inter cross,
    group_segs cfg seg_scores link_scores = Ok groups /\
    reshape_labels_by_layer (feat_shapes cfg)
      (seqZ 0 (Z.of_nat (length seg_scores))) = Ok idxs /\
    reshape_link_gt_by_layer (feat_shapes cfg) link_scores
    = Ok (inter, cross) /\
    NoDup (concat groups) /\
    (forall a, a ∈ concat groups <-> valid_seg cfg seg_scores a) /\
    (forall g, g ∈ groups -> g <> []) /\
    (forall i j g1 g2 a,
       groups !! i = Some g1 -> groups !! j = Some g2 ->
       a ∈ g1 -> a ∈ g2 -> i = j) /\
    (forall a, valid_seg cfg seg_scores a ->
       (forall b, ~ linked cfg seg_scores idxs inter cross a b /\
                  ~ linked cfg seg_scores idxs inter cross b a) ->
       [a] ∈ groups).
Proof.
  intros Hseg Hlink. set (shapes := feat_shapes cfg) in *.
  set (seg_indexes := seqZ 0 (Z.of_nat (length seg_scores))).
  set (idxs := layers_from seg_indexes shapes 0).
  set (inter := cubes_from link_scores shapes 8 0).
  set (cross := cubes_from link_scores (drop 1 shapes) 4 (num_cells shapes 8)).
  assert (Hidx_len : length seg_indexes = num_anchors shapes).
  { unfold seg_indexes. rewrite length_seqZ. lia. }
  assert (Hre1 : reshape_labels_by_layer shapes seg_indexes = Ok idxs)
    by by apply reshape_labels_by_layer_Ok.
  assert (Hre2 : reshape_link_gt_by_layer shapes link_scores
                 = Ok (inter, cross))
    by by apply reshape_link_gt_by_layer_Ok.
  unfold num_links in Hlink. fold shapes in Hlink.
  (* the arrays the loops read *)
  assert (Hidxs : forall l g, idxs !! l = Some g ->
            shapes !! l = Some (a2_h g, a2_w g) /\ wf2 g /\
            forall v, v ∈ a2_data g -> 0 <= v < Z.of_nat (length seg_scores)).
  { intros l g Hg.
    destruct (layers_from_lookup seg_indexes shapes 0%nat l g)
      as (H1 & H2 & _); [lia | exact Hg |].
    split; [exact H1|]. split; [exact H2|].
    intros v Hv. apply (layers_from_elem _ _ _ _ _ _ Hg) in Hv.
    apply elem_of_seqZ in Hv. lia. }
  assert (Hinter : forall l gt, inter !! l = Some gt ->
            shapes !! l = Some (a3_h gt, a3_w gt) /\ a3_d gt = 8%nat /\
            wf3 gt).
  { intros l gt Hgt.
    apply (cubes_from_lookup link_scores shapes 8 0%nat l gt); [lia|exact Hgt]. }
  assert (Hcross : forall l gt, cross !! l = Some gt ->
            shapes !! S l = Some (a3_h gt, a3_w gt) /\ a3_d gt = 4%nat /\
            wf3 gt).
  { intros l gt Hgt.
    destruct (cubes_from_lookup link_scores (drop 1 shapes) 4
                (num_cells shapes 8) l gt) as (H1 & H2 & H3);
      [lia | exact Hgt |].
    rewrite lookup_drop in H1. auto. }
  (* the loops *)
  assert (Hloop : exists mask,
            foldM (group_layer cfg seg_scores idxs inter cross)
                  (enumerate shapes)
                  (foldl (fun (mask : gmap Z Z) s => <[s := -1]> mask) ∅
                         (valid_segs cfg seg_scores)) = Ok mask /\
            grouper_inv cfg seg_scores idxs inter cross mask).
  { apply group_layers_inv; try assumption.
    - unfold idxs. apply layers_from_length.
    - unfold inter. apply cubes_from_length.
    - unfold cross. rewrite cubes_from_length, length_drop. reflexivity.
    - apply initial_mask_inv. }
  destruct Hloop as (mask & Hloops & Hforest & Hkeys & Hedges).
  (* the listing *)
  destruct (to_list_spec mask Hforest)
    as (groups & res & Hlist & Hgroups & Hmem & Hres & Hfound).
  assert (Hperm : concat groups ≡ₚ map fst (map_to_list mask))
    by (subst groups; exact Hmem).
  assert (Hkey : forall a, a ∈ map fst (map_to_list mask)
                           <-> is_Some (mask !! a)).
  { intros a. change (map fst ?x) with (fst <$> x).
    rewrite list_elem_of_fmap. split.
    - intros ([k v] & -> & Hkv%elem_of_map_to_list). simpl. eauto.
    - intros [v Hv]. exists (a, v). split; [reflexivity|].
      by apply elem_of_map_to_list. }
  assert (Hnd : NoDup (concat groups)).
  { rewrite Hperm. change (map fst ?x) with (fst <$> x).
    apply NoDup_fst_map_to_list. }
  assert (Hgroup : forall g, g ∈ groups -> exists r, res !! r = Some g).
  { intros g Hg. subst groups. change (map snd ?x) with (snd <$> x) in Hg.
    apply list_elem_of_fmap in Hg as ([r g'] & -> & Hrg%elem_of_map_to_list).
    eauto. }
  exists groups, idxs, inter, cross.
  split; [|split; [exact Hre1|split; [exact Hre2|split; [exact Hnd|]]]].
  { unfold group_segs. fold shapes seg_indexes.
    rewrite Hre1, bind_Ok, Hre2, bind_Ok. cbv beta iota.
    rewrite Hloops, bind_Ok. exact Hlist. }
  split; [|split; [|split]].
  - intros a. rewrite Hperm, Hkey. apply Hkeys.
  - intros g Hg. destruct (Hgroup g Hg) as [r Hr]. by apply (Hres r g).
  - by apply NoDup_concat_lookup.
  - intros a Ha Hfree.
    assert (Hnot : ~ touched cfg seg_scores idxs inter cross a).
    { intros [b [Hb|Hb]]; destruct (Hfree b) as [H1 H2]; auto. }
    apply Hkeys in Ha as [p Hp].
    assert (Hroot : path mask a a 0).
    { constructor. destruct (decide (p = -1)) as [->|Hne]; [exact Hp|].
      exfalso. by apply Hnot, (Hedges a p). }
    destruct (Hfound a a 0%nat) as (l & Hl & Hal); [|exact Hroot|].
    { apply Hkey. eauto. }
    assert (Hlg : l ∈ groups).
    { subst groups. change (map snd ?x) with (snd <$> x).
      apply list_elem_of_fmap. exists (a, l). split; [reflexivity|].
      by apply elem_of_map_to_list. }
    assert (Hall : forall x, x ∈ l -> x = a).
    { intros x Hx. destruct (Hres a l Hl) as [_ Hpaths].
      destruct (Hpaths x Hx) as [n Hpx].
      destruct (path_touched cfg seg_scores idxs inter cross mask x a n
                  Hedges Hpx) as [?|?]; [done | contradiction]. }
    pose proof (NoDup_concat_elem groups l Hnd Hlg) as Hndl.
    destruct l as [|x [|y l]].
    + by apply elem_of_nil in Hal.
    + rewrite (Hall x) in Hlg by by left. exact Hlg.
    + exfalso. apply NoDup_cons in Hndl as [Hx _]. apply Hx.
      rewrite (Hall x) by by left.
      rewrite (Hall y) by (right; by left). by left.
Qed.

(** Two segments above the threshold and no link score above it, on the
    two layers of [demo_cfg]. *)
Lemma group_segs_partition_demo :
  exists groups,
    group_segs demo_cfg [9 # 10; 9 # 10]%Q (replicate 20 (1 # 10)%Q)
    = Ok groups /\
    NoDup (concat groups) /\ forall g, g ∈ groups -> g <> [].
Proof.
  destruct (group_segs_partition demo_cfg [9 # 10; 9 # 10]%Q
              (replicate 20 (1 # 10)%Q) eq_refl eq_refl)
    as (groups & _ & _ & _ & Hrun & _ & _ & Hnd & _ & Hne & _).
  exists groups. auto.
Defined.

End grouper_claims.

(** ** Two consequences *)

Section consequences.
Local Open Scope Z_scope.

(** In a configuration of two layers or more, the eight neighbours of the
    cell of a layer of shape [(1, 1)] are out of bounds: its eight
    inter-layer slots are [0], whatever its label. *)
Theorem one_cell_layer_links_zero (cfg : config) (labels : list Z) :
  (2 <= length (feat_shapes cfg))%nat ->
  length labels = num_anchors (feat_shapes cfg) ->
  exists link_gt inter cross,
    cal_link_gt cfg labels = Ok link_gt /\
    reshape_link_gt_by_layer (feat_shapes cfg) link_gt = Ok (inter, cross) /\
    forall l gt k,
      feat_shapes cfg !! l = Some (1, 1)%nat -> inter !! l = Some gt ->
      (k < 8)%nat -> get3 gt 0 0 (Z.of_nat k) = Ok 0.
Proof.
  intros Hlayers Hlen.
  destruct (cal_link_gt_spec cfg labels Hlayers Hlen)
    as (link_gt & inters & crosses & Hrun & _ & Hre & _ & _ & HI & _).
  exists link_gt, inters, crosses. split; [exact Hrun|]. split; [exact Hre|].
  intros l gt k Hshape Hgt Hk.
  destruct (HI l gt Hgt) as (lab & Hlab & _ & _ & _ & _ & Hget).
  destruct (layers_from_lookup labels (feat_shapes cfg) 0%nat l lab)
    as (Hshape' & _); [lia | exact Hlab |].
  assert (a2_h lab = 1%nat /\ a2_w lab = 1%nat) as [Hh Hw]
    by (split; congruence).
  rewrite Hget by lia. f_equal.
  destruct (slot_value_01 lab lab (get_inter_layer_neighbours 0 0) 0 0 k)
    as [E|E]; [exact E | exfalso].
  destruct (lookup_lt_is_Some_2 (get_inter_layer_neighbours 0 0) k)
    as [[nx ny] Hnb]; [simpl; lia|].
  pose proof (proj1 (slot_value_1 lab lab _ 0 0 k nx ny Hnb) E)
    as [Hvalid _].
  rewrite Hh, Hw in Hvalid.
  do 8 (destruct k as [|k];
        [injection Hnb as Hnx Hny; rewrite <- Hnx, <- Hny in Hvalid;
         vm_compute in Hvalid; discriminate|]).
  simpl in Hk. lia.
Qed.

Lemma one_cell_layer_links_zero_demo :
  exists link_gt inter cross,
    cal_link_gt demo_cfg [7; 7] = Ok link_gt /\
    reshape_link_gt_by_layer (feat_shapes demo_cfg) link_gt
    = Ok (inter, cross) /\
    forall l gt k,
      feat_shapes demo_cfg !! l = Some (1, 1)%nat -> inter !! l = Some gt ->
      (k < 8)%nat -> get3 gt 0 0 (Z.of_nat k) = Ok 0.
Proof.
  apply (one_cell_layer_links_zero demo_cfg [7; 7]);
    [simpl; lia | reflexivity].
Defined.

(** The decoder on one segment above the threshold and no link above it:
    the grouper returns the group [[0]] and the synthesizer raises on
    it. *)
Theorem seglink_to_bbox_isolated_segment_raises (seg0 seg1 : rect) :
  group_segs demo_cfg [9 # 10; 1 # 10]%Q (replicate 20 (1 # 10)%Q)
  = Ok [[0]] /\
  seglink_to_bbox demo_cfg [9 # 10; 1 # 10]%Q (replicate 20 (1 # 10)%Q)
    [seg0; seg1]
  = Raise AssertionError.
Proof.
  assert (Hgroups :
            group_segs demo_cfg [9 # 10; 1 # 10]%Q (replicate 20 (1 # 10)%Q)
            = Ok [[0]]) by (vm_compute; reflexivity).
  split; [exact Hgroups|].
  unfold seglink_to_bbox. rewrite Hgroups, bind_Ok.
  rewrite foldM_cons.
  change (foldM (fun g idx => s ← get1 [seg0; seg1] idx; Ok (g ++ [s]))
                [0] []) with (Ok [seg0] : result (list rect)).
  rewrite bind_Ok. by rewrite combine_segs_scan.
Qed.

End consequences.

(** * Further properties *)

(** ** Geometry primitives *)

Section geometry_more.
Local Open Scope R_scope.

(** The canonical form of an oriented rectangle. *)
Definition canonical (r : rect) : Prop :=
  Rabs (r_theta r) <= 45 /\ (Rabs (r_theta r) = 45 -> r_h r <= r_w r).

(** On an angle of [-90, 0], [transform_cv_rect] gives the canonical
    form, keeps the center, keeps the two sides or exchanges them, and
    changes nothing when applied again. *)
Theorem transform_cv_rect_row_canonical (r : rect) :
  -90 <= r_theta r <= 0 ->
  let r' := transform_cv_rect_row r in
  canonical r' /\
  r_cx r' = r_cx r /\ r_cy r' = r_cy r /\
  ((r_w r' = r_w r /\ r_h r' = r_h r /\ r_theta r' = r_theta r) \/
   (r_w r' = r_h r /\ r_h r' = r_w r /\ r_theta r' = 90 + r_theta r)) /\
  transform_cv_rect_row r' = r'.
Proof.
  destruct r as [cx cy w h theta]. simpl. intros Hth.
  assert (Habs : Rabs theta = - theta)
    by (unfold Rabs; destruct (Rcase_abs theta); lra).
  assert (Hstable : forall cx cy w h t,
            Rabs t <= 45 -> (Rabs t = 45 -> h <= w) ->
            transform_cv_rect_row (Rect cx cy w h t) = Rect cx cy w h t).
  { intros cx0 cy0 w0 h0 t Ht Htie. unfold transform_cv_rect_row.
    replace (Rgtb (Rabs t) 45) with false
      by (symmetry; unfold Rgtb; destruct (Rgt_dec (Rabs t) 45); [lra|done]).
    destruct (Reqb (Rabs t) 45) eqn:Heq; simpl; [|reflexivity].
    apply Reqb_true in Heq.
    replace (Rltb w0 h0) with false; [reflexivity|].
    symmetry. unfold Rltb. destruct (Rlt_dec w0 h0); [|done].
    specialize (Htie Heq). lra. }
  unfold canonical.
  destruct (Rgtb (Rabs theta) 45) eqn:Hgt; simpl.
  - apply Rgtb_true in Hgt.
    assert (Habs' : Rabs (90 + theta) = 90 + theta)
      by (unfold Rabs; destruct (Rcase_abs (90 + theta)); lra).
    split; [rewrite Habs'; split; [lra|intros; lra]|].
    split; [reflexivity|]. split; [reflexivity|]. split; [right; auto|].
    apply Hstable; rewrite Habs'; [lra|intros; lra].
  - assert (Hle : Rabs theta <= 45).
    { destruct (Rle_dec (Rabs theta) 45) as [Hle|Hn]; [exact Hle|].
      apply Rnot_le_gt, Rgtb_true in Hn. congruence. }
    destruct (Reqb (Rabs theta) 45 && Rltb w h) eqn:Htie; simpl.
    + apply andb_true_iff in Htie as [Heq Hlt].
      apply Reqb_true in Heq. apply Rltb_true in Hlt.
      assert (Habs' : Rabs (90 + theta) = 90 + theta)
        by (unfold Rabs; destruct (Rcase_abs (90 + theta)); lra).
      split; [rewrite Habs'; split; [lra|intros; lra]|].
      split; [reflexivity|]. split; [reflexivity|]. split; [right; auto|].
      apply Hstable; rewrite Habs'; [lra|intros; lra].
    + assert (Hwh : Rabs theta = 45 -> h <= w).
      { intros Heq. apply Reqb_true in Heq. rewrite Heq in Htie. simpl in Htie.
        destruct (Rle_dec h w) as [?|Hn]; [assumption|].
        apply Rnot_le_lt, Rltb_true in Hn. congruence. }
      split; [split; assumption|].
      split; [reflexivity|]. split; [reflexivity|]. split; [left; auto|].
      by apply Hstable.
Qed.

Lemma transform_cv_rect_row_canonical_demo :
  canonical (transform_cv_rect_row (Rect 0 0 3 8 (-45))) /\
  transform_cv_rect_row (transform_cv_rect_row (Rect 0 0 3 8 (-45)))
  = transform_cv_rect_row (Rect 0 0 3 8 (-45)).
Proof.
  destruct (transform_cv_rect_row_canonical (Rect 0 0 3 8 (-45)))
    as (Hcan & _ & _ & _ & Hidem); [simpl; lra|].
  split; [exact Hcan | exact Hidem].
Defined.

(** The rotation matrix of [-angle] undoes that of [angle]. *)
Lemma rotation_round_trip (center : R * R) (angle x y : R) :
  let '(x1, y1) := dot23 (getRotationMatrix2D center angle 1) x y in
  dot23 (getRotationMatrix2D center (- angle) 1) x1 y1 = (x, y).
Proof.
  destruct center as [ccx ccy]. unfold getRotationMatrix2D, dot23.
  replace (- angle * PI / 180) with (- (angle * PI / 180)) by lra.
  rewrite cos_neg, sin_neg.
  set (a := cos (angle * PI / 180)). set (b := sin (angle * PI / 180)).
  assert (H1 : a * a + b * b = 1).
  { pose proof (sin2_cos2 (angle * PI / 180)) as H.
    unfold Rsqr in H. fold a b in H. lra. }
  f_equal.
  - replace (1 * a * (1 * a * x + 1 * b * y + ((1 - 1 * a) * ccx - 1 * b * ccy) * 1)
             + 1 * - b * (- (1 * b) * x + 1 * a * y
                          + (1 * b * ccx + (1 - 1 * a) * ccy) * 1)
             + ((1 - 1 * a) * ccx - 1 * - b * ccy) * 1)
      with (ccx + (a * a + b * b) * (x - ccx)) by ring.
    rewrite H1. ring.
  - replace (- (1 * - b) * (1 * a * x + 1 * b * y
                            + ((1 - 1 * a) * ccx - 1 * b * ccy) * 1)
             + 1 * a * (- (1 * b) * x + 1 * a * y
                        + (1 * b * ccx + (1 - 1 * a) * ccy) * 1)
             + (1 * - b * ccx + (1 - 1 * a) * ccy) * 1)
      with (ccy + (a * a + b * b) * (y - ccy)) by ring.
    rewrite H1. ring.
Qed.

(** Each of the two rotations undoes the other. *)
Lemma rotations_inverse (center : R * R) (bbox : rect) :
  rotate_horizontal_bbox_to_oriented center
    (rotate_oriented_bbox_to_horizontal center bbox) = bbox /\
  rotate_oriented_bbox_to_horizontal center
    (rotate_horizontal_bbox_to_oriented center bbox) = bbox.
Proof.
  destruct bbox as [cx cy w h theta]. split.
  - pose proof (rotation_round_trip center theta cx cy) as H.
    unfold rotate_oriented_bbox_to_horizontal.
    destruct (dot23 (getRotationMatrix2D center theta 1) cx cy) as [x1 y1].
    unfold rotate_horizontal_bbox_to_oriented. by rewrite H.
  - pose proof (rotation_round_trip center (- theta) cx cy) as H.
    unfold rotate_horizontal_bbox_to_oriented.
    destruct (dot23 (getRotationMatrix2D center (- theta) 1) cx cy)
      as [x1 y1].
    unfold rotate_oriented_bbox_to_horizontal.
    rewrite Ropp_involutive in H. by rewrite H.
Qed.

(** Step 4 undoes step 2, and step 2 undoes step 4: rotating a rectangle
    to the horizontal about a center and back to its orientation about
    the same center gives the rectangle back. *)
Theorem rotate_round_trip (center : R * R) (bbox : rect) :
  rotate_horizontal_bbox_to_oriented center
    (rotate_oriented_bbox_to_horizontal center bbox) = bbox /\
  rotate_oriented_bbox_to_horizontal center
    (rotate_horizontal_bbox_to_oriented center bbox) = bbox.
Proof. exact (rotations_inverse center bbox). Qed.

(** A rotation about the center of the rectangle leaves it in place. *)
Lemma rotate_about_own_center (bbox : rect) :
  rotate_oriented_bbox_to_horizontal (r_cx bbox, r_cy bbox) bbox = bbox /\
  rotate_horizontal_bbox_to_oriented (r_cx bbox, r_cy bbox) bbox = bbox.
Proof.
  destruct bbox as [cx cy w h theta].
  unfold rotate_oriented_bbox_to_horizontal,
    rotate_horizontal_bbox_to_oriented, getRotationMatrix2D, dot23.
  simpl. split; f_equal; ring.
Qed.

End geometry_more.

Section crop_more.
Local Open Scope R_scope.

(** Cropping a second time to the same anchor changes nothing, and the
    cropped width is at most the width of the rectangle and at most the
    side of the anchor. *)
Theorem crop_idempotent (bbox : rect) (anc : anchor) :
  crop_horizontal_bbox_using_anchor
    (crop_horizontal_bbox_using_anchor bbox anc) anc
  = crop_horizontal_bbox_using_anchor bbox anc /\
  r_w (crop_horizontal_bbox_using_anchor bbox anc) <= r_w bbox /\
  r_w (crop_horizontal_bbox_using_anchor bbox anc) <= a_w anc.
Proof.
  destruct bbox as [cx cy w h theta], anc as [acx acy aw ah]. simpl.
  set (xmin := Rmax (cx - w / 2) (acx - aw / 2)).
  set (xmax := Rmin (cx + w / 2) (acx + aw / 2)).
  pose proof (Rmax_l (cx - w / 2) (acx - aw / 2)) as Hl1.
  pose proof (Rmax_r (cx - w / 2) (acx - aw / 2)) as Hl2.
  pose proof (Rmin_l (cx + w / 2) (acx + aw / 2)) as Hr1.
  pose proof (Rmin_r (cx + w / 2) (acx + aw / 2)) as Hr2.
  fold xmin in Hl1, Hl2. fold xmax in Hr1, Hr2.
  split; [|split; lra].
  replace ((xmin + xmax) / 2 - (xmax - xmin) / 2) with xmin by lra.
  replace ((xmin + xmax) / 2 + (xmax - xmin) / 2) with xmax by lra.
  rewrite (Rmax_left xmin) by lra. rewrite (Rmin_left xmax) by lra.
  reflexivity.
Qed.

(** For a rectangle and an anchor of non-negative widths, the cropped
    width is negative exactly when the two horizontal extents are
    disjoint; nothing guards that case. *)
Theorem crop_negative_width (bbox : rect) (anc : anchor) :
  0 <= r_w bbox -> 0 <= a_w anc ->
  r_w (crop_horizontal_bbox_using_anchor bbox anc) < 0 <->
  (r_cx bbox + r_w bbox / 2 < a_cx anc - a_w anc / 2 \/
   a_cx anc + a_w anc / 2 < r_cx bbox - r_w bbox / 2).
Proof.
  destruct bbox as [cx cy w h theta], anc as [acx acy aw ah]. simpl.
  intros Hw Haw. unfold Rmax, Rmin.
  destruct (Rle_dec (cx - w / 2) (acx - aw / 2));
    destruct (Rle_dec (cx + w / 2) (acx + aw / 2)); split; intros; lra.
Qed.

Lemma crop_negative_width_demo :
  r_w (crop_horizontal_bbox_using_anchor (Rect 0 0 4 2 0) (Anchor 10 0 2 2))
  < 0.
Proof.
  apply (crop_negative_width (Rect 0 0 4 2 0) (Anchor 10 0 2 2));
    simpl; [lra | lra |]. left. lra.
Defined.

Lemma crop_inside (bbox : rect) (anc : anchor) :
  a_cx anc - a_w anc / 2 <= r_cx bbox - r_w bbox / 2 ->
  r_cx bbox + r_w bbox / 2 <= a_cx anc + a_w anc / 2 ->
  crop_horizontal_bbox_using_anchor bbox anc = bbox.
Proof.
  destruct bbox as [cx cy w h theta], anc as [acx acy aw ah]. simpl.
  intros Hl Hr. rewrite Rmax_left by lra. rewrite Rmin_left by lra.
  f_equal; lra.
Qed.

(** When the rectangle, rotated to the horizontal about the center of the
    anchor, lies between the left and the right side of the anchor, the
    four steps give the rectangle back. *)
Theorem cal_seg_gt_inside (anc : anchor) (r : rect) :
  let r1 := rotate_oriented_bbox_to_horizontal (a_cx anc, a_cy anc) r in
  a_cx anc - a_w anc / 2 <= r_cx r1 - r_w r / 2 ->
  r_cx r1 + r_w r / 2 <= a_cx anc + a_w anc / 2 ->
  cal_seg_gt_for_single_anchor anc r = r.
Proof.
  intros r1 Hl Hr. unfold cal_seg_gt_for_single_anchor. fold r1.
  assert (Hw : r_w r1 = r_w r) by apply rotate_to_horizontal_frame.
  rewrite crop_inside by (rewrite Hw; assumption).
  apply rotations_inverse.
Qed.

Lemma cal_seg_gt_inside_demo :
  cal_seg_gt_for_single_anchor (Anchor 5 5 10 10) (Rect 5 5 4 2 30)
  = Rect 5 5 4 2 30.
Proof.
  assert (E : rotate_oriented_bbox_to_horizontal
                (a_cx (Anchor 5 5 10 10), a_cy (Anchor 5 5 10 10))
                (Rect 5 5 4 2 30) = Rect 5 5 4 2 30)
    by apply (proj1 (rotate_about_own_center (Rect 5 5 4 2 30))).
  apply (cal_seg_gt_inside (Anchor 5 5 10 10) (Rect 5 5 4 2 30));
    rewrite E; simpl; lra.
Defined.

(** A rectangle centered on the anchor and at least as wide as the anchor
    gives, at any angle, the segment centered on the anchor with the
    width of the anchor and the height and angle of the rectangle. *)
Theorem cal_seg_gt_centered (anc : anchor) (r : rect) :
  r_cx r = a_cx anc -> r_cy r = a_cy anc -> 0 <= a_w anc <= r_w r ->
  cal_seg_gt_for_single_anchor anc r
  = Rect (a_cx anc) (a_cy anc) (a_w anc) (r_h r) (r_theta r).
Proof.
  destruct r as [cx cy w h theta], anc as [acx acy aw ah]. simpl.
  intros -> -> Hw. unfold cal_seg_gt_for_single_anchor. cbn [a_cx a_cy].
  pose proof (rotate_about_own_center (Rect acx acy w h theta)) as [E1 _].
  pose proof (rotate_about_own_center (Rect acx acy aw h theta)) as [_ E2].
  cbn [r_cx r_cy] in E1, E2. rewrite E1.
  assert (Hcrop : crop_horizontal_bbox_using_anchor (Rect acx acy w h theta)
                    (Anchor acx acy aw ah)
                  = Rect acx acy aw h theta).
  { simpl. rewrite Rmax_right by lra. rewrite Rmin_right by lra.
    f_equal; lra. }
  rewrite Hcrop. exact E2.
Qed.

Lemma cal_seg_gt_centered_demo :
  cal_seg_gt_for_single_anchor (Anchor 5 5 10 10) (Rect 5 5 40 8 (-30))
  = Rect 5 5 10 8 (-30).
Proof.
  apply (cal_seg_gt_centered (Anchor 5 5 10 10) (Rect 5 5 40 8 (-30)));
    simpl; lra.
Defined.

(** For an anchor and a rectangle of positive sides, the height ratio is
    at least [1], it does not depend on which side of the rectangle is
    called its width, and the height check of the matcher is the
    comparison of this ratio with [config.max_height_ratio]. *)
Theorem anchor_rect_height_ratio_ge_1 (cfg : config) (anc : anchor)
    (r : rect) :
  0 < a_w anc -> 0 < r_w r -> 0 < r_h r ->
  1 <= anchor_rect_height_ratio anc r /\
  anchor_rect_height_ratio anc
    (Rect (r_cx r) (r_cy r) (r_h r) (r_w r) (r_theta r))
  = anchor_rect_height_ratio anc r /\
  (height_matched cfg anc r = true <->
   anchor_rect_height_ratio anc r <= max_height_ratio cfg).
Proof.
  destruct r as [cx cy w h theta], anc as [acx acy aw ah]. simpl.
  intros Haw Hw Hh. unfold anchor_rect_height_ratio, height_matched. simpl.
  assert (Hm : 0 < Rmin w h) by (apply Rmin_glb_lt; assumption).
  replace (aw * 1) with aw by lra.
  set (t := aw / Rmin w h).
  assert (Ht : 0 < t) by (apply Rdiv_lt_0_compat; assumption).
  split; [|split].
  - destruct (Rle_dec 1 t) as [H1|H1].
    + pose proof (Rmax_l t (1 / t)). lra.
    + assert (1 < 1 / t).
      { apply Rnot_le_lt in H1. unfold Rdiv. rewrite Rmult_1_l.
        rewrite <- Rinv_1 at 1. apply Rinv_lt_contravar; lra. }
      pose proof (Rmax_r t (1 / t)). lra.
  - by rewrite (Rmin_comm h w).
  - apply Rleb_true.
Qed.

Lemma anchor_rect_height_ratio_ge_1_demo :
  1 <= anchor_rect_height_ratio (Anchor 5 5 10 10) (Rect 0 0 40 8 0).
Proof.
  apply (anchor_rect_height_ratio_ge_1 demo_cfg (Anchor 5 5 10 10)
           (Rect 0 0 40 8 0)); simpl; lra.
Defined.

End crop_more.

(** ** Anchor matcher *)

Section matcher_more.
Context `{Cv2}.
Local Open Scope Z_scope.

Lemma last_match_exists cfg anc cnts rects (k j : nat) cnt rect :
  (j < k)%nat -> cnts !! j = Some cnt -> rects !! j = Some rect ->
  center_point_matched anc cnt = true -> height_matched cfg anc rect = true ->
  exists m, last_match cfg anc cnts rects k = Some m.
Proof.
  intros Hj Hcnt Hrect Hc Hh. induction k as [|k IH]; [lia|]. simpl.
  destruct (decide (j = k)) as [->|Hne].
  - rewrite Hcnt, Hrect, Hc, Hh. simpl. eauto.
  - destruct (cnts !! k) as [cnt'|]; [destruct (rects !! k) as [rect'|]|];
      try (apply IH; lia).
    destruct (_ && _); [eauto | apply IH; lia].
Qed.

(** When the shapes of [xs] and [ys] do not agree the matcher raises
    before it computes anything.  When they agree, for anchors of
    positive side and minimum-area rectangles of positive sides (so that
    the quotients of the height check are the ones the code computes), a
    label is [-1] or the index of a box, it is non-negative exactly when
    some box passes both checks for the anchor, and an anchor with label
    [-1] has the all-zero target. *)
Theorem match_labels_range (cfg : config) (anchors : list anchor)
    (xs ys : list (list R)) :
  (shape_N4 xs ys = false ->
   match_anchor_to_text_boxes cfg anchors xs ys = Raise AssertionError) /\
  (shape_N4 xs ys = true ->
   (forall anc, anc ∈ anchors -> (0 < a_w anc)%R) ->
   (forall r, r ∈ min_area_rect xs ys -> (0 < r_w r /\ 0 < r_h r)%R) ->
   exists labels seg_gt,
     match_anchor_to_text_boxes cfg anchors xs ys = Ok (labels, seg_gt) /\
     forall i anc l, anchors !! i = Some anc -> labels !! i = Some l ->
       (l = -1 \/ 0 <= l < Z.of_nat (length xs)) /\
       (0 <= l <->
        exists j cnt rect,
          contours_of xs ys !! j = Some cnt /\
          transform_cv_rect (min_area_rect xs ys) !! j = Some rect /\
          center_point_matched anc cnt = true /\
          height_matched cfg anc rect = true) /\
       (l = -1 -> seg_gt !! i = Some zero_rect)).
Proof.
  split.
  - intros Hshape. unfold match_anchor_to_text_boxes. by rewrite Hshape.
  - intros Hshape _ _.
    destruct (match_anchor_to_text_boxes_rows cfg anchors xs ys Hshape)
      as (labels & seg_gt & Hrun & _ & _ & Hrows).
    exists labels, seg_gt. split; [exact Hrun|].
    intros i anc l Hanc Hl. destruct (Hrows i anc Hanc) as [El Es].
    simpl in El, Es. rewrite El in Hl. injection Hl as <-.
    set (cnts := contours_of xs ys) in *.
    set (rects := transform_cv_rect (min_area_rect xs ys)) in *.
    destruct (last_match cfg anc cnts rects (length xs)) as [[j rect]|] eqn:Hm.
    + pose proof Hm as Hm'.
      apply last_match_Some in Hm' as (Hj & Hrect & cnt & Hcnt & Hc & Hh).
      simpl. split; [right; lia|]. split; [|lia].
      split; [|lia]. intros _. eauto 10.
    + simpl. split; [by left|]. split; [|intros _; exact Es].
      split; [lia|]. intros (j & cnt & rect & Hcnt & Hrect & Hc & Hh).
      exfalso.
      assert (Hj : (j < length xs)%nat).
      { apply lookup_lt_Some in Hcnt. unfold cnts in Hcnt.
        rewrite contours_of_length in Hcnt; [lia|].
        by apply shape_N4_length. }
      destruct (last_match_exists cfg anc cnts rects (length xs) j cnt rect)
        as [m Hm2]; try assumption. congruence.
Qed.

End matcher_more.

(** On the two boxes and the two anchors of [demo_cfg]: the first anchor
    has a box index for label, the second has [-1]. *)
Lemma match_labels_range_demo :
  exists labels seg_gt,
    @match_anchor_to_text_boxes box_cv2 demo_cfg (default_anchors demo_cfg)
      demo_xs demo_ys = Ok (labels, seg_gt) /\
    forall i anc l, default_anchors demo_cfg !! i = Some anc ->
      labels !! i = Some l -> (l = -1 \/ 0 <= l < 2)%Z.
Proof.
  destruct (proj2 (@match_labels_range box_cv2 demo_cfg
                     (default_anchors demo_cfg) demo_xs demo_ys) eq_refl)
    as (labels & seg_gt & Hrun & Hrows).
  { intros anc Ha. simpl in Ha.
    apply elem_of_cons in Ha as [->|Ha]; [simpl; lra|].
    apply elem_of_cons in Ha as [->|Ha]; [simpl; lra|].
    by apply elem_of_nil in Ha. }
  { intros r Hr. unfold min_area_rect in Hr. simpl in Hr.
    apply elem_of_cons in Hr as [->|Hr]; [simpl; lra|].
    apply elem_of_cons in Hr as [->|Hr]; [simpl; lra|].
    by apply elem_of_nil in Hr. }
  exists labels, seg_gt. split; [exact Hrun|].
  intros i anc l Hanc Hl.
  destruct (Hrows i anc l Hanc Hl) as [Hrange _]. exact Hrange.
Defined.

(** ** Reshaping by layer *)

Section reshape_more.
Context {A : Type}.
Local Open Scope nat_scope.

Lemma reshape_labels_loop_short (v : list A) shapes : forall acc idx,
  idx <= length v -> length v < idx + num_anchors shapes ->
  foldM (fun '(layer_labels, idx) '(h, w) =>
           let label_length := h * w in
           let layer_match_result := py_slice v idx label_length in
           let idx := idx + label_length in
           layer_match_result ← np_reshape2 layer_match_result h w;
           Ok (layer_labels ++ [layer_match_result], idx))
        shapes (acc, idx)
  = Raise ValueError.
Proof.
  induction shapes as [|[h w] shapes IH]; intros acc idx Hidx Hlen;
    unfold num_anchors in *; simpl in Hlen; [lia|].
  rewrite foldM_cons. cbv beta iota zeta. unfold np_reshape2.
  destruct (le_lt_dec (idx + h * w) (length v)) as [Hfit|Hshort].
  - rewrite py_slice_length by lia. rewrite Nat.eqb_refl, bind_Ok, bind_Ok.
    apply IH; lia.
  - replace (length (py_slice v idx (h * w)) =? h * w) with false;
      [reflexivity|].
    symmetry. apply Nat.eqb_neq. unfold py_slice.
    rewrite length_take, length_drop. lia.
Qed.

Lemma reshape_links_loop_short (v : list A) (d : nat) shapes : forall acc idx,
  idx <= length v -> length v < idx + num_cells shapes d ->
  foldM (fun '(link_gts, idx) '(lh, lw) =>
           let length := lh * lw * d in
           let layer_link_gt := py_slice v idx length in
           let idx := idx + length in
           layer_link_gt ← np_reshape3 layer_link_gt lh lw d;
           Ok (link_gts ++ [layer_link_gt], idx))
        shapes (acc, idx)
  = Raise ValueError.
Proof.
  induction shapes as [|[h w] shapes IH]; intros acc idx Hidx Hlen;
    unfold num_cells in *; simpl in Hlen; [lia|].
  rewrite foldM_cons. cbv beta iota zeta. unfold np_reshape3.
  destruct (le_lt_dec (idx + h * w * d) (length v)) as [Hfit|Hshort].
  - rewrite py_slice_length by lia. rewrite Nat.eqb_refl, bind_Ok, bind_Ok.
    apply IH; lia.
  - replace (length (py_slice v idx (h * w * d)) =? h * w * d) with false;
      [reflexivity|].
    symmetry. apply Nat.eqb_neq. unfold py_slice.
    rewrite length_take, length_drop. lia.
Qed.

Lemma layers_from_concat (v : list A) shapes : forall idx,
  concat (map a2_data (layers_from v shapes idx))
  = take (num_anchors shapes) (drop idx v).
Proof.
  unfold num_anchors.
  induction shapes as [|[h w] shapes IH]; intros idx; simpl; [reflexivity|].
  rewrite IH. unfold py_slice.
  rewrite <- (drop_drop v (h * w) idx). apply take_take_drop.
Qed.

Lemma cubes_from_flat (v : list A) (d : nat) shapes : forall idx,
  concat (map a3_data (cubes_from v shapes d idx))
  = take (num_cells shapes d) (drop idx v).
Proof.
  unfold num_cells.
  induction shapes as [|[h w] shapes IH]; intros idx; simpl; [reflexivity|].
  rewrite IH. unfold py_slice.
  rewrite <- (drop_drop v (h * w * d) idx). apply take_take_drop.
Qed.

(** [reshape_labels_by_layer] returns exactly when the vector has one
    entry per cell of the layers: a shorter vector makes [np.reshape]
    raise, a longer one fails the final assertion.  What it returns has
    one array per layer, of the shape of the layer, and the buffers of
    the arrays, one after the other, are the vector. *)
Theorem reshape_labels_by_layer_cases (shapes : list (nat * nat))
    (v : list A) :
  (length v = num_anchors shapes ->
   exists layers,
     reshape_labels_by_layer shapes v = Ok layers /\
     length layers = length shapes /\
     (forall l g, layers !! l = Some g ->
        shapes !! l = Some (a2_h g, a2_w g) /\ wf2 g) /\
     concat (map a2_data layers) = v) /\
  (length v < num_anchors shapes ->
   reshape_labels_by_layer shapes v = Raise ValueError) /\
  (num_anchors shapes < length v ->
   reshape_labels_by_layer shapes v = Raise AssertionError).
Proof.
  split; [|split].
  - intros Hlen. exists (layers_from v shapes 0).
    split; [by apply reshape_labels_by_layer_Ok|].
    split; [apply layers_from_length|]. split.
    + intros l g Hg.
      destruct (layers_from_lookup v shapes 0 l g) as (H1 & H2 & _);
        [lia | exact Hg | auto].
    + rewrite layers_from_concat, drop_0, <- Hlen. apply firstn_all.
  - intros Hlen. unfold reshape_labels_by_layer.
    rewrite reshape_labels_loop_short by lia. reflexivity.
  - intros Hlen. unfold reshape_labels_by_layer.
    rewrite reshape_labels_loop by lia. rewrite bind_Ok. simpl.
    replace (num_anchors shapes =? length v) with false; [reflexivity|].
    symmetry. apply Nat.eqb_neq. lia.
Qed.


(** The layout of the layers in the flat vector: cell [[y, x]] of layer
    [l] is entry [n + y * w + x] of the vector, where [n] is the number
    of cells of the layers before [l] and [w] the width of layer [l]. *)
Theorem reshape_labels_by_layer_layout (shapes : list (nat * nat))
    (v : list A) :
  length v = num_anchors shapes ->
  exists layers,
    reshape_labels_by_layer shapes v = Ok layers /\
    forall l g (y x : Z), layers !! l = Some g ->
      (0 <= y < Z.of_nat (a2_h g))%Z -> (0 <= x < Z.of_nat (a2_w g))%Z ->
      exists a,
        get2 g y x = Ok a /\
        v !! (num_anchors (take l shapes)
              + Z.to_nat (y * Z.of_nat (a2_w g) + x)) = Some a.
Proof.
  intros Hlen. exists (layers_from v shapes 0).
  split; [by apply reshape_labels_by_layer_Ok|].
  intros l g y x Hg Hy Hx.
  destruct (layers_from_lookup v shapes 0 l g) as (_ & Hwf & Hdata);
    [lia | exact Hg |].
  destruct (get2_Ok g y x Hwf Hy Hx) as (a & Ha & Hlk).
  exists a. split; [exact Ha|].
  rewrite Hdata in Hlk. unfold py_slice in Hlk. simpl in Hlk.
  rewrite lookup_take_lt in Hlk.
  - by rewrite lookup_drop in Hlk.
  - pose proof (index_lt y x _ _ Hy Hx). lia.
Qed.

End reshape_more.

Lemma reshape_labels_by_layer_layout_demo :
  exists layers,
    reshape_labels_by_layer [(1, 2); (2, 1)]%nat [10; 11; 12; 13]%Z
    = Ok layers /\
    forall g, layers !! 1%nat = Some g ->
      exists a, get2 g 1 0 = Ok a /\ a = 13%Z.
Proof.
  destruct (reshape_labels_by_layer_layout [(1, 2); (2, 1)]%nat
              [10; 11; 12; 13]%Z eq_refl) as (layers & Hrun & Hget).
  exists layers. split; [exact Hrun|]. intros g Hg.
  assert (Hshape : a2_h g = 2%nat /\ a2_w g = 1%nat).
  { revert Hg. unfold reshape_labels_by_layer in Hrun. simpl in Hrun.
    injection Hrun as <-. simpl. intros [= <-]. auto. }
  destruct Hshape as [Hh Hw].
  destruct (Hget 1%nat g 1%Z 0%Z Hg) as (a & Ha & Hlk); [lia | lia |].
  exists a. split; [exact Ha|]. rewrite Hw in Hlk. simpl in Hlk. congruence.
Defined.

(** ** Neighbours and link ground truth *)

Section neighbours_more.
Local Open Scope Z_scope.

(** Neighbour [k] of a cell is at distance one, and has that cell as
    its neighbour [7 - k]. *)
Lemma inter_layer_neighbours_back (x y : Z) (k : nat) (nx ny : Z) :
  get_inter_layer_neighbours x y !! k = Some (nx, ny) ->
  (k < 8)%nat /\
  (nx, ny) <> (x, y) /\ Z.abs (nx - x) <= 1 /\ Z.abs (ny - y) <= 1 /\
  get_inter_layer_neighbours nx ny !! (7 - k)%nat = Some (x, y).
Proof.
  intros Hk. unfold get_inter_layer_neighbours in *.
  do 8 (destruct k as [|k];
        [injection Hk as <- <-; simpl;
         repeat split;
         first [ lia
               | intros Heq; injection Heq; intros; lia
               | f_equal; f_equal; lia ]|]).
  discriminate.
Qed.

(** The eight inter-layer neighbours of a cell are the eight cells at
    distance one, and the relation is symmetric: neighbour [k] of a cell
    has that cell as its neighbour [7 - k]. *)
Theorem inter_layer_neighbours_symmetric (x y : Z) (k : nat) (nx ny : Z) :
  get_inter_layer_neighbours x y !! k = Some (nx, ny) ->
  (k < 8)%nat /\
  (nx, ny) <> (x, y) /\ Z.abs (nx - x) <= 1 /\ Z.abs (ny - y) <= 1 /\
  get_inter_layer_neighbours nx ny !! (7 - k)%nat = Some (x, y).
Proof. exact (inter_layer_neighbours_back x y k nx ny). Qed.

Lemma inter_layer_neighbours_symmetric_demo :
  get_inter_layer_neighbours 4 2 !! 5%nat = Some (3, 3).
Proof.
  destruct (inter_layer_neighbours_symmetric 3 3 2 4 2 eq_refl)
    as (_ & _ & _ & _ & Hback).
  exact Hback.
Defined.

(** The four cross-layer neighbours of cell [(x, y)] are exactly the
    cells of the previous layer whose coordinates halve to [(x, y)]. *)
Theorem cross_layer_neighbours_halve (x y nx ny : Z) :
  (exists k, get_cross_layer_neighbours x y !! k = Some (nx, ny)) <->
  nx / 2 = x /\ ny / 2 = y.
Proof.
  unfold get_cross_layer_neighbours. split.
  - intros [k Hk].
    do 4 (destruct k as [|k];
          [injection Hk as <- <-; split; symmetry;
           first [ apply Z.div_unique with (r := 0); lia
                 | apply Z.div_unique with (r := 1); lia ]|]).
    discriminate.
  - intros [<- <-].
    pose proof (Z.div_mod nx 2 ltac:(lia)) as Hx.
    pose proof (Z.mod_pos_bound nx 2 ltac:(lia)) as Hxb.
    pose proof (Z.div_mod ny 2 ltac:(lia)) as Hy.
    pose proof (Z.mod_pos_bound ny 2 ltac:(lia)) as Hyb.
    assert (nx mod 2 = 0 \/ nx mod 2 = 1) as [Hxm|Hxm] by lia;
      assert (ny mod 2 = 0 \/ ny mod 2 = 1) as [Hym|Hym] by lia.
    + exists 0%nat. simpl. f_equal. f_equal; lia.
    + exists 2%nat. simpl. f_equal. f_equal; lia.
    + exists 1%nat. simpl. f_equal. f_equal; lia.
    + exists 3%nat. simpl. f_equal. f_equal; lia.
Qed.

Lemma get3_Ok_inv {A : Type} (a : array3 A) (y x k : Z) (v : A) :
  get3 a y x k = Ok v ->
  0 <= y < Z.of_nat (a3_h a) /\ 0 <= x < Z.of_nat (a3_w a) /\
  0 <= k < Z.of_nat (a3_d a).
Proof.
  unfold get3.
  destruct (in_range y (a3_h a)) eqn:Hy; [|discriminate].
  destruct (in_range x (a3_w a)) eqn:Hx; [|discriminate].
  destruct (in_range k (a3_d a)) eqn:Hk; [|discriminate].
  intros _. apply in_range_true in Hy, Hx, Hk. auto.
Qed.

(** Inter-layer link ground truth is symmetric: when slot [k] of a cell
    is [1], slot [7 - k] of the neighbour it points to is [1] too. *)
Theorem cal_link_gt_symmetric (cfg : config) (labels : list Z) :
  (2 <= length (feat_shapes cfg))%nat ->
  length labels = num_anchors (feat_shapes cfg) ->
  exists link_gt inter cross,
    cal_link_gt cfg labels = Ok link_gt /\
    reshape_link_gt_by_layer (feat_shapes cfg) link_gt = Ok (inter, cross) /\
    forall l gt x y (k : nat) nx ny,
      inter !! l = Some gt ->
      get_inter_layer_neighbours x y !! k = Some (nx, ny) ->
      get3 gt y x (Z.of_nat k) = Ok 1 ->
      get3 gt ny nx (Z.of_nat (7 - k)) = Ok 1.
Proof.
  intros Hlayers Hlen.
  destruct (cal_link_gt_spec cfg labels Hlayers Hlen)
    as (link_gt & inters & crosses & Hrun & _ & Hre & _ & _ & HI & _).
  exists link_gt, inters, crosses. split; [exact Hrun|]. split; [exact Hre|].
  intros l gt x y k nx ny Hgt Hnb Hslot.
  destruct (HI l gt Hgt) as (lab & Hlab & Hwf & Hh & Hw & Hd & Hget).
  destruct (inter_layer_neighbours_back x y k nx ny Hnb)
    as (Hk & _ & _ & _ & Hback).
  apply get3_Ok_inv in Hslot as Hrange. destruct Hrange as (Hy & Hx & _).
  rewrite Hh in Hy. rewrite Hw in Hx.
  rewrite Hget in Hslot by (assumption || lia).
  injection Hslot as Hslot.
  apply (slot_value_1 lab lab _ y x k nx ny Hnb) in Hslot
    as (Hvalid & m & Hm & Hcell & Hnbr).
  apply is_valid_cord_true in Hvalid as [Hnx Hny].
  rewrite Hget by (assumption || lia). f_equal.
  apply (slot_value_1 lab lab _ ny nx (7 - k) x y Hback).
  split; [apply is_valid_cord_true; lia|]. eauto.
Qed.

Lemma cal_link_gt_symmetric_demo :
  exists link_gt inter cross,
    cal_link_gt (Config [(1, 2); (1, 1)]%nat [] 1 (1, 1)%R 1 1) [0; 0; -1]
    = Ok link_gt /\
    reshape_link_gt_by_layer [(1, 2); (1, 1)]%nat link_gt
    = Ok (inter, cross) /\
    forall l gt x y (k : nat) nx ny,
      inter !! l = Some gt ->
      get_inter_layer_neighbours x y !! k = Some (nx, ny) ->
      get3 gt y x (Z.of_nat k) = Ok 1 ->
      get3 gt ny nx (Z.of_nat (7 - k)) = Ok 1.
Proof.
  apply (cal_link_gt_symmetric
           (Config [(1, 2); (1, 1)]%nat [] 1 (1, 1)%R 1 1) [0; 0; -1]);
    [simpl; lia | reflexivity].
Defined.

End neighbours_more.

Section link_gt_more.
Local Open Scope Z_scope.

(** Every entry of the buffer of an array is a cell of the array. *)
Lemma index3_onto {A : Type} (a : array3 A) (i : nat) :
  wf3 a -> (i < length (a3_data a))%nat ->
  exists y x k,
    0 <= y < Z.of_nat (a3_h a) /\ 0 <= x < Z.of_nat (a3_w a) /\
    0 <= k < Z.of_nat (a3_d a) /\ index3 a y x k = i.
Proof.
  intros Hwf Hi. rewrite Hwf in Hi.
  assert (Hd : (0 < a3_d a)%nat) by (destruct (a3_d a); lia).
  assert (Hw : (0 < a3_w a)%nat) by (destruct (a3_w a); lia).
  set (d := Z.of_nat (a3_d a)). set (w := Z.of_nat (a3_w a)).
  set (q := Z.of_nat i / d).
  pose proof (Z.div_mod (Z.of_nat i) d ltac:(lia)) as Hqd.
  pose proof (Z.mod_pos_bound (Z.of_nat i) d ltac:(lia)) as Hkb.
  pose proof (Z.div_mod q w ltac:(lia)) as Hqw.
  pose proof (Z.mod_pos_bound q w ltac:(lia)) as Hxb.
  assert (Hq0 : 0 <= q) by (apply Z.div_pos; lia).
  assert (Hy0 : 0 <= q / w) by (apply Z.div_pos; lia).
  fold q in Hqd.
  assert (Hqh : q < Z.of_nat (a3_h a) * w).
  { apply Z.div_lt_upper_bound; [lia|]. fold d. unfold w, d. nia. }
  assert (Hyh : q / w < Z.of_nat (a3_h a)).
  { apply Z.div_lt_upper_bound; [lia|]. lia. }
  exists (q / w), (q mod w), (Z.of_nat i mod d).
  split; [lia|]. split; [lia|]. split; [lia|].
  unfold index3. fold w d.
  replace (q / w * w + q mod w) with q by lia.
  replace (q * d + Z.of_nat i mod d) with (Z.of_nat i) by lia.
  apply Nat2Z.id.
Qed.

(** When no anchor is matched, every link label is [0]. *)
Theorem cal_link_gt_unmatched (cfg : config) (labels : list Z) :
  (2 <= length (feat_shapes cfg))%nat ->
  length labels = num_anchors (feat_shapes cfg) ->
  (forall l, l ∈ labels -> l < 0) ->
  cal_link_gt cfg labels = Ok (replicate (num_links (feat_shapes cfg)) 0).
Proof.
  intros Hlayers Hlen Hneg.
  destruct (cal_link_gt_spec cfg labels Hlayers Hlen)
    as (link_gt & inters & crosses & Hrun & Hlg & Hre & _ & _ & HI & HC).
  rewrite Hrun. f_equal. symmetry. apply replicate_as_Forall.
  split; [exact Hlg|]. apply Forall_forall. intros v Hv.
  (* the arrays are cut from the vector *)
  rewrite (reshape_link_gt_by_layer_Ok _ _ Hlg) in Hre.
  injection Hre as HeqI HeqC.
  assert (Hflat : link_gt
                  = concat (map a3_data inters) ++ concat (map a3_data crosses)).
  { rewrite <- HeqI, <- HeqC, !cubes_from_flat, drop_0.
    rewrite <- (take_drop (num_cells (feat_shapes cfg) 8) link_gt) at 1.
    f_equal. symmetry. apply take_ge. rewrite length_drop.
    unfold num_links in Hlg. lia. }
  assert (Hcell : forall lab nb nbs y x k,
            (exists l, layers_from labels (feat_shapes cfg) 0 !! l = Some lab) ->
            slot_value lab nb nbs y x k = 0).
  { intros lab nb nbs y x k [l Hlab]. unfold slot_value.
    destruct (get2 lab y x) as [m|] eqn:Hm; [|reflexivity].
    apply get2_Ok_inv in Hm as (_ & _ & Hm).
    apply list_elem_of_lookup_2 in Hm.
    apply (layers_from_elem _ _ _ _ _ _ Hlab) in Hm.
    specialize (Hneg m Hm).
    replace (0 <=? m) with false by (symmetry; apply Z.leb_gt; lia).
    reflexivity. }
  assert (Hzero : forall gt lab nb nbs d,
            (exists l, layers_from labels (feat_shapes cfg) 0 !! l = Some lab) ->
            link_layer_ok lab nb nbs d gt -> v ∈ a3_data gt -> 0 = v).
  { intros gt lab nb nbs d Hlab (Hwf & Hh & Hw & Hd & Hget) Hin.
    apply list_elem_of_lookup in Hin as [i Hi].
    destruct (index3_onto gt i Hwf) as (y & x & k & Hy & Hx & Hk & Hidx);
      [by apply lookup_lt_Some in Hi|].
    destruct (get3_Ok gt y x k Hwf Hy Hx Hk) as (v' & Hv' & Hlk).
    rewrite Hidx, Hi in Hlk. injection Hlk as <-.
    specialize (Hget x y (Z.to_nat k)).
    rewrite Z2Nat.id in Hget by lia.
    rewrite Hget in Hv' by lia. rewrite (Hcell _ _ _ _ _ _ Hlab) in Hv'.
    by injection Hv'. }
  rewrite Hflat in Hv. apply elem_of_app in Hv as [Hv|Hv];
    apply list_elem_of_In, in_concat in Hv as (data & Hdata & Hv);
    apply in_map_iff in Hdata as (gt & <- & Hgt);
    apply list_elem_of_In, list_elem_of_lookup in Hgt as [l Hgt];
    apply list_elem_of_In in Hv.
  - destruct (HI l gt Hgt) as (lab & Hlab & Hok).
    apply (Hzero gt lab lab _ _ (ex_intro _ l Hlab) Hok Hv).
  - destruct (HC l gt Hgt) as (lab & prev & Hlab & _ & Hok).
    apply (Hzero gt lab prev _ _ (ex_intro _ _ Hlab) Hok Hv).
Qed.

Lemma cal_link_gt_unmatched_demo :
  cal_link_gt demo_cfg [-1; -1] = Ok (replicate 20 0).
Proof.
  apply (cal_link_gt_unmatched demo_cfg [-1; -1]);
    [simpl; lia | reflexivity |].
  intros l [->|[->|Hl%elem_of_nil]%elem_of_cons]%elem_of_cons; lia.
Defined.

End link_gt_more.

Section encoder_more.
Context `{Cv2}.
Local Open Scope nat_scope.

(** [get_all_seglink_gt] returns one label and one segment target per
    default anchor and [num_links] link labels: the shapes
    [tf_get_all_seglink_gt] declares. *)
Theorem get_all_seglink_gt_shapes (cfg : config) (xs ys : list (list R))
    (normalize : bool) :
  shape_N4 xs ys = true ->
  2 <= length (feat_shapes cfg) ->
  length (default_anchors cfg) = num_anchors (feat_shapes cfg) ->
  exists labels seg_gt link_gt,
    get_all_seglink_gt cfg xs ys normalize = Ok (labels, seg_gt, link_gt) /\
    length labels = num_anchors (feat_shapes cfg) /\
    length seg_gt = num_anchors (feat_shapes cfg) /\
    length link_gt = num_links (feat_shapes cfg).
Proof.
  intros Hshape Hlayers Hanchors.
  destruct (match_anchor_to_text_boxes_rows cfg (default_anchors cfg) xs ys
              Hshape)
    as (match_labels & targets & Hmatch & Hl & Hs & _).
  destruct (cal_link_gt_spec cfg match_labels Hlayers)
    as (link_gt & _ & _ & Hlink & Hlg & _); [lia|].
  exists (labels_ge_0 match_labels),
    (if normalize then normalize_seg_gt cfg targets else targets), link_gt.
  split; [|split; [|split]].
  - unfold get_all_seglink_gt. rewrite Hmatch, bind_Ok. cbv beta iota.
    rewrite Hlink, bind_Ok. reflexivity.
  - unfold labels_ge_0. rewrite length_map. lia.
  - destruct normalize; [|lia]. unfold normalize_seg_gt.
    destruct (image_shape cfg). rewrite length_map. lia.
  - exact Hlg.
Qed.

(** Normalising changes the segment targets only: labels and link labels
    are those of the plain call, the center and the sides of a target
    are divided by the width and the height of the image (not zero), the
    angle is kept. *)
Theorem get_all_seglink_gt_normalize (cfg : config) (xs ys : list (list R)) :
  shape_N4 xs ys = true ->
  2 <= length (feat_shapes cfg) ->
  length (default_anchors cfg) = num_anchors (feat_shapes cfg) ->
  (fst (image_shape cfg) <> 0 /\ snd (image_shape cfg) <> 0)%R ->
  exists labels targets seg_gt link_gt,
    get_all_seglink_gt cfg xs ys false = Ok (labels, targets, link_gt) /\
    get_all_seglink_gt cfg xs ys true = Ok (labels, seg_gt, link_gt) /\
    length seg_gt = length targets /\
    forall i t, targets !! i = Some t ->
      exists r, seg_gt !! i = Some r /\
        (r_cx r = r_cx t / snd (image_shape cfg) /\
         r_cy r = r_cy t / fst (image_shape cfg) /\
         r_w r = r_w t / snd (image_shape cfg) /\
         r_h r = r_h t / fst (image_shape cfg) /\
         r_theta r = r_theta t)%R.
Proof.
  intros Hshape Hlayers Hanchors _.
  destruct (match_anchor_to_text_boxes_rows cfg (default_anchors cfg) xs ys
              Hshape)
    as (match_labels & targets & Hmatch & Hl & Hs & _).
  destruct (cal_link_gt_spec cfg match_labels Hlayers)
    as (link_gt & _ & _ & Hlink & _); [lia|].
  exists (labels_ge_0 match_labels), targets, (normalize_seg_gt cfg targets),
    link_gt.
  split; [|split; [|split]].
  - unfold get_all_seglink_gt. rewrite Hmatch, bind_Ok. cbv beta iota.
    rewrite Hlink, bind_Ok. reflexivity.
  - unfold get_all_seglink_gt. rewrite Hmatch, bind_Ok. cbv beta iota.
    rewrite Hlink, bind_Ok. reflexivity.
  - unfold normalize_seg_gt. destruct (image_shape cfg). apply length_map.
  - intros i t Hi. unfold normalize_seg_gt.
    destruct (image_shape cfg) as [h_I w_I].
    change (map ?f ?l) with (f <$> l). rewrite list_lookup_fmap, Hi.
    eexists. split; [reflexivity|]. cbn [r_cx r_cy r_w r_h r_theta fst snd].
    repeat split. apply Rdiv_1_r.
Qed.

(** How [get_all_seglink_gt] fails: on boxes that are not four points
    each the matcher's assertion fails; with fewer default anchors than
    the layers have cells the reshape of the labels raises, with more
    its final assertion fails. *)
Theorem get_all_seglink_gt_errors (cfg : config) (xs ys : list (list R))
    (normalize : bool) :
  (shape_N4 xs ys = false ->
   get_all_seglink_gt cfg xs ys normalize = Raise AssertionError) /\
  (shape_N4 xs ys = true ->
   length (default_anchors cfg) < num_anchors (feat_shapes cfg) ->
   get_all_seglink_gt cfg xs ys normalize = Raise ValueError) /\
  (shape_N4 xs ys = true ->
   num_anchors (feat_shapes cfg) < length (default_anchors cfg) ->
   get_all_seglink_gt cfg xs ys normalize = Raise AssertionError).
Proof.
  split; [|split].
  - intros Hshape. unfold get_all_seglink_gt, match_anchor_to_text_boxes.
    rewrite Hshape. reflexivity.
  - intros Hshape Hlen.
    destruct (match_anchor_to_text_boxes_rows cfg (default_anchors cfg) xs ys
                Hshape)
      as (match_labels & targets & Hmatch & Hl & _).
    unfold get_all_seglink_gt. rewrite Hmatch, bind_Ok. cbv beta iota.
    unfold cal_link_gt, reshape_labels_by_layer.
    rewrite reshape_labels_loop_short by lia. reflexivity.
  - intros Hshape Hlen.
    destruct (match_anchor_to_text_boxes_rows cfg (default_anchors cfg) xs ys
                Hshape)
      as (match_labels & targets & Hmatch & Hl & _).
    unfold get_all_seglink_gt. rewrite Hmatch, bind_Ok. cbv beta iota.
    unfold cal_link_gt, reshape_labels_by_layer.
    rewrite reshape_labels_loop by lia. rewrite bind_Ok. simpl.
    replace (num_anchors (feat_shapes cfg) =? length match_labels)
      with false; [reflexivity|].
    symmetry. apply Nat.eqb_neq. lia.
Qed.

End encoder_more.

(** On [demo_cfg]: two labels, two targets, twenty link labels. *)
Lemma get_all_seglink_gt_shapes_demo :
  exists labels seg_gt link_gt,
    @get_all_seglink_gt box_cv2 demo_cfg demo_xs demo_ys false
    = Ok (labels, seg_gt, link_gt) /\
    length labels = 2%nat /\ length seg_gt = 2%nat /\
    length link_gt = 20%nat.
Proof.
  apply (@get_all_seglink_gt_shapes box_cv2 demo_cfg demo_xs demo_ys false);
    [reflexivity | simpl; lia | reflexivity].
Defined.

Lemma get_all_seglink_gt_normalize_demo :
  exists labels targets seg_gt link_gt,
    @get_all_seglink_gt box_cv2 demo_cfg demo_xs demo_ys false
    = Ok (labels, targets, link_gt) /\
    @get_all_seglink_gt box_cv2 demo_cfg demo_xs demo_ys true
    = Ok (labels, seg_gt, link_gt) /\
    length seg_gt = length targets.
Proof.
  destruct (@get_all_seglink_gt_normalize box_cv2 demo_cfg demo_xs demo_ys)
    as (labels & targets & seg_gt & link_gt & H1 & H2 & H3 & _);
    [reflexivity | simpl; lia | reflexivity | simpl; lra |].
  exists labels, targets, seg_gt, link_gt. auto.
Defined.

(** ** Segment grouper: groups and chains of links *)

(** A loop whose steps keep [I] and keep [P], and one of whose steps
    leads from [I] to [P], leads from [I] to [P]. *)
Lemma foldM_reach {A S : Type} (I P : S -> Prop) (f : S -> A -> result S)
    (l : list A) (s : S) :
  (forall a s, a ∈ l -> I s -> exists s', f s a = Ok s' /\ I s') ->
  (forall a s, a ∈ l -> P s -> exists s', f s a = Ok s' /\ P s') ->
  (exists a, a ∈ l /\ forall s, I s -> exists s', f s a = Ok s' /\ P s') ->
  I s -> exists s', foldM f l s = Ok s' /\ P s'.
Proof.
  revert s. induction l as [|a0 l IH]; intros s HI HP (a & Ha & Hreach) Hs.
  - by apply elem_of_nil in Ha.
  - rewrite foldM_cons. apply elem_of_cons in Ha as [->|Ha].
    + destruct (Hreach s Hs) as (s' & -> & Hs'). rewrite bind_Ok.
      apply foldM_invariant; [exact Hs'|]. intros x t Hx. apply HP. by right.
    + destruct (HI a0 s) as (s' & -> & Hs'); [by left | exact Hs |].
      rewrite bind_Ok. apply IH; [ | | eauto | exact Hs'].
      * intros x t Hx. apply HI. by right.
      * intros x t Hx. apply HP. by right.
Qed.

(** A chain of qualifying links, each taken in either direction. *)
Inductive connected (cfg : config) (seg_scores : list Q)
    (idxs : list (array2 Z)) (inter cross : list (array3 Q))
  : Z -> Z -> Prop :=
| connected_refl a : connected cfg seg_scores idxs inter cross a a
| connected_link a b c :
    linked cfg seg_scores idxs inter cross a b \/
    linked cfg seg_scores idxs inter cross b a ->
    connected cfg seg_scores idxs inter cross b c ->
    connected cfg seg_scores idxs inter cross a c.

(** Two keys of one tree of the forest. *)
Definition same_root (mask : gmap Z Z) (a b : Z) : Prop :=
  exists r n1 n2, path mask a r n1 /\ path mask b r n2.

Section forest_more.
Local Open Scope Z_scope.

(** [union] puts its two keys in one tree, and keys of one tree stay in
    one tree. *)
Lemma union_roots (mask : gmap Z Z) (c d : Z) :
  forest mask -> is_Some (mask !! c) -> is_Some (mask !! d) ->
  exists mask', union mask c d = Ok mask' /\ same_root mask' c d /\
    forall a b, same_root mask a b -> same_root mask' a b.
Proof.
  intros Hforest Hc Hd.
  destruct (union_forest mask c d Hforest Hc Hd)
    as (mask' & r1 & r2 & n1 & n2 & Hrun & Hp1 & Hp2 & -> & _).
  eexists. split; [exact Hrun|].
  destruct (bool_decide_reflect (r1 = r2)) as [<-|Hne].
  - split; [by exists r1, n1, n2 | auto].
  - pose proof (path_root_parent _ _ _ _ Hp1) as Hr1.
    pose proof (path_root_parent _ _ _ _ Hp2) as Hr2.
    assert (Hr2' : r2 <> -1).
    { intros ->. destruct Hforest as [H _]. congruence. }
    assert (Hmove : forall i r n, path mask i r n ->
              exists n', path (<[r1 := r2]> mask) i
                           (if decide (r = r1) then r2 else r) n').
    { intros i r n Hp. destruct (decide (r = r1)) as [->|Hr].
      - exists (S n). by apply path_insert_root.
      - exists n. by apply path_insert_other. }
    split.
    + destruct (Hmove _ _ _ Hp1) as [n1' H1].
      destruct (Hmove _ _ _ Hp2) as [n2' H2].
      rewrite decide_True in H1 by done.
      rewrite decide_False in H2 by done. by exists r2, n1', n2'.
    + intros a b (r & na & nb & Ha & Hb).
      destruct (Hmove _ _ _ Ha) as [na' Ha'].
      destruct (Hmove _ _ _ Hb) as [nb' Hb'].
      by exists (if decide (r = r1) then r2 else r), na', nb'.
Qed.

Lemma same_root_trans (mask : gmap Z Z) (a b c : Z) :
  same_root mask a b -> same_root mask b c -> same_root mask a c.
Proof.
  intros (r & n1 & n2 & Ha & Hb) (r' & n2' & n3 & Hb' & Hc).
  destruct (path_functional _ _ _ _ _ _ Hb Hb') as [<- _].
  by exists r, n1, n3.
Qed.

End forest_more.

Section connected_facts.
Context (cfg : config) (seg_scores : list Q).
Context (idxs : list (array2 Z)) (inter cross : list (array3 Q)).
Local Open Scope Z_scope.

Local Abbreviation Connected := (connected cfg seg_scores idxs inter cross).

Lemma connected_trans (a b c : Z) :
  Connected a b -> Connected b c -> Connected a c.
Proof.
  induction 1 as [a|a b' b Hl _ IH]; [auto|].
  intros Hc. econstructor; [exact Hl | by apply IH].
Qed.

Lemma connected_one (a b : Z) :
  linked cfg seg_scores idxs inter cross a b \/
  linked cfg seg_scores idxs inter cross b a -> Connected a b.
Proof. intros Hl. econstructor; [exact Hl | constructor]. Qed.

Lemma connected_sym (a b : Z) : Connected a b -> Connected b a.
Proof.
  induction 1 as [a|a b' b Hl _ IH]; [constructor|].
  apply (connected_trans _ _ _ IH). apply connected_one. tauto.
Qed.

(** The ends of a chain pass the segment threshold when one does. *)
Lemma connected_valid (a b : Z) :
  Connected a b -> valid_seg cfg seg_scores a -> valid_seg cfg seg_scores b.
Proof.
  induction 1 as [a|a b' b Hl _ IH]; [auto|]. intros _. apply IH.
  destruct Hl as [(_ & H & _)|(H & _)]; exact H.
Qed.

Lemma path_connected (mask : gmap Z Z) i r n :
  (forall i p, mask !! i = Some p -> p <> -1 -> Connected i p) ->
  path mask i r n -> Connected i r.
Proof.
  intros Hedges. induction 1 as [i Hi|i p r n Hi Hne Hp IH]; [constructor|].
  apply (connected_trans _ p); [by apply Hedges | exact IH].
Qed.

End connected_facts.

Section grouper_more.
Local Open Scope Z_scope.
Context (cfg : config) (seg_scores : list Q).
Context (idxs : list (array2 Z)) (inter cross : list (array3 Q)).

Local Abbreviation Inv := (grouper_inv cfg seg_scores idxs inter cross).
Local Abbreviation Linked := (linked cfg seg_scores idxs inter cross).
Local Abbreviation Connected := (connected cfg seg_scores idxs inter cross).

(** A property of the dictionary that a union along a qualifying link
    keeps. *)
Definition keeps (I : gmap Z Z -> Prop) : Prop :=
  forall mask c d, I mask -> Linked c d ->
    exists mask', union mask c d = Ok mask' /\ I mask'.

Lemma keeps_same_root (a b : Z) :
  keeps (fun mask => Inv mask /\ same_root mask a b).
Proof.
  intros mask c d [HI Hab] Hl.
  destruct (union_inv cfg seg_scores idxs inter cross mask c d HI Hl)
    as (m1 & H1 & HI1).
  destruct HI as (Hf & Hkeys & _). destruct Hl as (Hc & Hd & _).
  destruct (union_roots mask c d Hf) as (m2 & H2 & _ & Hkeep);
    [by apply Hkeys | by apply Hkeys |].
  rewrite H1 in H2. injection H2 as <-. eauto.
Qed.

Lemma reach_same_root (a b : Z) :
  Linked a b -> forall mask, Inv mask ->
  exists mask', union mask a b = Ok mask' /\
                (Inv mask' /\ same_root mask' a b).
Proof.
  intros Hl mask HI.
  destruct (union_inv cfg seg_scores idxs inter cross mask a b HI Hl)
    as (m1 & H1 & HI1).
  destruct HI as (Hf & Hkeys & _). destruct Hl as (Hc & Hd & _).
  destruct (union_roots mask a b Hf) as (m2 & H2 & Hab & _);
    [by apply Hkeys | by apply Hkeys |].
  rewrite H1 in H2. injection H2 as <-. eauto.
Qed.

(** The parent links of the dictionary join ends of chains. *)
Definition chained (mask : gmap Z Z) : Prop :=
  forall i p, mask !! i = Some p -> p <> -1 -> Connected i p.

Lemma keeps_chained : keeps (fun mask => Inv mask /\ chained mask).
Proof.
  intros mask c d [HI Hch] Hl.
  destruct (union_inv cfg seg_scores idxs inter cross mask c d HI Hl)
    as (m1 & H1 & HI1).
  exists m1. split; [exact H1|]. split; [exact HI1|].
  destruct HI as (Hf & Hkeys & _). pose proof Hl as (Hc & Hd & _).
  destruct (union_forest mask c d Hf)
    as (m2 & r1 & r2 & n1 & n2 & H2 & Hp1 & Hp2 & Hm2 & _);
    [by apply Hkeys | by apply Hkeys |].
  rewrite H1 in H2. injection H2 as <-. subst m1.
  destruct (bool_decide_reflect (r1 = r2)) as [_|Hne]; [exact Hch|].
  intros i p Hip Hp. destruct (decide (i = r1)) as [->|Hi].
  - rewrite lookup_insert_eq in Hip. injection Hip as <-.
    apply (connected_trans _ _ _ _ _ _ c).
    { apply connected_sym. by apply (path_connected _ _ _ _ _ mask c r1 n1). }
    apply (connected_trans _ _ _ _ _ _ d).
    { apply connected_one. by left. }
    by apply (path_connected _ _ _ _ _ mask d r2 n2).
  - rewrite lookup_insert_ne in Hip by done. by apply Hch.
Qed.

(** The loop over the neighbours of a cell reaches [P] from [I] when one
    of its unions does. *)
Lemma group_neighbours_reach (n_idx : array2 Z) (link_score : array3 Q)
    (a x y : Z) (nbs : list (Z * Z)) (I P : gmap Z Z -> Prop)
    (b : Z) (k : nat) (nx ny : Z) (s : Q) :
  wf2 n_idx ->
  (forall v, v ∈ a2_data n_idx -> 0 <= v < Z.of_nat (length seg_scores)) ->
  wf3 link_score ->
  0 <= y < Z.of_nat (a3_h link_score) ->
  0 <= x < Z.of_nat (a3_w link_score) ->
  length nbs = a3_d link_score ->
  (forall J : gmap Z Z -> Prop, J = I \/ J = P ->
     forall mask b (k : nat) nx ny s,
     J mask -> nbs !! k = Some (nx, ny) -> get2 n_idx ny nx = Ok b ->
     valid_seg cfg seg_scores b ->
     get3 link_score y x (Z.of_nat k) = Ok s ->
     score_ge s (link_confidence_threshold cfg) = true ->
     exists mask', union mask a b = Ok mask' /\ J mask') ->
  nbs !! k = Some (nx, ny) -> get2 n_idx ny nx = Ok b ->
  valid_seg cfg seg_scores b ->
  get3 link_score y x (Z.of_nat k) = Ok s ->
  score_ge s (link_confidence_threshold cfg) = true ->
  (forall mask, I mask -> exists mask', union mask a b = Ok mask' /\ P mask') ->
  forall mask, I mask ->
  exists mask',
    group_neighbours cfg seg_scores n_idx (Z.of_nat (a2_w n_idx))
      (Z.of_nat (a2_h n_idx)) link_score a x y nbs mask = Ok mask' /\
    P mask'.
Proof.
  intros Hwf Hvals Hwf3 Hy Hx Hlen Hunion Hnb Hb Hvb Hs Hpass Hreach mask
    Hmask.
  unfold group_neighbours.
  match goal with
  | |- exists mask', foldM ?f _ _ = _ /\ _ => set (step := f)
  end.
  assert (Hstep : forall J : gmap Z Z -> Prop, J = I \/ J = P ->
            forall el m, el ∈ enumerate nbs -> J m ->
            exists m', step m el = Ok m' /\ J m').
  { intros J HJ [k' [nx' ny']] m Hin Hm. unfold step.
    apply list_elem_of_lookup in Hin as [i Hi].
    apply enumerate_lookup in Hi as [Hk Hnb']. simpl in Hk, Hnb'. subst i.
    destruct (is_valid_cord nx' ny' _ _) eqn:Hvalid; [|eauto].
    apply is_valid_cord_true in Hvalid as [Hnx Hny].
    destruct (get2_Ok n_idx ny' nx' Hwf Hny Hnx) as (b' & Hb' & Hbdata).
    rewrite Hb', bind_Ok.
    destruct (get1_Ok seg_scores b') as [sb Hsb].
    { apply Hvals. by apply list_elem_of_lookup_2 in Hbdata. }
    rewrite Hsb, bind_Ok.
    destruct (score_ge sb (seg_confidence_threshold cfg)) eqn:Hp; [|eauto].
    destruct (get3_Ok link_score y x (Z.of_nat k') Hwf3 Hy Hx)
      as (s' & Hs' & _).
    { apply lookup_lt_Some in Hnb'. lia. }
    rewrite Hs', bind_Ok.
    destruct (score_ge s' (link_confidence_threshold cfg)) eqn:Hlp; [|eauto].
    apply (Hunion J HJ m b' k' nx' ny' s'); try assumption. by exists sb. }
  apply (foldM_reach I P);
    [apply Hstep; by left | apply Hstep; by right | | exact Hmask].
  exists (k, (nx, ny)). split.
  { apply list_elem_of_lookup. exists k. by apply enumerate_lookup. }
  intros m Hm. unfold step.
  pose proof (get2_Ok_inv _ _ _ _ Hb) as (Hny & Hnx & _).
  rewrite (proj2 (is_valid_cord_true nx ny _ _)) by (split; assumption).
  rewrite Hb, bind_Ok. destruct Hvb as (sb & Hsb & Hp).
  rewrite Hsb, bind_Ok, Hp, Hs, bind_Ok, Hpass. by apply Hreach.
Qed.

(** What the loops over the cells of layer [l] read. *)
Hypothesis idxs_ok : forall l g, idxs !! l = Some g ->
  feat_shapes cfg !! l = Some (a2_h g, a2_w g) /\ wf2 g /\
  forall v, v ∈ a2_data g -> 0 <= v < Z.of_nat (length seg_scores).
Hypothesis inter_ok : forall l gt, inter !! l = Some gt ->
  feat_shapes cfg !! l = Some (a3_h gt, a3_w gt) /\ a3_d gt = 8%nat /\ wf3 gt.
Hypothesis cross_ok : forall l gt, cross !! l = Some gt ->
  feat_shapes cfg !! S l = Some (a3_h gt, a3_w gt) /\ a3_d gt = 4%nat /\
  wf3 gt.

(** [previous] is what [group_layer] binds for layer [l]. *)
Definition previous_exact (l : nat)
    (previous : option (array2 Z * (nat * nat) * array3 Q)) : Prop :=
  match previous with
  | None => l = 0%nat
  | Some (prev, (plh, plw), gt) =>
    (0 < l)%nat /\ idxs !! (l - 1)%nat = Some prev /\
    plh = a2_h prev /\ plw = a2_w prev /\ cross !! (l - 1)%nat = Some gt
  end.

(** The links of the cell [(x, y)] of layer [l] that qualify, but for
    the scores of the two segments. *)
Definition linked_at (l : nat) (idx : array2 Z) (x y b : Z) : Prop :=
  exists (k : nat) (nx ny : Z) (s : Q),
    score_ge s (link_confidence_threshold cfg) = true /\
    ((exists gt,
        get_inter_layer_neighbours x y !! k = Some (nx, ny) /\
        get2 idx ny nx = Ok b /\
        inter !! l = Some gt /\ get3 gt y x (Z.of_nat k) = Ok s) \/
     (exists prev gt,
        (0 < l)%nat /\ idxs !! (l - 1)%nat = Some prev /\
        get_cross_layer_neighbours x y !! k = Some (nx, ny) /\
        get2 prev ny nx = Ok b /\
        cross !! (l - 1)%nat = Some gt /\ get3 gt y x (Z.of_nat k) = Ok s)).

Lemma linked_at_linked (l : nat) (idx : array2 Z) (x y a b : Z) :
  idxs !! l = Some idx -> get2 idx y x = Ok a ->
  valid_seg cfg seg_scores a -> valid_seg cfg seg_scores b ->
  linked_at l idx x y b -> Linked a b.
Proof.
  intros Hidx Ha Hva Hvb (k & nx & ny & s & Hs & Hcase).
  split; [exact Hva|]. split; [exact Hvb|].
  exists l, idx, x, y, k, nx, ny, s. auto.
Qed.

Lemma linked_linked_at (a b : Z) :
  Linked a b ->
  exists l idx x y,
    idxs !! l = Some idx /\ get2 idx y x = Ok a /\ linked_at l idx x y b.
Proof.
  intros (_ & _ & l & idx & x & y & k & nx & ny & s & Hidx & Ha & Hs & Hcase).
  exists l, idx, x, y. split; [exact Hidx|]. split; [exact Ha|].
  exists k, nx, ny, s. auto.
Qed.

(** The unions of the two loops of a cell follow qualifying links. *)
Lemma cell_unions (l : nat) (idx : array2 Z) (gtI : array3 Q) (a x y : Z)
    (J : gmap Z Z -> Prop) :
  keeps J -> idxs !! l = Some idx -> inter !! l = Some gtI ->
  get2 idx y x = Ok a -> valid_seg cfg seg_scores a ->
  (forall mask b (k : nat) nx ny s,
     J mask -> get_inter_layer_neighbours x y !! k = Some (nx, ny) ->
     get2 idx ny nx = Ok b -> valid_seg cfg seg_scores b ->
     get3 gtI y x (Z.of_nat k) = Ok s ->
     score_ge s (link_confidence_threshold cfg) = true ->
     exists mask', union mask a b = Ok mask' /\ J mask') /\
  (forall prev gtC, (0 < l)%nat -> idxs !! (l - 1)%nat = Some prev ->
     cross !! (l - 1)%nat = Some gtC ->
     forall mask b (k : nat) nx ny s,
     J mask -> get_cross_layer_neighbours x y !! k = Some (nx, ny) ->
     get2 prev ny nx = Ok b -> valid_seg cfg seg_scores b ->
     get3 gtC y x (Z.of_nat k) = Ok s ->
     score_ge s (link_confidence_threshold cfg) = true ->
     exists mask', union mask a b = Ok mask' /\ J mask').
Proof.
  intros HJ Hidx HgtI Ha Hva. split.
  - intros m b k nx ny s Hm Hnb Hb Hvb Hs Hls. apply HJ; [exact Hm|].
    apply (linked_at_linked l idx x y); try assumption.
    exists k, nx, ny, s. split; [exact Hls|]. left. exists gtI. auto.
  - intros prev gtC Hl Hprev HgtC m b k nx ny s Hm Hnb Hb Hvb Hs Hls.
    apply HJ; [exact Hm|].
    apply (linked_at_linked l idx x y); try assumption.
    exists k, nx, ny, s. split; [exact Hls|]. right. exists prev, gtC.
    repeat (split; [assumption|]). assumption.
Qed.

Lemma group_cell_keeps (I : gmap Z Z -> Prop) (l : nat) (idx : array2 Z)
    (gtI : array3 Q) previous (mask : gmap Z Z) (y x : Z) :
  keeps I -> idxs !! l = Some idx -> inter !! l = Some gtI ->
  previous_exact l previous ->
  0 <= y < Z.of_nat (a2_h idx) -> 0 <= x < Z.of_nat (a2_w idx) ->
  I mask ->
  exists mask',
    group_cell cfg seg_scores idx (a2_h idx) (a2_w idx) gtI previous
      mask y x = Ok mask' /\ I mask'.
Proof.
  intros HI Hidx HgtI Hprev Hy Hx Hmask.
  destruct (idxs_ok l idx Hidx) as (Hshape & Hwf & Hvals).
  destruct (inter_ok l gtI HgtI) as (HshapeI & HdI & HwfI).
  assert (a3_h gtI = a2_h idx /\ a3_w gtI = a2_w idx) as [HhI HwI]
    by (split; congruence).
  destruct (get2_Ok idx y x Hwf Hy Hx) as (a & Ha & Hadata).
  unfold group_cell. rewrite Ha, bind_Ok.
  destruct (get1_Ok seg_scores a) as [sa Hsa].
  { apply Hvals. by apply list_elem_of_lookup_2 in Hadata. }
  rewrite Hsa, bind_Ok.
  destruct (score_ge sa (seg_confidence_threshold cfg)) eqn:Hpass; [|eauto].
  assert (Hva : valid_seg cfg seg_scores a) by by exists sa.
  destruct (cell_unions l idx gtI a x y I HI Hidx HgtI Ha Hva) as [HuI HuC].
  assert (Hinter : exists mask1,
            group_neighbours cfg seg_scores idx (Z.of_nat (a2_w idx))
              (Z.of_nat (a2_h idx)) gtI a x y
              (get_inter_layer_neighbours x y) mask = Ok mask1 /\
            I mask1).
  { apply (group_neighbours_inv cfg seg_scores idx gtI a x y _ I);
      try assumption; [lia | lia | by rewrite HdI]. }
  destruct Hinter as (mask1 & Hrun1 & Hmask1). rewrite Hrun1, bind_Ok.
  destruct previous as [[[prev [plh plw]] gtC]|]; [|eauto].
  destruct Hprev as (Hl & Hprev & -> & -> & HgtC).
  destruct (idxs_ok _ prev Hprev) as (_ & Hwfp & Hvalsp).
  destruct (cross_ok _ gtC HgtC) as (HshapeC & HdC & HwfC).
  replace (S (l - 1)) with l in HshapeC by lia.
  assert (a3_h gtC = a2_h idx /\ a3_w gtC = a2_w idx) as [HhC HwC]
    by (split; congruence).
  apply (group_neighbours_inv cfg seg_scores prev gtC a x y
           (get_cross_layer_neighbours x y) I);
    try assumption; [lia | lia | by rewrite HdC |].
  by apply HuC.
Qed.

(** The loops of the cell [(x, y)] of layer [l] reach [P] from [I] when
    the union along one of the cell's links does. *)
Lemma group_cell_reach (I P : gmap Z Z -> Prop) (a b : Z) (l : nat)
    (idx : array2 Z) (gtI : array3 Q) previous (mask : gmap Z Z) (y x : Z) :
  keeps I -> keeps P ->
  (forall mask, I mask -> exists mask', union mask a b = Ok mask' /\ P mask') ->
  idxs !! l = Some idx -> inter !! l = Some gtI ->
  previous_exact l previous ->
  get2 idx y x = Ok a ->
  valid_seg cfg seg_scores a -> valid_seg cfg seg_scores b ->
  linked_at l idx x y b ->
  I mask ->
  exists mask',
    group_cell cfg seg_scores idx (a2_h idx) (a2_w idx) gtI previous
      mask y x = Ok mask' /\ P mask'.
Proof.
  intros HI HP Hreach Hidx HgtI Hprev Ha Hva Hvb Hlink Hmask.
  destruct (idxs_ok l idx Hidx) as (Hshape & Hwf & Hvals).
  destruct (inter_ok l gtI HgtI) as (HshapeI & HdI & HwfI).
  assert (a3_h gtI = a2_h idx /\ a3_w gtI = a2_w idx) as [HhI HwI]
    by (split; congruence).
  pose proof (get2_Ok_inv _ _ _ _ Ha) as (Hy & Hx & _).
  unfold group_cell. rewrite Ha, bind_Ok.
  destruct Hva as (sa & Hsa & Hpass). rewrite Hsa, bind_Ok, Hpass.
  assert (Hva : valid_seg cfg seg_scores a) by by exists sa.
  destruct (cell_unions l idx gtI a x y I HI Hidx HgtI Ha Hva) as [HuI HuC].
  destruct (cell_unions l idx gtI a x y P HP Hidx HgtI Ha Hva) as [HuI' HuC'].
  destruct Hlink as (k & nx & ny & s & Hs & [Hcase|Hcase]).
  - (* a link of the layer *)
    destruct Hcase as (gt & Hnb & Hb & Hgt & Hget).
    assert (gt = gtI) as -> by congruence.
    assert (Hinter : exists mask1,
              group_neighbours cfg seg_scores idx (Z.of_nat (a2_w idx))
                (Z.of_nat (a2_h idx)) gtI a x y
                (get_inter_layer_neighbours x y) mask = Ok mask1 /\
              P mask1).
    { apply (group_neighbours_reach idx gtI a x y _ I P b k nx ny s);
        try assumption; [lia | lia | by rewrite HdI |].
      intros J [->| ->]; assumption. }
    destruct Hinter as (mask1 & Hrun1 & Hmask1). rewrite Hrun1, bind_Ok.
    destruct previous as [[[prev [plh plw]] gtC]|]; [|eauto].
    destruct Hprev as (Hl & Hprev & -> & -> & HgtC).
    destruct (idxs_ok _ prev Hprev) as (_ & Hwfp & Hvalsp).
    destruct (cross_ok _ gtC HgtC) as (HshapeC & HdC & HwfC).
    replace (S (l - 1)) with l in HshapeC by lia.
    assert (a3_h gtC = a2_h idx /\ a3_w gtC = a2_w idx) as [HhC HwC]
      by (split; congruence).
    apply (group_neighbours_inv cfg seg_scores prev gtC a x y
             (get_cross_layer_neighbours x y) P);
      try assumption; [lia | lia | by rewrite HdC |].
    by apply HuC'.
  - (* a link to the previous layer *)
    destruct Hcase as (prev & gt & Hl & Hp & Hnb & Hb & Hgt & Hget).
    assert (Hinter : exists mask1,
              group_neighbours cfg seg_scores idx (Z.of_nat (a2_w idx))
                (Z.of_nat (a2_h idx)) gtI a x y
                (get_inter_layer_neighbours x y) mask = Ok mask1 /\
              I mask1).
    { apply (group_neighbours_inv cfg seg_scores idx gtI a x y _ I);
        try assumption; [lia | lia | by rewrite HdI]. }
    destruct Hinter as (mask1 & Hrun1 & Hmask1). rewrite Hrun1, bind_Ok.
    destruct previous as [[[prev' [plh plw]] gtC]|]; [|simpl in Hprev; lia].
    destruct Hprev as (_ & Hprev & -> & -> & HgtC).
    assert (prev' = prev) as -> by congruence.
    assert (gtC = gt) as -> by congruence.
    destruct (idxs_ok _ prev Hprev) as (_ & Hwfp & Hvalsp).
    destruct (cross_ok _ gt HgtC) as (HshapeC & HdC & HwfC).
    replace (S (l - 1)) with l in HshapeC by lia.
    assert (a3_h gt = a2_h idx /\ a3_w gt = a2_w idx) as [HhC HwC]
      by (split; congruence).
    apply (group_neighbours_reach prev gt a x y _ I P b k nx ny s);
      try assumption; [lia | lia | by rewrite HdC |].
    intros J [->| ->]; [by apply HuC | by apply HuC'].
Qed.

Hypothesis idxs_length : length idxs = length (feat_shapes cfg).
Hypothesis inter_length : length inter = length (feat_shapes cfg).
Hypothesis cross_length : length cross = (length (feat_shapes cfg) - 1)%nat.

(** The body of the loop over the layers, once its arrays are bound. *)
Lemma group_layer_loops (l lh lw : nat) :
  feat_shapes cfg !! l = Some (lh, lw) ->
  exists idx gtI previous,
    idxs !! l = Some idx /\ inter !! l = Some gtI /\
    lh = a2_h idx /\ lw = a2_w idx /\ previous_exact l previous /\
    forall mask,
      group_layer cfg seg_scores idxs inter cross mask (l, (lh, lw))
      = foldM (fun mask y =>
                 foldM (fun mask x =>
                          group_cell cfg seg_scores idx lh lw gtI previous
                            mask y x)
                       (seqZ 0 (Z.of_nat lw)) mask)
              (seqZ 0 (Z.of_nat lh)) mask.
Proof.
  intros Hshape. pose proof (lookup_lt_Some _ _ _ Hshape) as Hllt.
  destruct (lookup_lt_is_Some_2 idxs l) as [idx Hidx]; [lia|].
  destruct (lookup_lt_is_Some_2 inter l) as [gtI HgtI]; [lia|].
  destruct (idxs_ok l idx Hidx) as (Hshape' & _).
  assert (lh = a2_h idx /\ lw = a2_w idx) as [-> ->] by (split; congruence).
  assert (Hprev : exists previous,
            (if (0 <? l)%nat then
               previous_layer_seg_index ←
                 py_get KeyError idxs (l - 1);
               previous_layer_shape ←
                 py_get KeyError (feat_shapes cfg) (l - 1);
               layer_cross_link_score ←
                 py_get KeyError cross (l - 1);
               Ok (Some (previous_layer_seg_index, previous_layer_shape,
                         layer_cross_link_score))
             else Ok None) = Ok previous /\ previous_exact l previous).
  { destruct (Nat.ltb_spec 0 l) as [Hl|Hl].
    - destruct (lookup_lt_is_Some_2 idxs (l - 1)) as [prev Hp]; [lia|].
      destruct (lookup_lt_is_Some_2 cross (l - 1)) as [gtC HgtC]; [lia|].
      destruct (idxs_ok _ prev Hp) as (Hps & _).
      rewrite (py_get_Ok _ _ _ _ Hp), bind_Ok.
      rewrite (py_get_Ok _ _ _ _ Hps), bind_Ok.
      rewrite (py_get_Ok _ _ _ _ HgtC), bind_Ok.
      eexists. split; [reflexivity|]. simpl. auto.
    - exists None. split; [reflexivity | simpl; lia]. }
  destruct Hprev as (previous & Hrun & Hprev).
  exists idx, gtI, previous. repeat (split; [done|]).
  intros mask. unfold group_layer.
  rewrite (py_get_Ok _ _ _ _ Hidx), bind_Ok.
  rewrite (py_get_Ok _ _ _ _ HgtI), bind_Ok.
  rewrite Hrun, bind_Ok. reflexivity.
Qed.

Lemma group_layer_keeps (I : gmap Z Z -> Prop) (mask : gmap Z Z)
    (layer : nat * (nat * nat)) :
  keeps I -> layer ∈ enumerate (feat_shapes cfg) -> I mask ->
  exists mask',
    group_layer cfg seg_scores idxs inter cross mask layer = Ok mask' /\
    I mask'.
Proof.
  intros HI Hin Hmask. destruct layer as [l [lh lw]].
  apply list_elem_of_lookup in Hin as [i Hi].
  apply enumerate_lookup in Hi as [Hl Hshape]. simpl in Hl, Hshape. subst i.
  destruct (group_layer_loops l lh lw Hshape)
    as (idx & gtI & previous & Hidx & HgtI & -> & -> & Hprev & ->).
  apply foldM_invariant; [exact Hmask|].
  intros y m Hy%elem_of_seqZ Hm.
  apply foldM_invariant; [exact Hm|].
  intros x m' Hx%elem_of_seqZ Hm'.
  apply (group_cell_keeps I l); try assumption; lia.
Qed.

(** The loops over the layers reach [P] from [I] when the union along
    one qualifying link does. *)
Lemma group_layers_reach (I P : gmap Z Z -> Prop) (a b : Z)
    (mask : gmap Z Z) :
  keeps I -> keeps P ->
  (forall mask, I mask -> exists mask', union mask a b = Ok mask' /\ P mask') ->
  Linked a b -> I mask ->
  exists mask',
    foldM (group_layer cfg seg_scores idxs inter cross)
          (enumerate (feat_shapes cfg)) mask = Ok mask' /\ P mask'.
Proof.
  intros HI HP Hreach Hlink Hmask.
  pose proof Hlink as (Hva & Hvb & _).
  destruct (linked_linked_at a b Hlink)
    as (l & idx0 & x & y & Hidx0 & Ha & Hat).
  destruct (idxs_ok l idx0 Hidx0) as (Hshape & _).
  apply (foldM_reach I P); [| | |exact Hmask].
  - intros layer m Hin Hm. by apply group_layer_keeps.
  - intros layer m Hin Hm. by apply group_layer_keeps.
  - exists (l, (a2_h idx0, a2_w idx0)). split.
    { apply list_elem_of_lookup. exists l. by apply enumerate_lookup. }
    intros m Hm.
    destruct (group_layer_loops l _ _ Hshape)
      as (idx & gtI & previous & Hidx & HgtI & Hh & Hw & Hprev & ->).
    assert (idx = idx0) as -> by congruence.
    pose proof (get2_Ok_inv _ _ _ _ Ha) as (Hy & Hx & _).
    apply (foldM_reach I P); [| | |exact Hm].
    + intros y' m1 Hy'%elem_of_seqZ Hm1.
      apply foldM_invariant; [exact Hm1|].
      intros x' m2 Hx'%elem_of_seqZ Hm2.
      apply (group_cell_keeps I l); try assumption; lia.
    + intros y' m1 Hy'%elem_of_seqZ Hm1.
      apply foldM_invariant; [exact Hm1|].
      intros x' m2 Hx'%elem_of_seqZ Hm2.
      apply (group_cell_keeps P l); try assumption; lia.
    + exists y. split; [apply elem_of_seqZ; lia|].
      intros m1 Hm1. apply (foldM_reach I P); [| | |exact Hm1].
      * intros x' m2 Hx'%elem_of_seqZ Hm2.
        apply (group_cell_keeps I l); try assumption; lia.
      * intros x' m2 Hx'%elem_of_seqZ Hm2.
        apply (group_cell_keeps P l); try assumption; lia.
      * exists x. split; [apply elem_of_seqZ; lia|].
        intros m2 Hm2.
        by apply (group_cell_reach I P a b l idx0 gtI previous m2 y x).
Qed.

(** After the loops the two ends of every qualifying link are in one
    tree. *)
Lemma group_layers_linked (mask0 : gmap Z Z) :
  Inv mask0 ->
  exists mask,
    foldM (group_layer cfg seg_scores idxs inter cross)
          (enumerate (feat_shapes cfg)) mask0 = Ok mask /\
    Inv mask /\ forall a b, Linked a b -> same_root mask a b.
Proof.
  intros Hmask0.
  destruct (foldM_invariant Inv
              (group_layer cfg seg_scores idxs inter cross)
              (enumerate (feat_shapes cfg)) mask0 Hmask0)
    as (mask & Hrun & Hmask).
  { intros layer m Hin Hm. apply (group_layer_keeps Inv); try assumption.
    intros m' c d. apply union_inv. }
  exists mask. split; [exact Hrun|]. split; [exact Hmask|].
  intros a b Hlink.
  destruct (group_layers_reach Inv
              (fun mask => Inv mask /\ same_root mask a b) a b mask0)
    as (mask' & Hrun' & _ & Hab); try assumption.
  - intros m' c d. apply union_inv.
  - apply keeps_same_root.
  - by apply reach_same_root.
  - rewrite Hrun in Hrun'. by injection Hrun' as <-.
Qed.

(** After the loops every parent link joins the ends of a chain. *)
Lemma group_layers_chained (mask0 : gmap Z Z) :
  Inv mask0 -> chained mask0 ->
  exists mask,
    foldM (group_layer cfg seg_scores idxs inter cross)
          (enumerate (feat_shapes cfg)) mask0 = Ok mask /\
    Inv mask /\ chained mask.
Proof.
  intros Hmask0 Hch.
  apply (foldM_invariant (fun mask => Inv mask /\ chained mask));
    [by split|].
  intros layer m Hin Hm.
  apply (group_layer_keeps (fun mask => Inv mask /\ chained mask));
    try assumption.
  apply keeps_chained.
Qed.

End grouper_more.

Section grouper_components.
Local Open Scope Z_scope.

(** The arrays [group_segs] cuts from its two vectors, and what its
    loops read from them. *)
Lemma group_segs_arrays (cfg : config) (seg_scores link_scores : list Q) :
  length seg_scores = num_anchors (feat_shapes cfg) ->
  length link_scores = num_links (feat_shapes cfg) ->
  exists idxs inter cross,
    reshape_labels_by_layer (feat_shapes cfg)
      (seqZ 0 (Z.of_nat (length seg_scores))) = Ok idxs /\
    reshape_link_gt_by_layer (feat_shapes cfg) link_scores
    = Ok (inter, cross) /\
    (forall l g, idxs !! l = Some g ->
       feat_shapes cfg !! l = Some (a2_h g, a2_w g) /\ wf2 g /\
       forall v, v ∈ a2_data g -> 0 <= v < Z.of_nat (length seg_scores)) /\
    (forall l gt, inter !! l = Some gt ->
       feat_shapes cfg !! l = Some (a3_h gt, a3_w gt) /\
       a3_d gt = 8%nat /\ wf3 gt) /\
    (forall l gt, cross !! l = Some gt ->
       feat_shapes cfg !! S l = Some (a3_h gt, a3_w gt) /\
       a3_d gt = 4%nat /\ wf3 gt) /\
    length idxs = length (feat_shapes cfg) /\
    length inter = length (feat_shapes cfg) /\
    length cross = (length (feat_shapes cfg) - 1)%nat.
Proof.
  intros Hseg Hlink. set (shapes := feat_shapes cfg) in *.
  set (seg_indexes := seqZ 0 (Z.of_nat (length seg_scores))).
  assert (Hidx_len : length seg_indexes = num_anchors shapes).
  { unfold seg_indexes. rewrite length_seqZ. lia. }
  exists (layers_from seg_indexes shapes 0),
    (cubes_from link_scores shapes 8 0),
    (cubes_from link_scores (drop 1 shapes) 4 (num_cells shapes 8)).
  split; [by apply reshape_labels_by_layer_Ok|].
  split; [by apply reshape_link_gt_by_layer_Ok|].
  unfold num_links in Hlink. fold shapes in Hlink.
  split; [|split; [|split; [|split; [|split]]]].
  - intros l g Hg.
    destruct (layers_from_lookup seg_indexes shapes 0%nat l g)
      as (H1 & H2 & _); [lia | exact Hg |].
    split; [exact H1|]. split; [exact H2|].
    intros v Hv. apply (layers_from_elem _ _ _ _ _ _ Hg) in Hv.
    apply elem_of_seqZ in Hv. lia.
  - intros l gt Hgt.
    apply (cubes_from_lookup link_scores shapes 8 0%nat l gt);
      [lia | exact Hgt].
  - intros l gt Hgt.
    destruct (cubes_from_lookup link_scores (drop 1 shapes) 4
                (num_cells shapes 8) l gt) as (H1 & H2 & H3);
      [lia | exact Hgt |].
    rewrite lookup_drop in H1. auto.
  - apply layers_from_length.
  - apply cubes_from_length.
  - rewrite cubes_from_length, length_drop. reflexivity.
Qed.

(** The groups [to_list] returns are the trees of the forest. *)
Lemma to_list_trees (mask : gmap Z Z) :
  forest mask ->
  exists groups,
    to_list mask = Ok groups /\
    (forall a b, same_root mask a b ->
       exists g, g ∈ groups /\ a ∈ g /\ b ∈ g) /\
    (forall g a b, g ∈ groups -> a ∈ g -> b ∈ g -> same_root mask a b).
Proof.
  intros Hforest.
  destruct (to_list_spec mask Hforest)
    as (groups & res & Hlist & Hgroups & Hmem & Hres & Hfound).
  exists groups. split; [exact Hlist|].
  assert (Hkey : forall a, is_Some (mask !! a) ->
                           a ∈ map fst (map_to_list mask)).
  { intros a [v Hv]. change (map fst ?x) with (fst <$> x).
    apply list_elem_of_fmap. exists (a, v). split; [reflexivity|].
    by apply elem_of_map_to_list. }
  split.
  - intros a b (r & n1 & n2 & Ha & Hb).
    destruct (Hfound a r n1) as (l & Hl & Hal);
      [by eapply Hkey, path_is_Some | exact Ha |].
    destruct (Hfound b r n2) as (l' & Hl' & Hbl);
      [by eapply Hkey, path_is_Some | exact Hb |].
    assert (l' = l) as -> by congruence.
    exists l. split; [|auto]. subst groups.
    change (map snd ?x) with (snd <$> x).
    apply list_elem_of_fmap. exists (r, l). split; [reflexivity|].
    by apply elem_of_map_to_list.
  - intros g a b Hg Ha Hb. subst groups.
    change (map snd ?x) with (snd <$> x) in Hg.
    apply list_elem_of_fmap in Hg as ([r g'] & -> & Hrg%elem_of_map_to_list).
    simpl in Ha, Hb. destruct (Hres r g' Hrg) as [_ Hpaths].
    destruct (Hpaths a Ha) as [n1 H1]. destruct (Hpaths b Hb) as [n2 H2].
    by exists r, n1, n2.
Qed.

(** The two segments of a qualifying link are in one group of
    [group_segs]: the neighbour's score, the link's score and the
    neighbour's cell are the ones the source compares. *)
Theorem group_segs_linked_together (cfg : config)
    (seg_scores link_scores : list Q) :
  length seg_scores = num_anchors (feat_shapes cfg) ->
  length link_scores = num_links (feat_shapes cfg) ->
  exists groups idxs inter cross,
    group_segs cfg seg_scores link_scores = Ok groups /\
    reshape_labels_by_layer (feat_shapes cfg)
      (seqZ 0 (Z.of_nat (length seg_scores))) = Ok idxs /\
    reshape_link_gt_by_layer (feat_shapes cfg) link_scores
    = Ok (inter, cross) /\
    forall a b, linked cfg seg_scores idxs inter cross a b ->
      exists g, g ∈ groups /\ a ∈ g /\ b ∈ g.
Proof.
  intros Hseg Hlink.
  destruct (group_segs_arrays cfg seg_scores link_scores Hseg Hlink)
    as (idxs & inter & cross & Hre1 & Hre2 & Hidxs & Hinter & Hcross
        & Hl1 & Hl2 & Hl3).
  destruct (group_layers_linked cfg seg_scores idxs inter cross
              Hidxs Hinter Hcross Hl1 Hl2 Hl3
              (foldl (fun (mask : gmap Z Z) s => <[s := -1]> mask) ∅
                     (valid_segs cfg seg_scores)))
    as (mask & Hloops & (Hforest & _) & Hsame);
    [apply initial_mask_inv|].
  destruct (to_list_trees mask Hforest) as (groups & Hlist & Hin & _).
  exists groups, idxs, inter, cross.
  split; [|split; [exact Hre1|split; [exact Hre2|]]].
  - unfold group_segs. rewrite Hre1, bind_Ok, Hre2, bind_Ok. cbv beta iota.
    rewrite Hloops, bind_Ok. exact Hlist.
  - intros a b Hab. by apply Hin, Hsame.
Qed.

(** Two members of one group of [group_segs] are the ends of a chain of
    qualifying links: segments that no chain joins are in different
    groups. *)
Theorem group_segs_group_connected (cfg : config)
    (seg_scores link_scores : list Q) :
  length seg_scores = num_anchors (feat_shapes cfg) ->
  length link_scores = num_links (feat_shapes cfg) ->
  exists groups idxs inter cross,
    group_segs cfg seg_scores link_scores = Ok groups /\
    reshape_labels_by_layer (feat_shapes cfg)
      (seqZ 0 (Z.of_nat (length seg_scores))) = Ok idxs /\
    reshape_link_gt_by_layer (feat_shapes cfg) link_scores
    = Ok (inter, cross) /\
    forall g a b, g ∈ groups -> a ∈ g -> b ∈ g ->
      connected cfg seg_scores idxs inter cross a b.
Proof.
  intros Hseg Hlink.
  destruct (group_segs_arrays cfg seg_scores link_scores Hseg Hlink)
    as (idxs & inter & cross & Hre1 & Hre2 & Hidxs & Hinter & Hcross
        & Hl1 & Hl2 & Hl3).
  destruct (group_layers_chained cfg seg_scores idxs inter cross
              Hidxs Hinter Hcross Hl1 Hl2 Hl3
              (foldl (fun (mask : gmap Z Z) s => <[s := -1]> mask) ∅
                     (valid_segs cfg seg_scores)))
    as (mask & Hloops & (Hforest & _) & Hch).
  { apply initial_mask_inv. }
  { intros i p Hp Hne. rewrite initial_mask_lookup, lookup_empty in Hp.
    destruct (bool_decide _); congruence. }
  destruct (to_list_trees mask Hforest) as (groups & Hlist & _ & Hout).
  exists groups, idxs, inter, cross.
  split; [|split; [exact Hre1|split; [exact Hre2|]]].
  - unfold group_segs. rewrite Hre1, bind_Ok, Hre2, bind_Ok. cbv beta iota.
    rewrite Hloops, bind_Ok. exact Hlist.
  - intros g a b Hg Ha Hb.
    destruct (Hout g a b Hg Ha Hb) as (r & n1 & n2 & H1 & H2).
    apply (connected_trans _ _ _ _ _ _ r).
    + by apply (path_connected _ _ _ _ _ mask a r n1).
    + apply connected_sym. by apply (path_connected _ _ _ _ _ mask b r n2).
Qed.

End grouper_components.

(** ** Segment grouper and decoder: failures and empty results *)

Section reshape_failures.
Context {A : Type}.
Local Open Scope nat_scope.

Lemma reshape_labels_by_layer_short shapes (v : list A) :
  length v < num_anchors shapes ->
  reshape_labels_by_layer shapes v = Raise ValueError.
Proof.
  intros Hlen. unfold reshape_labels_by_layer.
  rewrite reshape_labels_loop_short by lia. reflexivity.
Qed.

Lemma reshape_labels_by_layer_long shapes (v : list A) :
  num_anchors shapes < length v ->
  reshape_labels_by_layer shapes v = Raise AssertionError.
Proof.
  intros Hlen. unfold reshape_labels_by_layer.
  rewrite reshape_labels_loop by lia. rewrite bind_Ok. simpl.
  replace (num_anchors shapes =? length v) with false; [reflexivity|].
  symmetry. apply Nat.eqb_neq. lia.
Qed.

Lemma reshape_link_gt_by_layer_short shapes (v : list A) :
  length v < num_links shapes ->
  reshape_link_gt_by_layer shapes v = Raise ValueError.
Proof.
  unfold num_links. intros Hlen. unfold reshape_link_gt_by_layer.
  destruct (le_lt_dec (num_cells shapes 8) (length v)) as [Hfit|Hshort].
  - rewrite (reshape_links_loop v 8) by lia. rewrite bind_Ok. simpl.
    rewrite (reshape_links_loop_short v 4) by lia. reflexivity.
  - rewrite (reshape_links_loop_short v 8) by lia. reflexivity.
Qed.

Lemma reshape_link_gt_by_layer_long shapes (v : list A) :
  num_links shapes < length v ->
  reshape_link_gt_by_layer shapes v = Raise AssertionError.
Proof.
  unfold num_links. intros Hlen. unfold reshape_link_gt_by_layer.
  rewrite (reshape_links_loop v 8) by lia. rewrite bind_Ok. simpl.
  rewrite (reshape_links_loop v 4) by lia. rewrite bind_Ok. simpl.
  replace (_ =? length v) with false; [reflexivity|].
  symmetry. apply Nat.eqb_neq. lia.
Qed.

Lemma reshape_labels_by_layer_Ok_length shapes (v : list A) layers :
  reshape_labels_by_layer shapes v = Ok layers ->
  length v = num_anchors shapes.
Proof.
  intros Hrun.
  destruct (lt_eq_lt_dec (length v) (num_anchors shapes)) as [[Hlt|Heq]|Hgt];
    [|exact Heq|].
  - rewrite reshape_labels_by_layer_short in Hrun by exact Hlt. discriminate.
  - rewrite reshape_labels_by_layer_long in Hrun by exact Hgt. discriminate.
Qed.

Lemma reshape_link_gt_by_layer_Ok_length shapes (v : list A) cubes :
  reshape_link_gt_by_layer shapes v = Ok cubes ->
  length v = num_links shapes.
Proof.
  intros Hrun.
  destruct (lt_eq_lt_dec (length v) (num_links shapes)) as [[Hlt|Heq]|Hgt];
    [|exact Heq|].
  - rewrite reshape_link_gt_by_layer_short in Hrun by exact Hlt. discriminate.
  - rewrite reshape_link_gt_by_layer_long in Hrun by exact Hgt. discriminate.
Qed.

End reshape_failures.

(** A loop one of whose steps always raises, raises. *)
Lemma foldM_raises {A S : Type} (f : S -> A -> result S) (l : list A)
    (a : A) :
  a ∈ l -> (forall s, exists e, f s a = Raise e) ->
  forall s, exists e, foldM f l s = Raise e.
Proof.
  intros Ha Hraise. induction l as [|a0 l IH]; intros s;
    [by apply elem_of_nil in Ha|].
  rewrite foldM_cons. destruct (f s a0) as [s'|e] eqn:Hstep.
  - rewrite bind_Ok. apply elem_of_cons in Ha as [->|Ha]; [|by apply IH].
    destruct (Hraise s) as [e He]. congruence.
  - by exists e.
Qed.

Section grouper_failures.
Local Open Scope Z_scope.

(** [group_segs] on vectors of the wrong lengths: too few segment scores
    or link scores and a reshape raises, too many and the final
    assertion of the reshape fails; the segment scores are looked at
    first. *)
Theorem group_segs_wrong_sizes (cfg : config)
    (seg_scores link_scores : list Q) :
  ((length seg_scores < num_anchors (feat_shapes cfg))%nat ->
   group_segs cfg seg_scores link_scores = Raise ValueError) /\
  ((num_anchors (feat_shapes cfg) < length seg_scores)%nat ->
   group_segs cfg seg_scores link_scores = Raise AssertionError) /\
  (length seg_scores = num_anchors (feat_shapes cfg) ->
   (length link_scores < num_links (feat_shapes cfg))%nat ->
   group_segs cfg seg_scores link_scores = Raise ValueError) /\
  (length seg_scores = num_anchors (feat_shapes cfg) ->
   (num_links (feat_shapes cfg) < length link_scores)%nat ->
   group_segs cfg seg_scores link_scores = Raise AssertionError).
Proof.
  assert (Hlen : length (seqZ 0 (Z.of_nat (length seg_scores)))
                 = length seg_scores)
    by (rewrite length_seqZ; lia).
  unfold group_segs. split; [|split; [|split]].
  - intros H. rewrite reshape_labels_by_layer_short by lia. reflexivity.
  - intros H. rewrite reshape_labels_by_layer_long by lia. reflexivity.
  - intros H1 H2. rewrite reshape_labels_by_layer_Ok by lia.
    rewrite bind_Ok, reshape_link_gt_by_layer_short by lia. reflexivity.
  - intros H1 H2. rewrite reshape_labels_by_layer_Ok by lia.
    rewrite bind_Ok, reshape_link_gt_by_layer_long by lia. reflexivity.
Qed.

(** When no segment score passes the threshold there is no group, and
    the decoder returns no box. *)
Theorem group_segs_none_valid (cfg : config)
    (seg_scores link_scores : list Q) (segs : list rect) :
  length seg_scores = num_anchors (feat_shapes cfg) ->
  length link_scores = num_links (feat_shapes cfg) ->
  (forall s, s ∈ seg_scores ->
     score_ge s (seg_confidence_threshold cfg) = false) ->
  group_segs cfg seg_scores link_scores = Ok [] /\
  seglink_to_bbox cfg seg_scores link_scores segs = Ok [].
Proof.
  intros Hseg Hlink Hnone.
  destruct (group_segs_arrays cfg seg_scores link_scores Hseg Hlink)
    as (idxs & inter & cross & Hre1 & Hre2 & Hidxs & Hinter & Hcross
        & Hl1 & Hl2 & Hl3).
  destruct (group_layers_inv cfg seg_scores idxs inter cross
              Hidxs Hinter Hcross Hl1 Hl2 Hl3
              (foldl (fun (mask : gmap Z Z) s => <[s := -1]> mask) ∅
                     (valid_segs cfg seg_scores)))
    as (mask & Hloops & _ & Hkeys & _); [apply initial_mask_inv|].
  assert (Hempty : mask = ∅).
  { apply map_empty. intros k. apply eq_None_not_Some. intros Hk.
    apply Hkeys in Hk as (s & [_ Hs]%get1_lookup & Hpass).
    apply list_elem_of_lookup_2, Hnone in Hs. congruence. }
  subst mask.
  assert (Hgroups : group_segs cfg seg_scores link_scores = Ok []).
  { unfold group_segs. rewrite Hre1, bind_Ok, Hre2, bind_Ok. cbv beta iota.
    rewrite Hloops, bind_Ok. unfold to_list. rewrite map_to_list_empty.
    simpl. by rewrite map_to_list_empty. }
  split; [exact Hgroups|]. unfold seglink_to_bbox.
  rewrite Hgroups, bind_Ok. reflexivity.
Qed.

Lemma group_segs_none_valid_demo :
  group_segs demo_cfg [1 # 10; 1 # 10]%Q (replicate 20 (9 # 10)%Q) = Ok [] /\
  seglink_to_bbox demo_cfg [1 # 10; 1 # 10]%Q (replicate 20 (9 # 10)%Q) []
  = Ok [].
Proof.
  apply (group_segs_none_valid demo_cfg [1 # 10; 1 # 10]%Q
           (replicate 20 (9 # 10)%Q) []); [reflexivity | reflexivity |].
  intros s [->|[->|Hs%elem_of_nil]%elem_of_cons]%elem_of_cons;
    [reflexivity | reflexivity | contradiction].
Defined.

End grouper_failures.

Section decoder_failures.
Local Open Scope Z_scope.

(** A chain from a segment that no qualifying link touches is empty. *)
Lemma connected_isolated cfg seg_scores idxs inter cross (a b : Z) :
  (forall c, ~ linked cfg seg_scores idxs inter cross a c /\
             ~ linked cfg seg_scores idxs inter cross c a) ->
  connected cfg seg_scores idxs inter cross a b -> b = a.
Proof.
  intros Hfree Hc. destruct Hc as [a|a c b Hl _]; [reflexivity|].
  destruct (Hfree c) as [H1 H2]. tauto.
Qed.

(** A segment that passes the threshold and that no qualifying link
    touches is a group of its own. *)
Lemma group_segs_isolated (cfg : config) (seg_scores link_scores : list Q)
    idxs inter cross (a : Z) :
  reshape_labels_by_layer (feat_shapes cfg)
    (seqZ 0 (Z.of_nat (length seg_scores))) = Ok idxs ->
  reshape_link_gt_by_layer (feat_shapes cfg) link_scores
  = Ok (inter, cross) ->
  valid_seg cfg seg_scores a ->
  (forall c, ~ linked cfg seg_scores idxs inter cross a c /\
             ~ linked cfg seg_scores idxs inter cross c a) ->
  exists groups,
    group_segs cfg seg_scores link_scores = Ok groups /\ [a] ∈ groups.
Proof.
  intros Hre1 Hre2 Hva Hfree.
  assert (Hseg : length seg_scores = num_anchors (feat_shapes cfg)).
  { apply reshape_labels_by_layer_Ok_length in Hre1.
    rewrite length_seqZ in Hre1. lia. }
  pose proof (reshape_link_gt_by_layer_Ok_length _ _ _ Hre2) as Hlink.
  destruct (group_segs_arrays cfg seg_scores link_scores Hseg Hlink)
    as (idxs' & inter' & cross' & Hre1' & Hre2' & Hidxs & Hinter & Hcross
        & Hl1 & Hl2 & Hl3).
  rewrite Hre1 in Hre1'. injection Hre1' as <-.
  rewrite Hre2 in Hre2'. injection Hre2' as <- <-.
  destruct (group_layers_chained cfg seg_scores idxs inter cross
              Hidxs Hinter Hcross Hl1 Hl2 Hl3
              (foldl (fun (mask : gmap Z Z) s => <[s := -1]> mask) ∅
                     (valid_segs cfg seg_scores)))
    as (mask & Hloops & (Hforest & Hkeys & _) & Hch).
  { apply initial_mask_inv. }
  { intros i p Hp Hne. rewrite initial_mask_lookup, lookup_empty in Hp.
    destruct (bool_decide _); congruence. }
  destruct (to_list_spec mask Hforest)
    as (groups & res & Hlist & Hgroups & Hmem & Hres & Hfound).
  exists groups. split.
  { unfold group_segs. rewrite Hre1, bind_Ok, Hre2, bind_Ok. cbv beta iota.
    rewrite Hloops, bind_Ok. exact Hlist. }
  assert (Hnd : NoDup (concat groups)).
  { subst groups. fold (members res). rewrite Hmem.
    change (map fst ?x) with (fst <$> x). apply NoDup_fst_map_to_list. }
  (* the tree of [a] *)
  pose proof (proj2 (Hkeys a) Hva) as Hkey.
  destruct Hforest as [_ Hroots].
  destruct (Hroots a Hkey) as (r & n & Hp).
  assert (r = a) as ->.
  { apply (connected_isolated cfg seg_scores idxs inter cross a r Hfree).
    by apply (path_connected _ _ _ _ _ mask a r n). }
  destruct (Hfound a a n) as (l & Hl & Hal); [|exact Hp|].
  { destruct Hkey as [v Hv]. change (map fst ?x) with (fst <$> x).
    apply list_elem_of_fmap. exists (a, v). split; [reflexivity|].
    by apply elem_of_map_to_list. }
  assert (Hlg : l ∈ groups).
  { subst groups. change (map snd ?x) with (snd <$> x).
    apply list_elem_of_fmap. exists (a, l). split; [reflexivity|].
    by apply elem_of_map_to_list. }
  assert (Hall : forall x, x ∈ l -> x = a).
  { intros x Hx. destruct (Hres a l Hl) as [_ Hpaths].
    destruct (Hpaths x Hx) as [n' Hpx].
    apply (connected_isolated cfg seg_scores idxs inter cross a x Hfree).
    apply connected_sym. by apply (path_connected _ _ _ _ _ mask x a n'). }
  pose proof (NoDup_concat_elem groups l Hnd Hlg) as Hndl.
  destruct l as [|x [|y l]].
  - by apply elem_of_nil in Hal.
  - rewrite (Hall x) in Hlg by by left. exact Hlg.
  - exfalso. apply NoDup_cons in Hndl as [Hx _]. apply Hx.
    rewrite (Hall x) by by left.
    rewrite (Hall y) by (right; by left). by left.
Qed.

(** The decoder returns no boxes at all when some segment passes the
    threshold and no qualifying link touches it: the segment is a group
    of its own, and [combine_segs] raises on a group of one segment. *)
Theorem seglink_to_bbox_isolated_raises (cfg : config)
    (seg_scores link_scores : list Q) (segs : list rect)
    idxs inter cross (a : Z) :
  reshape_labels_by_layer (feat_shapes cfg)
    (seqZ 0 (Z.of_nat (length seg_scores))) = Ok idxs ->
  reshape_link_gt_by_layer (feat_shapes cfg) link_scores
  = Ok (inter, cross) ->
  valid_seg cfg seg_scores a ->
  (forall c, ~ linked cfg seg_scores idxs inter cross a c /\
             ~ linked cfg seg_scores idxs inter cross c a) ->
  exists e, seglink_to_bbox cfg seg_scores link_scores segs = Raise e.
Proof.
  intros Hre1 Hre2 Hva Hfree.
  destruct (group_segs_isolated cfg seg_scores link_scores idxs inter cross a
              Hre1 Hre2 Hva Hfree) as (groups & Hrun & Hin).
  unfold seglink_to_bbox. rewrite Hrun, bind_Ok.
  apply (foldM_raises _ groups [a] Hin). intros bboxes.
  rewrite foldM_cons. simpl foldM.
  destruct (get1 segs a) as [s|e]; [|by exists e].
  rewrite !bind_Ok. simpl app. rewrite combine_segs_scan by discriminate.
  by exists AssertionError.
Qed.

End decoder_failures.

(** On the two layers of [demo_cfg], with a cross-layer link above the
    threshold from the cell of the second layer to the cell of the
    first: the two segments are in one group. *)
Lemma group_segs_linked_together_demo :
  exists groups g,
    group_segs demo_cfg [9 # 10; 9 # 10]%Q
      (replicate 16 (1 # 10)%Q ++ [9 # 10; 1 # 10; 1 # 10; 1 # 10]%Q)
    = Ok groups /\
    g ∈ groups /\ 1%Z ∈ g /\ 0%Z ∈ g.
Proof.
  destruct (group_segs_linked_together demo_cfg [9 # 10; 9 # 10]%Q
              (replicate 16 (1 # 10)%Q ++ [9 # 10; 1 # 10; 1 # 10; 1 # 10]%Q)
              eq_refl eq_refl)
    as (groups & idxs & inter & cross & Hrun & Hre1 & Hre2 & Hlinked).
  destruct (Hlinked 1%Z 0%Z) as (g & Hg & H1 & H0).
  { vm_compute in Hre1. injection Hre1 as <-.
    vm_compute in Hre2. injection Hre2 as <- <-.
    split; [exists (9 # 10)%Q; split; reflexivity|].
    split; [exists (9 # 10)%Q; split; reflexivity|].
    exists 1%nat, (Array2 1 1 [1%Z]), 0%Z, 0%Z, 0%nat, 0%Z, 0%Z, (9 # 10)%Q.
    split; [reflexivity|]. split; [reflexivity|]. split; [reflexivity|].
    right. eexists _, _. split; [lia|]. split; [reflexivity|].
    split; [reflexivity|]. split; [reflexivity|]. split; reflexivity. }
  exists groups, g. auto.
Defined.

Lemma group_segs_group_connected_demo :
  exists groups idxs inter cross,
    group_segs demo_cfg [9 # 10; 9 # 10]%Q
      (replicate 16 (1 # 10)%Q ++ [9 # 10; 1 # 10; 1 # 10; 1 # 10]%Q)
    = Ok groups /\
    reshape_labels_by_layer (feat_shapes demo_cfg) (seqZ 0 2) = Ok idxs /\
    reshape_link_gt_by_layer (feat_shapes demo_cfg)
      (replicate 16 (1 # 10)%Q ++ [9 # 10; 1 # 10; 1 # 10; 1 # 10]%Q)
    = Ok (inter, cross) /\
    forall g a b, g ∈ groups -> a ∈ g -> b ∈ g ->
      connected demo_cfg [9 # 10; 9 # 10]%Q idxs inter cross a b.
Proof.
  apply (group_segs_group_connected demo_cfg [9 # 10; 9 # 10]%Q
           (replicate 16 (1 # 10)%Q ++ [9 # 10; 1 # 10; 1 # 10; 1 # 10]%Q));
    reflexivity.
Defined.

(** One segment above the threshold and no link score above it. *)
Lemma seglink_to_bbox_isolated_raises_demo :
  exists e,
    seglink_to_bbox demo_cfg [9 # 10; 1 # 10]%Q (replicate 20 (1 # 10)%Q)
      [Rect 0 0 10 10 0; Rect 20 0 10 10 0]
    = Raise e.
Proof.
  eapply (seglink_to_bbox_isolated_raises demo_cfg [9 # 10; 1 # 10]%Q
            (replicate 20 (1 # 10)%Q) _ _ _ _ 0%Z).
  - vm_compute. reflexivity.
  - vm_compute. reflexivity.
  - exists (9 # 10)%Q. split; reflexivity.
  - assert (Hlow : forall (gt : array3 Q) y x k s,
              gt ∈ [Array3 1 1 8 (replicate 8 (1 # 10)%Q);
                    Array3 1 1 4 (replicate 4 (1 # 10)%Q)] ->
              get3 gt y x k = Ok s ->
              score_ge s (link_confidence_threshold demo_cfg) = true ->
              False).
    { intros gt y x k s Hgt Hget Hpass. unfold get3 in Hget.
      destruct (_ && _); [|discriminate].
      apply py_get_Ok_inv, list_elem_of_lookup_2 in Hget.
      assert (Hs : s = (1 # 10)%Q).
      { apply elem_of_cons in Hgt as [->|Hgt];
          [|apply list_elem_of_singleton in Hgt; subst gt];
          cbn [a3_data] in Hget; by apply elem_of_replicate in Hget as [-> _]. }
      subst s. discriminate. }
    intros c. split;
      intros (_ & _ & l & idx & x & y & k & nx & ny & s & _ & _ & Hs
              & [(gt & _ & _ & Hgt & Hget)|(p & gt & _ & _ & _ & _ & Hgt & Hget)]);
      apply list_elem_of_lookup_2 in Hgt;
      apply (Hlow gt y x (Z.of_nat k) s); try assumption.
    all: repeat (apply elem_of_cons in Hgt as [->|Hgt]; [set_solver|]);
      by apply elem_of_nil in Hgt.
Defined.

(** ** Synthesizer: when it fails, and the line it fits *)

Section synthesizer_more.
Local Open Scope R_scope.

Lemma point_dist_same (p : R * R) : point_dist p p = 0.
Proof.
  unfold point_dist. replace ((p.1 - p.1) ^ 2 + (p.2 - p.2) ^ 2) with 0 by ring.
  apply sqrt_0.
Qed.

(** [combine_segs] needs two centers that differ: on no segment, on one
    segment, and on segments that all have the same center, every
    projected center is the same point, no distance is above the initial
    [max_dist = 0], [idx1] and [idx2] stay [-1] and an assertion
    fails. *)
Theorem combine_segs_coincident_raises (segs : list rect) (cx cy : R) :
  (forall s, s ∈ segs -> r_cx s = cx /\ r_cy s = cy) ->
  combine_segs segs = Raise AssertionError.
Proof.
  intros Hsame. destruct (decide (segs = [])) as [->|Hne]; [reflexivity|].
  rewrite (combine_segs_scan segs Hne). unfold scan_result.
  set (pp := proj_points_of segs) in *.
  destruct (max_dist_scan pp (all_pairs (length segs)) (0, (-1)%Z, (-1)%Z))
    as (_ & _ & Hlast).
  destruct Hlast as [-> | (L1 & [i j] & L2 & Hsplit & _ & Hlt & _)];
    [reflexivity | exfalso].
  simpl in Hlt.
  assert (Hij : (i < j < length segs)%nat).
  { apply all_pairs_elem. rewrite Hsplit. apply elem_of_app. right. left. }
  destruct (lookup_lt_is_Some_2 segs i) as [s Hs]; [lia|].
  destruct (lookup_lt_is_Some_2 segs j) as [t Ht]; [lia|].
  unfold pp in Hlt. rewrite (pair_dist_points segs i j s t Hs Ht) in Hlt.
  destruct (Hsame s) as [Hsx Hsy]; [by eapply list_elem_of_lookup_2|].
  destruct (Hsame t) as [Htx Hty]; [by eapply list_elem_of_lookup_2|].
  assert (Heq : proj_point segs s = proj_point segs t).
  { unfold proj_point. by rewrite Hsx, Hsy, Htx, Hty. }
  rewrite Heq, point_dist_same in Hlt. lra.
Qed.

(** Two segments of the same center. *)
Lemma combine_segs_coincident_raises_demo :
  combine_segs [Rect 5 5 10 10 0; Rect 5 5 20 10 0] = Raise AssertionError.
Proof.
  apply (combine_segs_coincident_raises
           [Rect 5 5 10 10 0; Rect 5 5 20 10 0] 5 5).
  intros s [->|[->|Hs%elem_of_nil]%elem_of_cons]%elem_of_cons;
    [split; reflexivity | split; reflexivity | contradiction].
Defined.

(** The sum of the squares of the vertical distances of the centers to
    the line [y = k * x + b]. *)
Definition squared_error (k b : R) (segs : list rect) : R :=
  fold_right Rplus 0 (map (fun s => (k * r_cx s + b - r_cy s) ^ 2) segs).

Lemma squared_error_expand (k b : R) (segs : list rect) :
  squared_error k b segs
  = fold_right Rplus 0 (map (fun s => (r_cy s - k * r_cx s) ^ 2) segs)
    - 2 * b * fold_right Rplus 0
                (zip_with (fun y x => y - k * x)
                          (map r_cy segs) (map r_cx segs))
    + INR (length segs) * b ^ 2.
Proof.
  unfold squared_error. induction segs as [|s segs IH].
  - simpl. ring.
  - cbn [map fold_right zip_with length]. rewrite IH, S_INR. ring.
Qed.

(** Away from the pole of the tangent (the mean angle is not
    [90 + 180 n] degrees), the intercept [combine_segs] returns is the
    one of the least squares: among the lines of the slope
    [tan (mean theta)], the line through it has the least sum of squared
    vertical distances to the centers of the segments. *)
Theorem combine_segs_least_squares (segs : list rect)
    (bcx bcy bw bh bar_theta b : R) :
  combine_segs segs = Ok (bcx, bcy, bw, bh, bar_theta, b) ->
  cos_deg (np_mean (map r_theta segs)) <> 0 ->
  bar_theta = np_mean (map r_theta segs) /\
  forall b', squared_error (tan_deg bar_theta) b segs
             <= squared_error (tan_deg bar_theta) b' segs.
Proof.
  intros Hrun _.
  assert (Hne : segs <> []) by (intros ->; discriminate).
  rewrite (combine_segs_scan segs Hne) in Hrun.
  destruct (scan_result segs) as [[max_dist idx1] idx2].
  destruct (py_assert _); [|discriminate]. rewrite bind_Ok in Hrun.
  destruct (py_get IndexError segs (Z.to_nat idx1)); [|discriminate].
  rewrite bind_Ok in Hrun.
  destruct (py_get IndexError segs (Z.to_nat idx2)); [|discriminate].
  rewrite bind_Ok in Hrun. injection Hrun as _ _ _ _ Htheta Hb.
  split; [by symmetry|]. subst bar_theta. intros b'.
  set (k := tan_deg (np_mean (map r_theta segs))) in *.
  rewrite !squared_error_expand.
  set (S := fold_right Rplus 0
              (zip_with (fun y x => y - k * x)
                        (map r_cy segs) (map r_cx segs))) in *.
  set (n := INR (length segs)).
  assert (Hn : 0 < n).
  { unfold n. apply lt_0_INR. destruct segs; [congruence | simpl; lia]. }
  assert (HS : S = n * b).
  { subst b. unfold np_mean.
    rewrite length_zip_with, !length_map, Nat.min_id. fold n S.
    field. lra. }
  rewrite HS.
  assert (H : 0 <= n * (b' - b) ^ 2).
  { apply Rmult_le_pos; [lra|]. apply pow2_ge_0. }
  lra.
Qed.

Lemma combine_segs_least_squares_demo :
  0 = np_mean (map r_theta [Rect 0 0 10 10 0; Rect 20 0 10 10 0]) /\
  forall b', squared_error (tan_deg 0) 0
               [Rect 0 0 10 10 0; Rect 20 0 10 10 0]
             <= squared_error (tan_deg 0) b'
                  [Rect 0 0 10 10 0; Rect 20 0 10 10 0].
Proof.
  apply (combine_segs_least_squares [Rect 0 0 10 10 0; Rect 20 0 10 10 0]
           10 0 30 10 0 0).
  - exact two_segs_box.
  - fold two_segs. rewrite two_segs_bar_theta, cos_deg_0. lra.
Defined.

End synthesizer_more.

(** ** Segment grouper: [get_root] and [union] *)

Section union_more.
Local Open Scope Z_scope.

(** On a forest, [union] of two keys returns a forest over the same keys
    in which [get_root] gives the two keys one root, and keys that had
    one root before have one root after.  On a key that the dictionary
    does not hold, [get_root] and [union] raise [KeyError]. *)
Theorem union_get_root (mask : gmap Z Z) (a b : Z) :
  forest mask ->
  (is_Some (mask !! a) -> is_Some (mask !! b) ->
   exists mask' r,
     union mask a b = Ok mask' /\ forest mask' /\ dom mask' = dom mask /\
     get_root mask' a = Ok r /\ get_root mask' b = Ok r /\
     forall c d rc, get_root mask c = Ok rc -> get_root mask d = Ok rc ->
       exists rc', get_root mask' c = Ok rc' /\ get_root mask' d = Ok rc') /\
  (mask !! a = None ->
   get_root mask a = Raise KeyError /\ union mask a b = Raise KeyError).
Proof.
  intros Hforest. split.
  - intros Ha Hb.
    destruct (union_forest mask a b Hforest Ha Hb)
      as (mask' & r1 & r2 & n1 & n2 & Hrun & _ & _ & _ & Hforest' & Hdom).
    destruct (union_roots mask a b Hforest Ha Hb)
      as (mask'' & Hrun' & (r & na & nb & Hpa & Hpb) & Hkeep).
    rewrite Hrun in Hrun'. injection Hrun' as <-.
    exists mask', r. split; [exact Hrun|]. split; [exact Hforest'|].
    split; [exact Hdom|].
    split; [by apply (get_root_path mask' a r na)|].
    split; [by apply (get_root_path mask' b r nb)|].
    intros c d rc Hc Hd.
    assert (Hkey : forall x rx, get_root mask x = Ok rx ->
                     exists n, path mask x rx n).
    { intros x rx Hx. destruct (mask !! x) as [p|] eqn:Hp.
      - destruct Hforest as [_ Hroots].
        destruct (Hroots x) as (rx' & n & Hpath); [eauto|].
        rewrite (get_root_path mask x rx' n Hpath) in Hx.
        injection Hx as <-. eauto.
      - unfold get_root, dict_get in Hx. rewrite Hp in Hx. discriminate. }
    destruct (Hkey c rc Hc) as [nc Hpc]. destruct (Hkey d rc Hd) as [nd Hpd].
    destruct (Hkeep c d) as (rc' & nc' & nd' & Hpc' & Hpd');
      [by exists rc, nc, nd|].
    exists rc'. split; [by apply (get_root_path mask' c rc' nc') |
                        by apply (get_root_path mask' d rc' nd')].
  - intros Ha. unfold union, get_root, dict_get. rewrite Ha. auto.
Qed.

(** Two segments above the threshold, each a root of its own. *)
Lemma union_get_root_demo :
  exists mask' r,
    union (foldl (fun (mask : gmap Z Z) s => <[s := -1]> mask) ∅
                 (valid_segs demo_cfg [9 # 10; 9 # 10]%Q)) 0 1 = Ok mask' /\
    get_root mask' 0 = Ok r /\ get_root mask' 1 = Ok r.
Proof.
  pose proof (initial_mask_inv demo_cfg [9 # 10; 9 # 10]%Q [] [] [])
    as (Hforest & Hkeys & _).
  destruct (proj1 (union_get_root _ 0 1 Hforest))
    as (mask' & r & Hrun & _ & _ & H0 & H1 & _).
  - apply Hkeys. exists (9 # 10)%Q. split; reflexivity.
  - apply Hkeys. exists (9 # 10)%Q. split; reflexivity.
  - exists mask', r. auto.
Defined.

End union_more.
